(** * Mini React compiler: IR lowering, dependency analysis, block
    partitioning and code generation.

    Shallow embedding of the compiler core of the repository:
    - [Transform.ts]           : [getDeclaration], [lowerBabelInstr], [readInstructions]
    - [LoweredJavaScript.ts]   : [eachValue]
    - [Analysis.ts]            : [isHookCall], [isExpensiveOperation],
                                 [getValuesThatMayChange], [getWritableValues], [analyze]
    - [CodeGen.ts]             : [DisjointSet], [getInstructionScopeRanges],
                                 [makeReactiveInstrs], [instrToExpression], [codegenJS]
    - [compiler/index.ts]      : [extractIdentifiers], [hasExpensiveOperation]
                                 and the [FunctionDeclaration] visitor.

    Modelling choices.
    - A [FunctionBody] is a JS [Map<InstrId, Instruction>] whose keys are
      always [state.size] at insertion time, i.e. the dense range
      [0 .. size-1] in insertion order.  It is modelled as a list whose
      positions are the ids: [func.get(i)] is [nth_error func i] and
      iteration over the map is iteration over the list with its index.
    - A JS [Map] keyed by strings whose insertion order matters (object
      literal properties, the disjoint-set maps) is an association list
      updated in place ([set] on an existing key keeps its position).
    - A JS [Set] is a duplicate-free list in insertion order.
    - Numeric literals of the source are non-negative integers ([nat]);
      source locations ([loc]) are not modelled, nothing here reads them.
    - A thrown [Error] is the [Throw] branch of [Result]; the console log
      is an explicit list of [LogLine]s threaded through the state. *)

From Stdlib Require Import List String Ascii Arith Lia Bool Sorting.Sorted Permutation.
Import ListNotations.
Set Warnings "-register-all".

Local Notation "a +s+ b" := (String.append a b) (at level 60, right associativity).
Local Open Scope string_scope.
Local Open Scope list_scope.

(** ** Strings *)

Fixpoint digits_aux (fuel n : nat) (acc : string) : string :=
  match fuel with
  | 0 => acc
  | S f =>
      let acc' := String (ascii_of_nat (48 + n mod 10)) acc in
      if Nat.ltb n 10 then acc' else digits_aux f (n / 10) acc'
  end.

(** [String(n)] / [n.toString()] for a non-negative integer. *)
Definition string_of_nat (n : nat) : string := digits_aux (S n) n EmptyString.

(** [s.startsWith(p)] *)
Definition startsWith (s p : string) : bool := String.prefix p s.

(** [s.includes(needle)] *)
Fixpoint includes (s needle : string) : bool :=
  String.prefix needle s ||
  match s with
  | EmptyString => false
  | String _ rest => includes rest needle
  end.

(** [arr.join(sep)] *)
Fixpoint join (sep : string) (xs : list string) : string :=
  match xs with
  | [] => EmptyString
  | [x] => x
  | x :: xs' => x +s+ sep +s+ join sep xs'
  end.

Definition string_mem (x : string) (xs : list string) : bool :=
  existsb (String.eqb x) xs.

(** ** Babel AST (the node kinds the compiler distinguishes) *)

Inductive Node : Type :=
| Identifier (name : string)
| StringLiteral (value : string)
| NumericLiteral (value : nat)
| BooleanLiteral (value : bool)
| MemberExpression (object property : Node) (computed : bool)
| ObjectExpression (properties : list Node)
| ObjectProperty (key value : Node)
| SpreadElement (argument : Node)
| CallExpression (callee : Node) (arguments : list Node)
| ArrowFunctionExpression (params : list Node) (body : Node)
| FunctionExpression (params : list Node) (body : Node)
| BinaryExpression (operator : string) (left right : Node)
| ArrayExpression (elements : list Node)
| BlockStatement (body : list Node)
| ExpressionStatement (expression : Node)
| ReturnStatement (argument : option Node)
| VariableDeclaration (kind : string) (declarations : list Node)
| VariableDeclarator (id : Node) (init : option Node)
| ArrayPattern (elements : list (option Node))
| ObjectPattern (properties : list Node)
| OtherNode (type : string).

(** [node.type] *)
Definition node_type (n : Node) : string :=
  match n with
  | Identifier _ => "Identifier"
  | StringLiteral _ => "StringLiteral"
  | NumericLiteral _ => "NumericLiteral"
  | BooleanLiteral _ => "BooleanLiteral"
  | MemberExpression _ _ _ => "MemberExpression"
  | ObjectExpression _ => "ObjectExpression"
  | ObjectProperty _ _ => "ObjectProperty"
  | SpreadElement _ => "SpreadElement"
  | CallExpression _ _ => "CallExpression"
  | ArrowFunctionExpression _ _ => "ArrowFunctionExpression"
  | FunctionExpression _ _ => "FunctionExpression"
  | BinaryExpression _ _ _ => "BinaryExpression"
  | ArrayExpression _ => "ArrayExpression"
  | BlockStatement _ => "BlockStatement"
  | ExpressionStatement _ => "ExpressionStatement"
  | ReturnStatement _ => "ReturnStatement"
  | VariableDeclaration _ _ => "VariableDeclaration"
  | VariableDeclarator _ _ => "VariableDeclarator"
  | ArrayPattern _ => "ArrayPattern"
  | ObjectPattern _ => "ObjectPattern"
  | OtherNode ty => ty
  end.

(** A function declaration: its parameter list and body statements. *)
Record FunctionDeclaration := mkFunction {
  params : list Node;
  body : list Node
}.

(** ** IR ([types.ts]) *)

Definition InstrId := nat.

Inductive Literal :=
| LStr (s : string)
| LNum (n : nat)
| LBool (b : bool).

Inductive Value :=
| RValue (value : InstrId)
| VLiteral (value : Literal).

Inductive PropName :=
| PStr (s : string)
| PNum (n : nat).

Inductive Instruction :=
| Call (receiver : InstrId) (property : option string) (arguments : list Value)
| Object (properties : list (string * Value))
| ReadProperty (object : InstrId) (property : PropName)
| Declare (lhs : string) (rhs : InstrId)
| Param (name : string)
| LoadConstant (variableName : string)
| Return (value : option InstrId).

Definition FunctionBody := list Instruction.

(** [propertyValues.set(key, v)] on a [Map<string, Value>] *)
Fixpoint map_set {V : Type} (m : list (string * V)) (k : string) (v : V)
  : list (string * V) :=
  match m with
  | [] => [(k, v)]
  | (k', v') :: rest =>
      if String.eqb k k' then (k, v) :: rest else (k', v') :: map_set rest k v
  end.

Definition value_ids (vs : list Value) : list InstrId :=
  flat_map (fun v => match v with RValue i => [i] | VLiteral _ => [] end) vs.

(** [eachValue]: the ids an instruction consumes, in yield order. *)
Definition eachValue (instr : Instruction) : list InstrId :=
  match instr with
  | Call receiver _ args => receiver :: value_ids args
  | Object props => value_ids (map snd props)
  | ReadProperty obj _ => [obj]
  | Declare _ rhs => [rhs]
  | Return (Some v) => [v]
  | Return None => []
  | Param _ | LoadConstant _ => []
  end.

(** ** Lowering ([Transform.ts]) *)

Inductive LogLine :=
| LogInstr (id : InstrId)                 (* logInstr(state, id) *)
| LogSkipPattern (type : string)          (* Skipping unsupported declaration pattern *)
| LogSkipInstr (type : string).           (* Skipping unsupported instruction *)

Record LowerState := mkLowerState {
  instrs : FunctionBody;
  logs : list LogLine
}.

Inductive Result (A : Type) :=
| Ok (a : A)
| Throw (msg : string).
Arguments Ok {A} a.
Arguments Throw {A} msg.

(** State and exception monad of the lowering. *)
Definition M (A : Type) : Type := LowerState -> Result (A * LowerState).

Definition ret {A} (a : A) : M A := fun st => Ok (a, st).
Definition bind {A B} (m : M A) (k : A -> M B) : M B :=
  fun st => match m st with
            | Ok (a, st') => k a st'
            | Throw e => Throw e
            end.
Definition throw {A} (msg : string) : M A := fun _ => Throw msg.
Definition get_state : M LowerState := fun st => Ok (st, st).

Notation "x <- m ;; k" := (bind m (fun x => k))
  (at level 61, m at next level, right associativity).

(** [assertsValid(false, msg)] *)
Definition invalid {A} (msg : string) : M A := throw ("Invalid syntax. " +s+ msg).

Definition log (l : LogLine) : M unit :=
  fun st => Ok (tt, mkLowerState (instrs st) (logs st ++ [l])).

(** [const currValue = state.size; state.set(currValue, i); logInstr(state, currValue); return currValue] *)
Definition push (i : Instruction) : M InstrId :=
  fun st =>
    let id := List.length (instrs st) in
    Ok (id, mkLowerState (instrs st ++ [i]) (logs st ++ [LogInstr id])).

(** [instrs.set(instrs.size, param)] in [readInstructions] (no log line) *)
Definition push_param (i : Instruction) : M unit :=
  fun st => Ok (tt, mkLowerState (instrs st ++ [i]) (logs st)).

Fixpoint getDeclaration_from (id : InstrId) (func : FunctionBody) (variableName : string)
  : option InstrId :=
  match func with
  | [] => None
  | instr :: rest =>
      match instr with
      | Declare lhs _ =>
          if String.eqb lhs variableName then Some id
          else getDeclaration_from (S id) rest variableName
      | Param name =>
          if String.eqb name variableName then Some id
          else getDeclaration_from (S id) rest variableName
      | _ => getDeclaration_from (S id) rest variableName
      end
  end.

(** [getDeclaration]: scans [func.entries()] in order, returns on the first match. *)
Definition getDeclaration (func : FunctionBody) (variableName : string) : option InstrId :=
  getDeclaration_from 0 func variableName.

Definition literal_of (n : Node) : option Literal :=
  match n with
  | StringLiteral s => Some (LStr s)
  | NumericLiteral v => Some (LNum v)
  | BooleanLiteral b => Some (LBool b)
  | _ => None
  end.

Definition string_of_bool (b : bool) : string := if b then "true" else "false".

(** [String(instr.node.value)] for a literal node *)
Definition literal_string (l : Literal) : string :=
  match l with
  | LStr s => s
  | LNum n => string_of_nat n
  | LBool b => string_of_bool b
  end.

(** The synthetic name of an array-pattern declaration: [[a, _1, c]]. *)
Definition array_pattern_name (els : list (option Node)) : string :=
  let fix names (i : nat) (es : list (option Node)) : list string :=
    match es with
    | [] => []
    | Some (Identifier nm) :: es' => nm :: names (S i) es'
    | _ :: es' => ("_" +s+ string_of_nat i) :: names (S i) es'
    end in
  "[" +s+ join ", " (names 0 els) +s+ "]".

Fixpoint lowerBabelInstr (n : Node) : M InstrId :=
  match n with
  | MemberExpression obj prop _ =>
      objectValue <- lowerBabelInstr obj ;;
      propertyName <- match prop with
                      | Identifier nm => ret (PStr nm)
                      | NumericLiteral v => ret (PNum v)
                      | StringLiteral s => ret (PStr s)
                      | _ => throw ("Unsupported property type: " +s+ node_type prop)
                      end ;;
      push (ReadProperty objectValue propertyName)
  | ObjectExpression props =>
      let fix lower_props (ps : list Node) (acc : list (string * Value))
          : M (list (string * Value)) :=
        match ps with
        | [] => ret acc
        | ObjectProperty key value :: ps' =>
            match key with
            | Identifier keyName =>
                loweredValue <- match literal_of value with
                                | Some l => ret (VLiteral l)
                                | None => v <- lowerBabelInstr value ;; ret (RValue v)
                                end ;;
                lower_props ps' (map_set acc keyName loweredValue)
            | _ => invalid "Only identifier keys supported"
            end
        | _ :: ps' => lower_props ps' acc
        end in
      propertyValues <- lower_props props [] ;;
      push (Object propertyValues)
  | CallExpression callee args =>
      rp <- match callee with
            | MemberExpression obj prop _ =>
                r <- lowerBabelInstr obj ;;
                match prop with
                | Identifier nm => ret (r, Some nm)
                | _ => invalid "Only identifier properties supported"
                end
            | _ => r <- lowerBabelInstr callee ;; ret (r, None)
            end ;;
      let fix lower_args (xs : list Node) : M (list Value) :=
        match xs with
        | [] => ret []
        | a :: xs' =>
            v <- match literal_of a with
                 | Some l => ret (VLiteral l)
                 | None => i <- lowerBabelInstr a ;; ret (RValue i)
                 end ;;
            vs <- lower_args xs' ;;
            ret (v :: vs)
        end in
      argumentValues <- lower_args args ;;
      push (Call (fst rp) (snd rp) argumentValues)
  | ReturnStatement arg =>
      argumentValue <- match arg with
                       | Some a => i <- lowerBabelInstr a ;; ret (Some i)
                       | None => ret None
                       end ;;
      push (Return argumentValue)
  | VariableDeclaration _ decls =>
      let fix lower_decls (ds : list Node) (lastValue : InstrId) : M InstrId :=
        match ds with
        | [] => ret lastValue
        | VariableDeclarator id init :: ds' =>
            match init with
            | None => invalid "Variable must have initializer"
            | Some e =>
                match id with
                | Identifier nm =>
                    initValue <- lowerBabelInstr e ;;
                    currValue <- push (Declare nm initValue) ;;
                    lower_decls ds' currValue
                | ArrayPattern els =>
                    initValue <- lowerBabelInstr e ;;
                    currValue <- push (Declare (array_pattern_name els) initValue) ;;
                    lower_decls ds' currValue
                | _ =>
                    _ <- log (LogSkipPattern (node_type id)) ;;
                    lower_decls ds' lastValue
                end
            end
        | _ :: ds' => lower_decls ds' lastValue
        end in
      st <- get_state ;;
      lower_decls decls (List.length (instrs st))
  | Identifier name =>
      st <- get_state ;;
      match getDeclaration (instrs st) name with
      | Some localDeclaration => ret localDeclaration
      | None => push (LoadConstant name)
      end
  | ExpressionStatement e => lowerBabelInstr e
  | StringLiteral s => push (LoadConstant (literal_string (LStr s)))
  | NumericLiteral v => push (LoadConstant (literal_string (LNum v)))
  | BooleanLiteral b => push (LoadConstant (literal_string (LBool b)))
  | ArrowFunctionExpression _ _ | FunctionExpression _ _ =>
      push (LoadConstant "function")
  | other =>
      _ <- log (LogSkipInstr (node_type other)) ;;
      push (LoadConstant ("unsupported_" +s+ node_type other))
  end.

Definition lowerParam (param : Node) : M unit :=
  match param with
  | ObjectPattern props =>
      let fix lower_props (ps : list Node) : M unit :=
        match ps with
        | [] => ret tt
        | ObjectProperty key _ :: ps' =>
            match key with
            | Identifier nm => _ <- push_param (Param nm) ;; lower_props ps'
            | _ => invalid "Cannot handle non-identifier key in destructured param"
            end
        | p :: _ => invalid ("Cannot handle " +s+ node_type p +s+ " in param")
        end in
      lower_props props
  | Identifier nm => push_param (Param nm)
  | other => invalid ("Cannot handle non-identifier param " +s+ node_type other)
  end.

Fixpoint forM_ {A} (xs : list A) (f : A -> M unit) : M unit :=
  match xs with
  | [] => ret tt
  | x :: xs' => _ <- f x ;; forM_ xs' f
  end.

(** [readInstructions]: parameters first, then every body statement. The
    final state carries the FunctionBody and the diagnostic log. *)
Definition readInstructions (func : FunctionDeclaration) : Result LowerState :=
  let prog :=
    _ <- forM_ (params func) lowerParam ;;
    forM_ (body func) (fun s => _ <- lowerBabelInstr s ;; ret tt) in
  match prog (mkLowerState [] []) with
  | Ok (_, st) => Ok st
  | Throw e => Throw e
  end.

(** ** Analysis ([Analysis.ts]) *)

(** [s.has(x)] and [s.add(x)] on a JS [Set] of ids *)
Definition set_has (x : InstrId) (s : list InstrId) : bool := existsb (Nat.eqb x) s.
Definition set_add (x : InstrId) (s : list InstrId) : list InstrId :=
  if set_has x s then s else s ++ [x].

Definition isHookCall (instr : Instruction) (func : FunctionBody) : bool :=
  match instr with
  | Call receiver _ _ =>
      match nth_error func receiver with
      | Some (LoadConstant variableName) => startsWith variableName "use"
      | _ => false
      end
  | _ => false
  end.

Definition expensiveMethods : list string :=
  ["map"; "filter"; "reduce"; "sort"; "find"; "findIndex"].

Definition expensiveFunctions : list string :=
  ["Math.sqrt"; "Math.pow"; "Math.sin"; "Math.cos"].

(** [fn.split('.')[0]] *)
Fixpoint split_dot_head (s : string) : string :=
  match s with
  | EmptyString => EmptyString
  | String c rest => if Ascii.eqb c "." then EmptyString else String c (split_dot_head rest)
  end.

(** [isExpensiveOperation]. A property name is tested with [if (instr.property)],
    so the empty string falls through to the receiver test like [null]. *)
Definition isExpensiveOperation (instr : Instruction) (func : FunctionBody) : bool :=
  match instr with
  | Call receiver property _ =>
      let receiver_test :=
        match nth_error func receiver with
        | Some (LoadConstant variableName) =>
            existsb (fun fn => includes variableName (split_dot_head fn)) expensiveFunctions
        | _ => false
        end in
      match property with
      | Some p => if String.eqb p "" then receiver_test else string_mem p expensiveMethods
      | None => receiver_test
      end
  | Object _ => true
  | _ => false
  end.

Definition is_param (instr : Instruction) : bool :=
  match instr with Param _ => true | _ => false end.

Definition is_object_or_call (instr : Instruction) : bool :=
  match instr with Object _ | Call _ _ _ => true | _ => false end.

(** The loop body shared by [getValuesThatMayChange] and [getWritableValues]:
    a seeded instruction is added; otherwise, for each consumed id in yield
    order, [if (set.has(used)) set.add(id)]. *)
Fixpoint sweep_from (seed : Instruction -> bool) (id : InstrId)
    (l : list Instruction) (acc : list InstrId) : list InstrId :=
  match l with
  | [] => acc
  | instr :: rest =>
      let acc' :=
        if seed instr then set_add id acc
        else fold_left (fun s used => if set_has used s then set_add id s else s)
               (eachValue instr) acc in
      sweep_from seed (S id) rest acc'
  end.

Definition getValuesThatMayChange (func : FunctionBody) : list InstrId :=
  sweep_from (fun instr => is_param instr || isHookCall instr func) 0 func [].

Definition getWritableValues (func : FunctionBody) : list InstrId :=
  sweep_from is_object_or_call 0 func [].

Record ValueInfo := mkValueInfo {
  dependencies : list InstrId;
  instructions : option (list InstrId);
  shouldMemo : bool
}.

(** [ValueInfos]: a [Map<InstrId, ValueInfo>] filled for every key of the
    function in order, i.e. indexed by id. *)
Definition ValueInfos := list ValueInfo.

(** Step 1 of [analyze], dependencies of one instruction. *)
Definition collect_dependencies (mayChange : list InstrId) (instr : Instruction)
  : list InstrId :=
  fold_left (fun deps used => if set_has used mayChange then set_add used deps else deps)
    (eachValue instr) [].

Definition analyze_step1 (func : FunctionBody) : ValueInfos :=
  let mayChange := getValuesThatMayChange func in
  map (fun instr =>
         let dependencies := collect_dependencies mayChange instr in
         mkValueInfo dependencies None
           (isExpensiveOperation instr func && Nat.ltb 0 (List.length dependencies)))
    func.

(** [result.get(used)!.instructions ??= new Set(); ...add(id)] *)
Definition add_mutator (id : InstrId) (info : ValueInfo) : ValueInfo :=
  mkValueInfo (dependencies info)
    (Some (set_add id (match instructions info with Some s => s | None => [] end)))
    (shouldMemo info).

Fixpoint update_nth {A} (f : A -> A) (n : nat) (l : list A) : list A :=
  match l, n with
  | [], _ => []
  | x :: l', 0 => f x :: l'
  | x :: l', S n' => x :: update_nth f n' l'
  end.

(** Step 2 of [analyze]. [used] is always a key of [result]: every id in
    [writableValues] is an id of [func]. *)
Fixpoint mutation_sweep (writableValues : list InstrId) (id : InstrId)
    (l : list Instruction) (result : ValueInfos) : ValueInfos :=
  match l with
  | [] => result
  | instr :: rest =>
      let result' :=
        match instr with
        | Call _ _ _ =>
            fold_left (fun r used =>
                         if set_has used writableValues then update_nth (add_mutator id) used r
                         else r)
              (eachValue instr) result
        | _ => result
        end in
      mutation_sweep writableValues (S id) rest result'
  end.

Definition analyze (func : FunctionBody) : ValueInfos :=
  mutation_sweep (getWritableValues func) 0 func (analyze_step1 func).

(** [shouldMemoize] *)
Definition shouldMemoize (info : ValueInfo) : bool :=
  shouldMemo info && Nat.ltb 0 (List.length (dependencies info)).

(** ** Block partitioning ([CodeGen.ts]) *)

(** A JS [Map<number, number>]: lookup, and [set] in place or appended. *)
Fixpoint jm_get (m : list (nat * nat)) (k : nat) : option nat :=
  match m with
  | [] => None
  | (k', v) :: rest => if Nat.eqb k k' then Some v else jm_get rest k
  end.

Fixpoint jm_set (m : list (nat * nat)) (k v : nat) : list (nat * nat) :=
  match m with
  | [] => [(k, v)]
  | (k', v') :: rest => if Nat.eqb k k' then (k, v) :: rest else (k', v') :: jm_set rest k v
  end.

(** [class DisjointSet<InstrId>] *)
Record DisjointSet := mkDS {
  parent : list (nat * nat);
  rank : list (nat * nat)
}.

Definition emptyDS : DisjointSet := mkDS [] [].

(** The first statement of [find]: register an unseen item as its own root. *)
Definition ensure (item : nat) (ds : DisjointSet) : DisjointSet :=
  match jm_get (parent ds) item with
  | Some _ => ds
  | None => mkDS (jm_set (parent ds) item item) (jm_set (rank ds) item 0)
  end.

(** [find] with path compression. The JS recursion has no bound; [fuel]
    bounds the length of the parent chain, which never exceeds the number
    of keys (ranks strictly increase along it). *)
Fixpoint find_chain (fuel : nat) (item : nat) (ds : DisjointSet) : DisjointSet * nat :=
  let ds1 := ensure item ds in
  let p := match jm_get (parent ds1) item with Some p => p | None => item end in
  if Nat.eqb p item then (ds1, item)
  else match fuel with
       | 0 => (ds1, p)
       | S f =>
           let '(ds2, r) := find_chain f p ds1 in
           (mkDS (jm_set (parent ds2) item r) (rank ds2), r)
       end.

Definition find (item : nat) (ds : DisjointSet) : DisjointSet * nat :=
  find_chain (S (List.length (parent ds))) item ds.

(** [this.rank.get(x) || 0] *)
Definition rank_of (ds : DisjointSet) (x : nat) : nat :=
  match jm_get (rank ds) x with Some r => r | None => 0 end.

Definition unionTwo (a b : nat) (ds : DisjointSet) : DisjointSet :=
  let '(ds1, rootA) := find a ds in
  let '(ds2, rootB) := find b ds1 in
  if Nat.eqb rootA rootB then ds2
  else
    let rankA := rank_of ds2 rootA in
    let rankB := rank_of ds2 rootB in
    if Nat.ltb rankA rankB then mkDS (jm_set (parent ds2) rootA rootB) (rank ds2)
    else if Nat.ltb rankB rankA then mkDS (jm_set (parent ds2) rootB rootA) (rank ds2)
    else mkDS (jm_set (parent ds2) rootB rootA) (jm_set (rank ds2) rootA (S rankA)).

Definition union (items : list nat) (ds : DisjointSet) : DisjointSet :=
  match items with
  | [] | [_] => ds
  | first :: rest => fold_left (fun d it => unionTwo first it d) rest ds
  end.

(** [groups.get(root)!.push(item)], creating the group when absent. *)
Fixpoint group_push (groups : list (nat * list nat)) (root item : nat)
  : list (nat * list nat) :=
  match groups with
  | [] => [(root, [item])]
  | (r, g) :: rest =>
      if Nat.eqb r root then (r, g ++ [item]) :: rest
      else (r, g) :: group_push rest root item
  end.

(** The loop of [buildSets] over [this.parent.keys()]. [find] only updates
    existing keys, so the live key iteration visits the keys present when
    the loop starts. *)
Fixpoint build_groups (keys : list nat) (ds : DisjointSet) (groups : list (nat * list nat))
  : list (nat * list nat) :=
  match keys with
  | [] => groups
  | k :: ks =>
      let '(ds', root) := find k ds in
      build_groups ks ds' (group_push groups root k)
  end.

Definition buildSets (ds : DisjointSet) : list (list nat) :=
  filter (fun g => Nat.ltb 1 (List.length g)) (map snd (build_groups (map fst (parent ds)) ds [])).

Record Range := mkRange { start : nat; end_ : nat }.

(** [{ start: Math.min(...set), end: Math.max(...set) }]; the sets have length > 1. *)
Definition range_of (set : list nat) : Range :=
  match set with
  | [] => mkRange 0 0
  | x :: xs => mkRange (fold_left Nat.min xs x) (fold_left Nat.max xs x)
  end.

(** [ranges.sort((a, b) => a.start - b.start)]: a stable sort by [start]. *)
Fixpoint insert_by_start (r : Range) (l : list Range) : list Range :=
  match l with
  | [] => [r]
  | x :: l' => if Nat.leb (start x) (start r) then x :: insert_by_start r l' else r :: l
  end.

Definition sort_ranges (l : list Range) : list Range :=
  fold_left (fun acc r => insert_by_start r acc) l [].

(** The merge loop; [previous] is the range being extended. *)
Fixpoint merge_from (previous : Range) (rs : list Range) : list Range :=
  match rs with
  | [] => [previous]
  | r :: rs' =>
      if Nat.leb (start r) (end_ previous)
      then merge_from (mkRange (start previous) (Nat.max (end_ previous) (end_ r))) rs'
      else previous :: merge_from r rs'
  end.

(** The ids handed to [mutatingSetBuilder.union] for instruction [id]. *)
Definition union_items (info : ValueInfo) (id : InstrId) : list nat :=
  (match instructions info with Some s => s | None => [] end) ++ [id].

Definition build_mutating_sets (func : FunctionBody) (valuesInfo : ValueInfos) : DisjointSet :=
  fold_left (fun ds id =>
               match nth_error valuesInfo id with
               | Some info => if shouldMemoize info then union (union_items info id) ds else ds
               | None => ds
               end)
    (seq 0 (List.length func)) emptyDS.

Definition getInstructionScopeRanges (func : FunctionBody) (valuesInfo : ValueInfos)
  : list Range :=
  match buildSets (build_mutating_sets func valuesInfo) with
  | [] => []
  | mutatingSets =>
      match sort_ranges (map range_of mutatingSets) with
      | [] => []
      | r0 :: rs => merge_from r0 rs
      end
  end.

Inductive ReactiveInstruction :=
| ReactiveBlock (instrs : list (InstrId * Instruction)) (decls deps : list InstrId)
| RInstr (id : InstrId) (instr : Instruction).

(** [for (let i = lo; i < hi; i++) { const instr = func.get(i); if (instr != null) hir.push(...) }] *)
Definition pass_through (func : FunctionBody) (lo hi : nat) : list ReactiveInstruction :=
  flat_map (fun i => match nth_error func i with
                     | Some instr => [RInstr i instr]
                     | None => []
                     end)
    (seq lo (hi - lo)).

(** One iteration of [for (let i = scope.start; i <= scope.end; i++)]: the
    block's instrs, decls and deps. *)
Definition make_block_step (func : FunctionBody) (valuesInfo : ValueInfos)
    (acc : list (InstrId * Instruction) * list InstrId * list InstrId) (i : nat)
  : list (InstrId * Instruction) * list InstrId * list InstrId :=
  let '(is, ds, ps) := acc in
  match nth_error func i with
  | Some instr =>
      let deps := match nth_error valuesInfo i with
                  | Some info => dependencies info
                  | None => []
                  end in
      (is ++ [(i, instr)], set_add i ds, fold_left (fun a d => set_add d a) deps ps)
  | None => acc
  end.

(** The block of one scope [[s, e]]. *)
Definition make_block (func : FunctionBody) (valuesInfo : ValueInfos) (s e : nat)
  : ReactiveInstruction :=
  let '(is, ds, ps) :=
    fold_left (make_block_step func valuesInfo) (seq s (S e - s)) ([], [], []) in
  ReactiveBlock is ds ps.

(** The loop over [scopes]; [None] is the [TypeError] of reading [.kind]
    of a missing [firstInstr]. *)
Fixpoint emit_scopes (func : FunctionBody) (valuesInfo : ValueInfos) (startingInstrId : nat)
    (scopes : list Range) (hir : list ReactiveInstruction)
  : option (list ReactiveInstruction * nat) :=
  match scopes with
  | [] => Some (hir, startingInstrId)
  | scope :: rest =>
      let hir1 := hir ++ pass_through func startingInstrId (start scope) in
      let next := S (end_ scope) in
      if Nat.eqb (start scope) (end_ scope) then
        match nth_error func (start scope) with
        | None => None
        | Some (Declare lhs rhs) =>
            emit_scopes func valuesInfo next rest (hir1 ++ [RInstr (start scope) (Declare lhs rhs)])
        | Some _ =>
            emit_scopes func valuesInfo next rest
              (hir1 ++ [make_block func valuesInfo (start scope) (end_ scope)])
        end
      else
        emit_scopes func valuesInfo next rest
          (hir1 ++ [make_block func valuesInfo (start scope) (end_ scope)])
  end.

Definition makeReactiveInstrs (func : FunctionBody) (valuesInfo : ValueInfos)
  : option (list ReactiveInstruction) :=
  match emit_scopes func valuesInfo 0 (getInstructionScopeRanges func valuesInfo) [] with
  | Some (hir, startingInstrId) =>
      Some (hir ++ pass_through func startingInstrId (List.length func))
  | None => None
  end.

(** The ids of a reactive instruction, in order. *)
Definition ri_ids (ri : ReactiveInstruction) : list InstrId :=
  match ri with
  | ReactiveBlock is _ _ => map fst is
  | RInstr id _ => [id]
  end.

(** ** Code generation ([CodeGen.ts]) *)

Definition literal_expr (l : Literal) : Node :=
  match l with
  | LStr s => StringLiteral s
  | LNum n => NumericLiteral n
  | LBool b => BooleanLiteral b
  end.

Definition obind {A B} (m : option A) (k : A -> option B) : option B :=
  match m with Some a => k a | None => None end.

Notation "x <-? m ;; k" := (obind m (fun x => k))
  (at level 61, m at next level, right associativity).

(** [instrToExpression]. [None] is the [TypeError] of reading [.kind] of a
    missing instruction; [fuel] bounds the recursion depth, which follows
    operand references and so is at most the number of instructions. *)
Fixpoint instrToExpression (fuel : nat) (instr : Instruction) (func : FunctionBody)
  : option Node :=
  match fuel with
  | 0 => None
  | S f =>
      let operand (v : InstrId) : option Node :=
        i <-? nth_error func v ;; instrToExpression f i func in
      let value_expr (v : Value) : option Node :=
        match v with
        | VLiteral l => Some (literal_expr l)
        | RValue v => operand v
        end in
      match instr with
      | Call receiver property args =>
          recv <-? operand receiver ;;
          let callee := match property with
                        | Some p => if String.eqb p "" then recv
                                    else MemberExpression recv (Identifier p) false
                        | None => recv
                        end in
          args' <-? fold_right (fun a acc => e <-? value_expr a ;; es <-? acc ;; Some (e :: es))
                      (Some []) args ;;
          Some (CallExpression callee args')
      | Object props =>
          ps <-? fold_right (fun kv acc =>
                               e <-? value_expr (snd kv) ;; es <-? acc ;;
                               Some (ObjectProperty (Identifier (fst kv)) e :: es))
                   (Some []) props ;;
          Some (ObjectExpression ps)
      | LoadConstant variableName => Some (Identifier variableName)
      | ReadProperty obj property =>
          o <-? operand obj ;;
          match property with
          | PStr s => Some (MemberExpression o (Identifier s) false)
          | PNum n => Some (MemberExpression o (NumericLiteral n) true)
          end
      | _ => Some (Identifier "unknown")
      end
  end.

Definition getDependencyNames (deps : list InstrId) (func : FunctionBody) : list string :=
  flat_map (fun dep => match nth_error func dep with
                       | Some (Param name) => [name]
                       | Some (Declare lhs _) => [lhs]
                       | _ => []
                       end) deps.

(** [prunedInstrs]: block dependencies produced inside the block are dropped. *)
Definition prune (ri : ReactiveInstruction) : ReactiveInstruction :=
  match ri with
  | ReactiveBlock is ds deps =>
      ReactiveBlock is ds (filter (fun dep => negb (set_has dep (map fst is))) deps)
  | r => r
  end.

(** The first member of a block whose [shouldMemo] is set. *)
Fixpoint main_operation (is : list (InstrId * Instruction)) (info : ValueInfos)
  : option (InstrId * Instruction) :=
  match is with
  | [] => None
  | (id, bi) :: rest =>
      match nth_error info id with
      | Some vi => if shouldMemo vi then Some (id, bi) else main_operation rest info
      | None => main_operation rest info
      end
  end.

(** [const memoVar = useMemo(() => computation, [deps])] *)
Definition memo_declaration (memoVar : string) (computation : Node) (depNames : list string)
  : Node :=
  VariableDeclaration "const"
    [VariableDeclarator (Identifier memoVar)
       (Some (CallExpression (Identifier "useMemo")
                [ArrowFunctionExpression [] computation;
                 ArrayExpression (map Identifier depNames)]))].

Fixpoint codegen_loop (func : FunctionBody) (info : ValueInfos)
    (prunedInstrs : list ReactiveInstruction) (memoIndex : nat)
  : option (list Node) :=
  match prunedInstrs with
  | [] => Some []
  | ReactiveBlock is _ ((_ :: _) as deps) :: rest =>
      match main_operation is info with
      | Some (_, mainOperation) =>
          let memoVar := "memoized" +s+ string_of_nat memoIndex in
          let depNames := getDependencyNames deps func in
          computation <-? instrToExpression (S (List.length func)) mainOperation func ;;
          stmts <-? codegen_loop func info rest (S memoIndex) ;;
          Some (memo_declaration memoVar computation depNames :: stmts)
      | None => codegen_loop func info rest memoIndex
      end
  | _ :: rest => codegen_loop func info rest memoIndex
  end.

Definition codegenJS (func : FunctionBody) (info : ValueInfos) : option (list Node) :=
  reactiveInstrs <-? makeReactiveInstrs func info ;;
  codegen_loop func info (map prune reactiveInstrs) 0.

(** ** The [FunctionDeclaration] visitor ([compiler/index.ts]) *)

Fixpoint traverse (n : Node) : list string :=
  match n with
  | Identifier name => [name]
  | MemberExpression obj prop computed =>
      traverse obj ++ (if computed then traverse prop else [])
  | CallExpression callee args =>
      traverse callee ++ flat_map traverse args
  | ArrowFunctionExpression _ b | FunctionExpression _ b =>
      match b with
      | BlockStatement stmts => flat_map traverse stmts
      | _ => traverse b
      end
  | ObjectExpression props =>
      flat_map (fun prop => match prop with
                            | ObjectProperty _ value => traverse value
                            | SpreadElement argument => traverse argument
                            | _ => []
                            end) props
  | BinaryExpression _ l r => traverse l ++ traverse r
  | ReturnStatement (Some a) => traverse a
  | _ => []
  end.

(** [[...new Set(xs)]]: first occurrences, in order. *)
Definition dedup_strings (xs : list string) : list string :=
  fold_left (fun acc x => if string_mem x acc then acc else acc ++ [x]) xs [].

Definition extractIdentifiers (n : Node) : list string := dedup_strings (traverse n).

Definition expensive_call_name (init : option Node) : option string :=
  match init with
  | Some (CallExpression (MemberExpression _ (Identifier name) _) _) => Some name
  | _ => None
  end.

Definition hasExpensiveOperation (declarations : list Node) : bool :=
  existsb (fun decl => match decl with
                       | VariableDeclarator _ init =>
                           match expensive_call_name init with
                           | Some name => string_mem name expensiveMethods
                           | None => false
                           end
                       | _ => false
                       end) declarations.

Definition excludeList : list string := ["item"; "Math"; "console"; "window"; "document"].

(** [decl.init = useMemo(() => originalCall, [dependencies])] *)
Definition rewrite_declarator (decl : Node) : Node * bool :=
  match decl with
  | VariableDeclarator id (Some originalCall) =>
      match expensive_call_name (Some originalCall) with
      | Some name =>
          if string_mem name expensiveMethods then
            let dependencies :=
              filter (fun x => negb (string_mem x excludeList)) (extractIdentifiers originalCall) in
            (VariableDeclarator id
               (Some (CallExpression (Identifier "useMemo")
                        [ArrowFunctionExpression [] originalCall;
                         ArrayExpression (map Identifier dependencies)])), true)
          else (decl, false)
      | None => (decl, false)
      end
  | _ => (decl, false)
  end.

(** Step 4 on one statement: the rewritten statement and whether a
    declarator was wrapped. *)
Definition rewrite_statement (stmt : Node) : Node * bool :=
  match stmt with
  | VariableDeclaration kind decls =>
      if hasExpensiveOperation decls then
        let rs := map rewrite_declarator decls in
        (VariableDeclaration kind (map fst rs), existsb snd rs)
      else (stmt, false)
  | _ => (stmt, false)
  end.

Record CompileOutput := mkOutput {
  out_body : list Node;        (* the function's statements after steps 4 and 6 *)
  hasAnyOptimizations : bool   (* whether step 5 touches the imports *)
}.

(** The visitor, steps 1 to 6 (imports are represented by the flag). *)
Definition compileFunction (f : FunctionDeclaration) : Result CompileOutput :=
  match readInstructions f with
  | Throw e => Throw e
  | Ok st =>
      let instrs := instrs st in
      let info := analyze instrs in
      match codegenJS instrs info with
      | None => Throw "TypeError"
      | Some generatedBody =>
          let rs := map rewrite_statement (body f) in
          let statements := map fst rs in
          let optimized := Nat.ltb 0 (List.length generatedBody) || existsb snd rs in
          Ok (mkOutput
                (match generatedBody with
                 | [] => statements
                 | _ => generatedBody ++ statements
                 end)
                optimized)
      end
  end.

(** Scenario A: [function F(a, b) { const c = a.map(x => x * b); return c; }] *)
Definition scenarioA : FunctionDeclaration :=
  mkFunction [Identifier "a"; Identifier "b"]
    [VariableDeclaration "const"
       [VariableDeclarator (Identifier "c")
          (Some (CallExpression
                   (MemberExpression (Identifier "a") (Identifier "map") false)
                   [ArrowFunctionExpression [Identifier "x"]
                      (BinaryExpression "*" (Identifier "x") (Identifier "b"))]))];
     ReturnStatement (Some (Identifier "c"))].

(** [function F(x) { return Math.sqrt(x); }] *)
Definition mathExample : FunctionDeclaration :=
  mkFunction [Identifier "x"]
    [ReturnStatement (Some (CallExpression
                              (MemberExpression (Identifier "Math") (Identifier "sqrt") false)
                              [Identifier "x"]))].

Definition mathExample_body : FunctionBody :=
  [Param "x"; LoadConstant "Math"; Call 1 (Some "sqrt") [RValue 0]; Return (Some 2)].

(** [function F() { var x = 1; var x = 2; return x; }] *)
Definition dupExample : FunctionDeclaration :=
  mkFunction []
    [VariableDeclaration "var" [VariableDeclarator (Identifier "x") (Some (NumericLiteral 1))];
     VariableDeclaration "var" [VariableDeclarator (Identifier "x") (Some (NumericLiteral 2))];
     ReturnStatement (Some (Identifier "x"))].

(** [function F() { const c = items.map(f); return c; }]: no parameter, no hook *)
Definition itemsExample : FunctionDeclaration :=
  mkFunction []
    [VariableDeclaration "const"
       [VariableDeclarator (Identifier "c")
          (Some (CallExpression (MemberExpression (Identifier "items") (Identifier "map") false)
                   [Identifier "f"]))];
     ReturnStatement (Some (Identifier "c"))].

Definition itemsExample_state : LowerState :=
  match readInstructions itemsExample with
  | Ok st => st
  | Throw _ => mkLowerState [] []
  end.

(** [function F(x, i) { return x[i + 1]; }] *)
Definition computedExample : FunctionDeclaration :=
  mkFunction [Identifier "x"; Identifier "i"]
    [ReturnStatement (Some (MemberExpression (Identifier "x")
                              (BinaryExpression "+" (Identifier "i") (NumericLiteral 1)) true))].

(** The node kinds that reach the final [else] branch of [lowerBabelInstr]. *)
Definition is_fallback (n : Node) : bool :=
  match n with
  | ObjectProperty _ _ | SpreadElement _ | BinaryExpression _ _ _ | ArrayExpression _
  | BlockStatement _ | VariableDeclarator _ _ | ArrayPattern _ | ObjectPattern _
  | OtherNode _ => true
  | _ => false
  end.

(** the property kinds a MemberExpression accepts *)
Definition supported_property (p : Node) : bool :=
  match p with
  | Identifier _ | NumericLiteral _ | StringLiteral _ => true
  | _ => false
  end.

Definition is_identifier (n : Node) : bool :=
  match n with Identifier _ => true | _ => false end.

(** the entries of the partition that [codegenJS] turns into a statement:
    blocks with a non-empty (pruned) dependency list and a member whose
    [shouldMemo] is set *)
Definition emits_statement (info : ValueInfos) (ri : ReactiveInstruction) : bool :=
  match ri with
  | ReactiveBlock is _ (_ :: _) =>
      match main_operation is info with Some _ => true | None => false end
  | _ => false
  end.

(** every key and parent of the union-find structure is below [n] *)
Definition ds_bounded (n : nat) (ds : DisjointSet) : Prop :=
  forall k v, In (k, v) (parent ds) -> k < n /\ v < n.

(** every mutator id recorded in [instructions] is below [B] *)
Definition instructions_below (B : nat) (r : ValueInfos) : Prop :=
  forall vi s x, In vi r -> instructions vi = Some s -> In x s -> x < B.

Definition range_ok (n : nat) (r : Range) : Prop := start r <= end_ r /\ end_ r < n.

(** scopes that [makeReactiveInstrs] can walk from [lo]: ascending, disjoint,
    each a non-empty interval of ids below [n] *)
Fixpoint scopes_ok (lo n : nat) (scopes : list Range) : Prop :=
  match scopes with
  | [] => lo <= n
  | r :: rest => lo <= start r /\ start r <= end_ r /\ end_ r < n /\ scopes_ok (S (end_ r)) n rest
  end.

(** the lowering state of Scenario A *)
Definition scenarioA_state : LowerState :=
  match readInstructions scenarioA with
  | Ok st => st
  | Throw _ => mkLowerState [] []
  end.

Definition scenarioA_body : FunctionBody :=
  [Param "a"; Param "b"; LoadConstant "function";
   Call 0 (Some "map") [RValue 2]; Declare "c" 3; Return (Some 4)].

(** [function G(items) { return foo({a: items}); }] *)
Definition blockExample : FunctionBody :=
  [Param "items"; LoadConstant "foo"; Object [("a", RValue 0)];
   Call 1 None [RValue 2]; Return (Some 3)].

(** ** What the analysis records per instruction *)

Definition info_proj (vi : ValueInfo) : list InstrId * bool := (dependencies vi, shouldMemo vi).

(** ** Lowering keeps operand references backwards *)

Fixpoint node_size (n : Node) : nat :=
  match n with
  | MemberExpression o p _ => S (node_size o + node_size p)
  | ObjectExpression ps => S (list_sum (map node_size ps))
  | ObjectProperty k v => S (node_size k + node_size v)
  | SpreadElement a => S (node_size a)
  | CallExpression c args => S (node_size c + list_sum (map node_size args))
  | ArrowFunctionExpression ps b | FunctionExpression ps b =>
      S (list_sum (map node_size ps) + node_size b)
  | BinaryExpression _ l r => S (node_size l + node_size r)
  | ArrayExpression es => S (list_sum (map node_size es))
  | BlockStatement ss => S (list_sum (map node_size ss))
  | ExpressionStatement e => S (node_size e)
  | ReturnStatement (Some a) => S (node_size a)
  | ReturnStatement None => 1
  | VariableDeclaration _ ds => S (list_sum (map node_size ds))
  | VariableDeclarator i (Some e) => S (node_size i + node_size e)
  | VariableDeclarator i None => S (node_size i)
  | ObjectPattern ps => S (list_sum (map node_size ps))
  | _ => 1
  end.

Definition not_declaration (n : Node) : bool :=
  match n with VariableDeclaration _ _ => false | _ => true end.

(** Babel's AST types: every position that [lowerBabelInstr] lowers as an
    operand (member object, object property value, callee, argument,
    return argument, initializer, statement expression) holds an
    expression, never a [VariableDeclaration]. *)
Fixpoint operands_are_expressions (n : Node) : bool :=
  match n with
  | MemberExpression o _ _ => not_declaration o && operands_are_expressions o
  | ObjectExpression ps =>
      forallb (fun p => match p with
                        | ObjectProperty _ v => not_declaration v && operands_are_expressions v
                        | _ => true
                        end) ps
  | CallExpression c args =>
      not_declaration c && operands_are_expressions c &&
      forallb (fun a => not_declaration a && operands_are_expressions a) args
  | ReturnStatement (Some a) => not_declaration a && operands_are_expressions a
  | VariableDeclaration _ ds =>
      forallb (fun d => match d with
                        | VariableDeclarator _ (Some e) =>
                            not_declaration e && operands_are_expressions e
                        | _ => true
                        end) ds
  | ExpressionStatement e => not_declaration e && operands_are_expressions e
  | _ => true
  end.

(** Every operand an instruction holds is a smaller id. *)
Definition operands_before (func : FunctionBody) : Prop :=
  forall i instr, nth_error func i = Some instr ->
  forall u, In u (eachValue instr) -> u < i.

(** an instruction that [getDeclaration] accepts for [variableName] *)
Definition declares (variableName : string) (instr : Instruction) : bool :=
  match instr with
  | Declare lhs _ => String.eqb lhs variableName
  | Param name => String.eqb name variableName
  | _ => false
  end.

(** One step of the lowering: the state only grows, and keeps the invariant. *)
Definition grows (st st' : LowerState) : Prop :=
  (exists suf, instrs st' = instrs st ++ suf) /\
  (operands_before (instrs st) -> operands_before (instrs st')).

Ltac size_lt := simpl; try lia.

(** ** The disjoint set read as a partition, and the spans built from it *)

(** [this.parent.has(k)] *)
Definition is_key (ds : DisjointSet) (k : nat) : Prop := jm_get (parent ds) k <> None.

(** [r] is the root reached from [x] by following [parent]. *)
Inductive is_root (ds : DisjointSet) : nat -> nat -> Prop :=
| root_here (x : nat) : jm_get (parent ds) x = Some x -> is_root ds x x
| root_step (x p r : nat) :
    jm_get (parent ds) x = Some p -> p <> x -> is_root ds p r -> is_root ds x r.

(** [x] and [y] are in the same class: they have the same root. *)
Definition same_set (ds : DisjointSet) (x y : nat) : Prop :=
  exists r, is_root ds x r /\ is_root ds y r.

(** The disjoint-set invariant: keys are distinct, every parent is a key,
    and ranks strictly increase along a parent link. *)
Definition ds_inv (ds : DisjointSet) : Prop :=
  NoDup (map fst (parent ds)) /\
  (forall k v, jm_get (parent ds) k = Some v -> jm_get (parent ds) v <> None) /\
  (forall k v, jm_get (parent ds) k = Some v -> v <> k -> rank_of ds k < rank_of ds v).

(** The number of keys of larger rank than [x]: it bounds the parent chain
    from [x], hence the recursion depth of [find]. *)
Definition above (ds : DisjointSet) (x : nat) : nat :=
  List.length (filter (fun k => Nat.ltb (rank_of ds x) (rank_of ds k)) (map fst (parent ds))).

(** What path compression does: same keys and ranks, and a key either keeps
    its parent or is redirected to its root. *)
Definition compressed (ds ds' : DisjointSet) : Prop :=
  rank ds' = rank ds /\ map fst (parent ds') = map fst (parent ds) /\
  (forall k v, jm_get (parent ds') k = Some v -> jm_get (parent ds) k = Some v \/ is_root ds k v).

(** The equivalence relation generated by a list of pairs. *)
Inductive conn (P : list (nat * nat)) : nat -> nat -> Prop :=
| conn_refl (x : nat) : conn P x x
| conn_edge (x y : nat) : In (x, y) P -> conn P x y
| conn_sym (x y : nat) : conn P y x -> conn P x y
| conn_trans (x y z : nat) : conn P x y -> conn P y z -> conn P x z.

(** The disjoint set represents the pairs [P] on the key set [K]. *)
Definition ds_sem (ds : DisjointSet) (P : list (nat * nat)) (K : nat -> Prop) : Prop :=
  (forall k, is_key ds k <-> K k) /\
  (forall a b, In (a, b) P -> K a /\ K b) /\
  (forall x y, K x -> K y -> (same_set ds x y <-> conn P x y)).

(** The ids occurring in a list of pairs *)
Definition pair_elems (P : list (nat * nat)) : list nat :=
  flat_map (fun ab => [fst ab; snd ab]) P.

(** The pairs [union(items)] hands to [unionTwo]. *)
Definition union_pairs (items : list nat) : list (nat * nat) :=
  match items with
  | [] => []
  | first :: rest => map (fun it => (first, it)) rest
  end.

(** All pairs unioned by the loop of [getInstructionScopeRanges]. *)
Definition mutating_pairs (func : FunctionBody) (valuesInfo : ValueInfos) : list (nat * nat) :=
  flat_map (fun id => match nth_error valuesInfo id with
                      | Some info => if shouldMemoize info then union_pairs (union_items info id) else []
                      | None => []
                      end)
    (seq 0 (List.length func)).

(** [info.instructions || new Set()]: the mutator set of an instruction *)
Definition mutators (info : ValueInfo) : list InstrId :=
  match instructions info with Some s => s | None => [] end.

(** The relation the partitioner is meant to compute: an instruction with
    [shouldMemo] set is linked to each id of its mutator set, closed under
    reflexivity, symmetry and transitivity. *)
Inductive linked (func : FunctionBody) (valuesInfo : ValueInfos) : nat -> nat -> Prop :=
| linked_mutator (id : InstrId) (info : ValueInfo) (m : InstrId) :
    id < List.length func -> nth_error valuesInfo id = Some info -> shouldMemo info = true ->
    In m (mutators info) -> linked func valuesInfo id m
| linked_refl (x : nat) : linked func valuesInfo x x
| linked_sym (x y : nat) : linked func valuesInfo x y -> linked func valuesInfo y x
| linked_trans (x y z : nat) :
    linked func valuesInfo x y -> linked func valuesInfo y z -> linked func valuesInfo x z.

(** Invariant of the loop of [buildSets] after visiting the keys [L]: one
    group per root, holding exactly the visited keys with that root. *)
Definition groups_ok (ds : DisjointSet) (G : list (nat * list nat)) (L : list nat) : Prop :=
  NoDup (map fst G) /\
  (forall r g, In (r, g) G -> NoDup g /\ g <> []) /\
  (forall r g y, In (r, g) G -> (In y g <-> In y L /\ is_root ds y r)) /\
  (forall y r, In y L -> is_root ds y r -> exists g, In (r, g) G).

(** The order of [ranges.sort((a, b) => a.start - b.start)] *)
Definition by_start (r1 r2 : Range) : Prop := start r1 <= start r2.

(** Every two consecutive ids of the span lie in one of the input ranges. *)
Definition chained (inputs : list Range) (s : Range) : Prop :=
  forall n, start s <= n -> n < end_ s -> exists r, In r inputs /\ start r <= n /\ S n <= end_ r.

(** The ids of the Calls of [func] that consume [u]: the instructions the
    second loop of [analyze] records as possible mutators of [u]. *)
Definition consumers (func : FunctionBody) (u : InstrId) : list InstrId :=
  filter (fun j => match nth_error func j with
                   | Some (Call r p args) => set_has u (eachValue (Call r p args))
                   | _ => false
                   end)
    (seq 0 (List.length func)).

(** The ids of the [logInstr] lines of a log, in order. *)
Definition logged_ids (ls : list LogLine) : list InstrId :=
  flat_map (fun l => match l with LogInstr id => [id] | _ => [] end) ls.

(** a ReactiveBlock whose members are instructions of [func] at their ids *)
Definition members_ok (func : FunctionBody) (ri : ReactiveInstruction) : Prop :=
  match ri with
  | ReactiveBlock is _ _ => forall i x, In (i, x) is -> nth_error func i = Some x
  | RInstr _ _ => True
  end.

(** what a block of the partition holds *)
Definition block_ok (func : FunctionBody) (info : ValueInfos) (ri : ReactiveInstruction) : Prop :=
  match ri with
  | ReactiveBlock is ds ps =>
      (forall i x, In (i, x) is -> nth_error func i = Some x) /\ ds = map fst is /\ NoDup ps /\
      (forall d, In d ps <-> exists i x vi, In (i, x) is /\ nth_error info i = Some vi /\
                                            In d (dependencies vi))
  | RInstr _ _ => True
  end.

(** What lowering one statement does to the state: instructions other than
    parameters are appended, and each is logged once, in id order. *)
Definition body_step (st st' : LowerState) : Prop :=
  exists suf new, instrs st' = instrs st ++ suf /\ logs st' = logs st ++ new /\
    Forall (fun i => is_param i = false) suf /\
    logged_ids new = seq (List.length (instrs st)) (List.length suf).

(** The messages [lowerBabelInstr] and [lowerParam] throw: [assertsValid]'s
    and the unsupported member property's. *)
Definition lowering_error (e : string) : Prop :=
  (exists msg, e = "Invalid syntax. " +s+ msg) \/
  (exists p, e = "Unsupported property type: " +s+ node_type p).

(** A computation of the lowering that throws from every state. *)
Definition aborts {A} (m : M A) : Prop := forall st, exists e, m st = Throw e.

Example scenarioA_lowered :
  match readInstructions scenarioA with
  | Ok st => instrs st
  | Throw _ => []
  end =
  [Param "a"; Param "b"; LoadConstant "function";
   Call 0 (Some "map") [RValue 2]; Declare "c" 3; Return (Some 4)].
Proof. reflexivity. Qed.

Example scenarioA_analysis :
  map (fun vi => (dependencies vi, instructions vi, shouldMemo vi)) (analyze scenarioA_body) =
  [([], None, false); ([], None, false); ([], None, false);
   ([0], None, true); ([3], None, false); ([4], None, false)].
Proof. reflexivity. Qed.

Example blockExample_ranges :
  map (fun r => (start r, end_ r)) (getInstructionScopeRanges blockExample (analyze blockExample))
  = [(2, 3)].
Proof. reflexivity. Qed.

Example blockExample_hir :
  option_map (flat_map ri_ids) (makeReactiveInstrs blockExample (analyze blockExample))
  = Some [0; 1; 2; 3; 4].
Proof. reflexivity. Qed.

Example scenarioA_compiled :
  compileFunction scenarioA =
  Ok (mkOutput
    [VariableDeclaration "const"
       [VariableDeclarator (Identifier "c")
          (Some (CallExpression (Identifier "useMemo")
             [ArrowFunctionExpression []
                (CallExpression
                   (MemberExpression (Identifier "a") (Identifier "map") false)
                   [ArrowFunctionExpression [Identifier "x"]
                      (BinaryExpression "*" (Identifier "x") (Identifier "b"))]);
              ArrayExpression [Identifier "a"; Identifier "x"; Identifier "b"]]))];
     ReturnStatement (Some (Identifier "c"))] true).
Proof. reflexivity. Qed.

Example blockExample_codegen :
  codegenJS blockExample (analyze blockExample) =
  Some [memo_declaration "memoized0"
          (ObjectExpression [ObjectProperty (Identifier "a") (Identifier "unknown")]) ["items"]].
Proof. reflexivity. Qed.

(** ** Facts about sets as duplicate-free lists *)

Lemma set_has_In (x : InstrId) (s : list InstrId) : set_has x s = true <-> In x s.
Proof.
  unfold set_has. rewrite existsb_exists. split.
  - intros [y [Hy Heq]]. apply Nat.eqb_eq in Heq. subst. exact Hy.
  - intros H. exists x. split; [exact H | apply Nat.eqb_refl].
Qed.

Lemma set_has_false (x : InstrId) (s : list InstrId) : set_has x s = false <-> ~ In x s.
Proof.
  rewrite <- set_has_In. destruct (set_has x s); split; congruence.
Qed.

Lemma In_set_add (x y : InstrId) (s : list InstrId) : In x (set_add y s) <-> x = y \/ In x s.
Proof.
  unfold set_add. destruct (set_has y s) eqn:E.
  - apply set_has_In in E. split; [tauto|]. intros [->|H]; assumption.
  - rewrite in_app_iff. simpl. intuition.
Qed.

Lemma NoDup_set_add (y : InstrId) (s : list InstrId) : NoDup s -> NoDup (set_add y s).
Proof.
  unfold set_add. destruct (set_has y s) eqn:E; [tauto|].
  apply set_has_false in E. intros H.
  apply NoDup_app; auto using NoDup_cons, NoDup_nil.
  - intros x Hx [<-|[]]. contradiction.
Qed.

Lemma set_add_idem (y : InstrId) (s : list InstrId) : set_add y (set_add y s) = set_add y s.
Proof.
  unfold set_add at 1. replace (set_has y (set_add y s)) with true; [reflexivity|].
  symmetry. apply set_has_In, In_set_add. left. reflexivity.
Qed.

#[local] Hint Resolve NoDup_set_add : sets.

(** ** The forward sweep *)

Section Sweep.
Variable seed : Instruction -> bool.

Lemma fold_propagate (id : InstrId) (us : list InstrId) (acc : list InstrId) :
  fold_left (fun s used => if set_has used s then set_add id s else s) us acc =
  if existsb (fun u => set_has u acc) us then set_add id acc else acc.
Proof.
  revert acc. induction us as [|u us IH]; intros acc; simpl; [reflexivity|].
  destruct (set_has u acc) eqn:Hu; simpl.
  - rewrite IH. destruct (existsb _ us); [apply set_add_idem | reflexivity].
  - apply IH.
Qed.

Lemma sweep_from_mono (l : list Instruction) :
  forall id0 acc x, In x acc -> In x (sweep_from seed id0 l acc).
Proof.
  induction l as [|instr rest IH]; intros id0 acc x H; simpl; [exact H|].
  apply IH. destruct (seed instr).
  - apply In_set_add. right. exact H.
  - rewrite fold_propagate. destruct (existsb _ _); [apply In_set_add; right|]; exact H.
Qed.

Lemma sweep_from_range (l : list Instruction) :
  forall id0 acc x, In x (sweep_from seed id0 l acc) ->
    In x acc \/ (id0 <= x /\ x < id0 + List.length l).
Proof.
  induction l as [|instr rest IH]; intros id0 acc x H; simpl in *; [left; exact H|].
  destruct (IH _ _ _ H) as [Hin|Hr]; [|right; lia].
  assert (Hstep : In x acc \/ x = id0).
  { destruct (seed instr).
    - apply In_set_add in Hin. tauto.
    - rewrite fold_propagate in Hin.
      destruct (existsb _ _); [apply In_set_add in Hin|]; tauto. }
  destruct Hstep as [H' | ->]; [left; exact H' | right; lia].
Qed.

Lemma sweep_from_spec (l : list Instruction) :
  forall id0 acc, (forall x, In x acc -> x < id0) ->
  forall x, In x (sweep_from seed id0 l acc) <->
    In x acc \/
    exists k instr, nth_error l k = Some instr /\ x = id0 + k /\
      (seed instr = true \/
       exists u, In u (eachValue instr) /\ u < x /\ In u (sweep_from seed id0 l acc)).
Proof.
  induction l as [|instr rest IH]; intros id0 acc Hacc x; simpl.
  - split; [tauto|]. intros [H|[k [i [Hk _]]]]; [exact H|]. destruct k; discriminate.
  - set (acc' := if seed instr then set_add id0 acc
                 else fold_left (fun s used => if set_has used s then set_add id0 s else s)
                        (eachValue instr) acc).
    set (cond := seed instr || existsb (fun u => set_has u acc) (eachValue instr)).
    assert (Hmem : forall y, In y acc' <-> In y acc \/ (y = id0 /\ cond = true)).
    { intros y. unfold acc', cond. destruct (seed instr); simpl.
      - rewrite In_set_add. intuition.
      - rewrite fold_propagate. destruct (existsb _ _).
        + rewrite In_set_add. intuition.
        + intuition discriminate. }
    assert (Hacc' : forall y, In y acc' -> y < S id0).
    { intros y Hy. apply Hmem in Hy. destruct Hy as [Hy|[-> _]]; [specialize (Hacc _ Hy)|]; lia. }
    (* the earlier ids of the final set are exactly those of [acc] *)
    assert (Hbelow : forall u, u < id0 ->
              In u (sweep_from seed (S id0) rest acc') <-> In u acc).
    { intros u Hu. split.
      - intros Hin. destruct (sweep_from_range rest (S id0) acc' u Hin) as [H|H]; [|lia].
        apply Hmem in H. destruct H as [H|[-> _]]; [exact H|lia].
      - intros H. apply sweep_from_mono, Hmem. left. exact H. }
    (* the condition under which [id0] is added *)
    assert (Hcond : cond = true <-> seed instr = true \/
               exists u, In u (eachValue instr) /\ u < id0 /\
                         In u (sweep_from seed (S id0) rest acc')).
    { unfold cond. rewrite orb_true_iff, existsb_exists. split.
      - intros [Hs|[u [Hu Hh]]]; [left; exact Hs|]. right.
        apply set_has_In in Hh. exists u. split; [exact Hu|].
        split; [apply Hacc; exact Hh|]. apply (proj2 (Hbelow u (Hacc u Hh))). exact Hh.
      - intros [Hs|[u [Hu [Hlt Hin]]]]; [left; exact Hs|]. right.
        exists u. split; [exact Hu|]. apply set_has_In. exact (proj1 (Hbelow u Hlt) Hin). }
    rewrite (IH (S id0) acc' Hacc' x). split.
    + intros [H|[k [i [Hk [-> Hc]]]]].
      * apply Hmem in H. destruct H as [H|[-> Hc]]; [left; exact H|].
        right. exists 0, instr. split; [reflexivity|]. split; [lia|].
        apply Hcond in Hc. destruct Hc as [Hs|[u [Hu [Hlt Hin]]]]; [left; exact Hs|].
        right. exists u. split; [exact Hu|]. split; [lia|exact Hin].
      * right. exists (S k), i. split; [exact Hk|]. split; [lia|]. exact Hc.
    + intros [H|[k [i [Hk [-> Hc]]]]].
      * left. apply Hmem. left. exact H.
      * destruct k as [|k].
        -- simpl in Hk. injection Hk as <-. left. apply Hmem. right.
           split; [lia|]. apply Hcond.
           destruct Hc as [Hs|[u [Hu [Hlt Hin]]]]; [left; exact Hs|].
           right. exists u. split; [exact Hu|]. split; [lia|exact Hin].
        -- right. exists k, i. split; [exact Hk|]. split; [lia|exact Hc].
Qed.
End Sweep.

Lemma update_nth_proj (id n : nat) (r : ValueInfos) :
  map info_proj (update_nth (add_mutator id) n r) = map info_proj r.
Proof.
  revert n. induction r as [|vi r IH]; intros [|n]; simpl; try reflexivity.
  rewrite IH. reflexivity.
Qed.

Lemma mutation_sweep_proj (w : list InstrId) (l : list Instruction) :
  forall id r, map info_proj (mutation_sweep w id l r) = map info_proj r.
Proof.
  induction l as [|instr rest IH]; intros id r; simpl; [reflexivity|].
  rewrite IH. destruct instr; try reflexivity.
  generalize r. induction (eachValue _) as [|u us IHu]; intros r'; simpl; [reflexivity|].
  rewrite IHu. destruct (set_has u w); [apply update_nth_proj | reflexivity].
Qed.

Lemma collect_dependencies_fold (mc : list InstrId) (us : list InstrId) :
  forall acc, NoDup acc ->
    NoDup (fold_left (fun deps used => if set_has used mc then set_add used deps else deps) us acc) /\
    (forall d, In d (fold_left (fun deps used => if set_has used mc then set_add used deps else deps) us acc)
               <-> In d acc \/ (In d us /\ In d mc)).
Proof.
  induction us as [|u us IH]; intros acc Hnd; simpl.
  - split; [exact Hnd|]. intros d. tauto.
  - destruct (set_has u mc) eqn:Hu.
    + destruct (IH (set_add u acc) (NoDup_set_add _ _ Hnd)) as [H1 H2].
      split; [exact H1|]. intros d. rewrite H2, In_set_add.
      apply set_has_In in Hu. split; [intros [[->|H]|[H H']]|intros [H|[[->|H] H']]]; tauto.
    + destruct (IH acc Hnd) as [H1 H2]. split; [exact H1|]. intros d. rewrite H2.
      apply set_has_false in Hu. split; [intros [H|[H H']]|intros [H|[[->|H] H']]]; tauto.
Qed.

Lemma collect_dependencies_spec (mc : list InstrId) (instr : Instruction) :
  NoDup (collect_dependencies mc instr) /\
  (forall d, In d (collect_dependencies mc instr) <-> In d (eachValue instr) /\ In d mc).
Proof.
  destruct (collect_dependencies_fold mc (eachValue instr) [] (NoDup_nil _)) as [H1 H2].
  split; [exact H1|]. intros d. unfold collect_dependencies. rewrite H2. simpl. tauto.
Qed.

Lemma getValuesThatMayChange_spec (func : FunctionBody) (id : InstrId) (instr : Instruction) :
  nth_error func id = Some instr ->
  (In id (getValuesThatMayChange func) <->
     (is_param instr || isHookCall instr func) = true \/
     exists used, In used (eachValue instr) /\ used < id /\ In used (getValuesThatMayChange func)).
Proof.
  intros Hid. unfold getValuesThatMayChange.
  rewrite (sweep_from_spec _ func 0 [] ltac:(intros x [])). split.
  - intros [[]|[k [i [Hk [Heq Hc]]]]]. simpl in Heq. subst k. rewrite Hid in Hk.
    injection Hk as <-. exact Hc.
  - intros Hc. right. exists id, instr. split; [exact Hid|]. split; [reflexivity|exact Hc].
Qed.

Lemma isHookCall_iff (instr : Instruction) (func : FunctionBody) :
  isHookCall instr func = true <->
  exists receiver property args variableName,
    instr = Call receiver property args /\
    nth_error func receiver = Some (LoadConstant variableName) /\
    startsWith variableName "use" = true.
Proof.
  unfold isHookCall. split.
  - destruct instr as [r p a| | | | | |]; try discriminate.
    destruct (nth_error func r) as [[]|] eqn:E; try discriminate.
    intros H. exists r, p, a, variableName. auto.
  - intros [r [p [a [v [-> [E H]]]]]]. rewrite E. exact H.
Qed.

(** C1. For an instruction [id] of a function body: it is may-change exactly
    when it is a Param, a Call whose receiver is a LoadConstant whose name
    starts with "use", or it consumes an earlier may-change id (the single
    forward sweep); its recorded [dependencies] are exactly its consumed ids
    that are may-change (without repetition); and [shouldMemo] holds exactly
    when it is classified expensive and its dependencies are non-empty. *)
Theorem analyze_dependencies_shouldMemo (func : FunctionBody) (id : InstrId)
    (instr : Instruction) (Hid : nth_error func id = Some instr) :
  (In id (getValuesThatMayChange func) <->
     (exists name, instr = Param name) \/
     (exists receiver property args variableName,
        instr = Call receiver property args /\
        nth_error func receiver = Some (LoadConstant variableName) /\
        startsWith variableName "use" = true) \/
     (exists used, In used (eachValue instr) /\ used < id /\
                   In used (getValuesThatMayChange func))) /\
  exists vi, nth_error (analyze func) id = Some vi /\
    NoDup (dependencies vi) /\
    (forall d, In d (dependencies vi) <->
               In d (eachValue instr) /\ In d (getValuesThatMayChange func)) /\
    (shouldMemo vi = true <->
       isExpensiveOperation instr func = true /\ dependencies vi <> []).
Proof.
  split.
  - rewrite (getValuesThatMayChange_spec func id instr Hid), orb_true_iff, isHookCall_iff.
    assert (Hp : is_param instr = true <-> exists name, instr = Param name).
    { destruct instr; simpl; split; try discriminate; try (intros [? ?]; discriminate).
      intros _. eexists. reflexivity. reflexivity. }
    rewrite Hp. tauto.
  - assert (Hproj : nth_error (map info_proj (analyze func)) id =
                    Some (collect_dependencies (getValuesThatMayChange func) instr,
                          isExpensiveOperation instr func &&
                          Nat.ltb 0 (List.length (collect_dependencies
                                                    (getValuesThatMayChange func) instr)))).
    { unfold analyze. rewrite mutation_sweep_proj. unfold analyze_step1.
      rewrite map_map, nth_error_map, Hid. reflexivity. }
    rewrite nth_error_map in Hproj.
    destruct (nth_error (analyze func) id) as [vi|]; [|discriminate].
    injection Hproj as Hd Hs. exists vi. split; [reflexivity|].
    destruct (collect_dependencies_spec (getValuesThatMayChange func) instr) as [Hnd Hin].
    rewrite Hd. split; [exact Hnd|]. split; [exact Hin|].
    rewrite Hs, andb_true_iff, Nat.ltb_lt.
    destruct (collect_dependencies _ _); simpl; split; intros [H1 H2]; split; auto; try lia.
    all: congruence.
Qed.

Lemma in_list_sum_le (f : Node -> nat) (x : Node) (l : list Node) :
  In x l -> f x <= list_sum (map f l).
Proof.
  induction l as [|y l IH]; simpl; [tauto|]. intros [->|H]; [lia|]. specialize (IH H). lia.
Qed.

Lemma operands_before_app (func suf : FunctionBody) (i : nat) (instr : Instruction) :
  nth_error func i = Some instr -> nth_error (func ++ suf) i = Some instr.
Proof.
  intros H. rewrite nth_error_app1; [exact H|]. apply nth_error_Some. congruence.
Qed.

Lemma operands_before_snoc (func : FunctionBody) (instr : Instruction) :
  operands_before func -> (forall u, In u (eachValue instr) -> u < List.length func) ->
  operands_before (func ++ [instr]).
Proof.
  intros Hwf Hnew i ins Hi u Hu.
  destruct (Nat.lt_ge_cases i (List.length func)) as [Hlt|Hge].
  - rewrite nth_error_app1 in Hi; [|exact Hlt]. exact (Hwf i ins Hi u Hu).
  - rewrite nth_error_app2 in Hi; [|exact Hge].
    destruct (i - List.length func) as [|k] eqn:Hk; simpl in Hi.
    + injection Hi as <-. specialize (Hnew u Hu). lia.
    + destruct k; discriminate.
Qed.

Lemma getDeclaration_from_lt (func : FunctionBody) :
  forall id0 name i, getDeclaration_from id0 func name = Some i -> id0 <= i < id0 + List.length func.
Proof.
  induction func as [|instr rest IH]; intros id0 name i H; simpl in H; [discriminate|].
  simpl. destruct instr;
    try (destruct (String.eqb _ _); [injection H as <-; lia|]);
    specialize (IH _ _ _ H); lia.
Qed.

Lemma getDeclaration_from_Some (func : FunctionBody) :
  forall id0 name i, getDeclaration_from id0 func name = Some i ->
  id0 <= i /\
  (exists instr, nth_error func (i - id0) = Some instr /\ declares name instr = true) /\
  (forall j instr, j < i - id0 -> nth_error func j = Some instr -> declares name instr = false).
Proof.
  induction func as [|instr rest IH]; intros id0 name i H; simpl in H; [discriminate|].
  assert (Step : getDeclaration_from (S id0) rest name = Some i -> declares name instr = false ->
                 id0 <= i /\
                 (exists ins, nth_error (instr :: rest) (i - id0) = Some ins /\ declares name ins = true) /\
                 (forall j ins, j < i - id0 -> nth_error (instr :: rest) j = Some ins ->
                                declares name ins = false)).
  { intros H' Hd. destruct (IH _ _ _ H') as [Hle [[ins [Hn Hins]] Hmin]].
    split; [lia|]. split.
    - exists ins. replace (i - id0) with (S (i - S id0)) by lia. exact (conj Hn Hins).
    - intros [|j] ins2 Hj Hn2; simpl in Hn2; [injection Hn2 as <-; exact Hd|].
      apply (Hmin j ins2); [lia | exact Hn2]. }
  destruct instr; cbn [declares] in Step; try exact (Step H eq_refl);
    (match type of H with context [String.eqb ?a name] => destruct (String.eqb a name) eqn:E end;
     [ injection H as <-; rewrite Nat.sub_diag; split; [lia|];
       split; [eexists; split; [reflexivity | cbn [declares]; exact E] | intros j ins Hj; lia]
     | exact (Step H eq_refl) ]).
Qed.

Lemma getDeclaration_from_None (func : FunctionBody) :
  forall id0 name, getDeclaration_from id0 func name = None ->
  forall j instr, nth_error func j = Some instr -> declares name instr = false.
Proof.
  induction func as [|instr rest IH]; intros id0 name H j ins Hj;
    [destruct j; discriminate|].
  assert (Step : getDeclaration_from (S id0) rest name = None -> declares name instr = false ->
                 declares name ins = false).
  { intros H' Hd. destruct j as [|j]; simpl in Hj; [injection Hj as <-; exact Hd|].
    exact (IH _ _ H' j ins Hj). }
  simpl in H. destruct instr; cbn [declares] in Step; try exact (Step H eq_refl);
    (match type of H with context [String.eqb ?a name] => destruct (String.eqb a name) eqn:E end;
     [ discriminate H | exact (Step H eq_refl) ]).
Qed.

Lemma grows_refl (st : LowerState) : grows st st.
Proof. split; [exists []; rewrite app_nil_r; reflexivity | tauto]. Qed.

Lemma grows_trans (st1 st2 st3 : LowerState) : grows st1 st2 -> grows st2 st3 -> grows st1 st3.
Proof.
  intros [[s1 E1] W1] [[s2 E2] W2]. split; [|tauto].
  exists (s1 ++ s2). rewrite E2, E1, app_assoc. reflexivity.
Qed.

Lemma grows_length (st st' : LowerState) : grows st st' -> List.length (instrs st) <= List.length (instrs st').
Proof. intros [[s E] _]. rewrite E, length_app. lia. Qed.

Lemma push_grows (i : Instruction) (st : LowerState) (r : InstrId) (st' : LowerState) :
  push i st = Ok (r, st') ->
  (forall u, In u (eachValue i) -> u < List.length (instrs st)) ->
  grows st st' /\ r = List.length (instrs st) /\ r < List.length (instrs st').
Proof.
  unfold push. intros H Hu. injection H as <- <-. simpl. split; [split|].
  - exists [i]. reflexivity.
  - intros Hwf. apply operands_before_snoc; assumption.
  - rewrite length_app. simpl. lia.
Qed.

Lemma value_ids_app (a b : list Value) : value_ids (a ++ b) = value_ids a ++ value_ids b.
Proof. unfold value_ids. apply flat_map_app. Qed.

Lemma value_ids_In (u : InstrId) (vs : list Value) : In u (value_ids vs) <-> In (RValue u) vs.
Proof.
  induction vs as [|v vs IH]; simpl; [tauto|].
  rewrite in_app_iff, IH. destruct v; simpl; split; intuition congruence.
Qed.

Lemma map_set_values (acc : list (string * Value)) (k : string) (v w : Value) :
  In w (map snd (map_set acc k v)) -> In w (map snd acc) \/ w = v.
Proof.
  induction acc as [|[k' v'] acc IH]; simpl; [intuition|].
  destruct (String.eqb k k'); simpl; [intuition|].
  intros [H|H]; [tauto|]. destruct (IH H); tauto.
Qed.

Lemma bind_Ok {A B} (m : M A) (k : A -> M B) (st : LowerState) (r : B) (st' : LowerState) :
  bind m k st = Ok (r, st') -> exists a st1, m st = Ok (a, st1) /\ k a st1 = Ok (r, st').
Proof.
  unfold bind. destruct (m st) as [[a st1]|e]; [|discriminate]. intros H. exists a, st1. auto.
Qed.

Lemma log_grows (l : LogLine) (st : LowerState) (u : unit) (st' : LowerState) :
  log l st = Ok (u, st') -> grows st st' /\ instrs st' = instrs st.
Proof.
  unfold log. intros H. injection H as <- <-. simpl. split; [|reflexivity].
  split; [exists []; rewrite app_nil_r; reflexivity | tauto].
Qed.

Lemma lower_grows (n : Node) :
  operands_are_expressions n = true ->
  forall st r st', lowerBabelInstr n st = Ok (r, st') ->
  grows st st' /\ (not_declaration n = true -> r < List.length (instrs st')).
Proof.
  induction n as [n IH] using (well_founded_ind (well_founded_ltof Node node_size)).
  intros Hok st r st' Hrun.
  (* a node lowered as an operand *)
  assert (Sub : forall m, node_size m < node_size n ->
            not_declaration m && operands_are_expressions m = true ->
            forall s x s', lowerBabelInstr m s = Ok (x, s') ->
            grows s s' /\ x < List.length (instrs s')).
  { intros m Hm Hmok s x s' Hl. apply andb_true_iff in Hmok as [Hnd Hmok].
    destruct (IH m Hm Hmok s x s' Hl) as [G L]. split; [exact G | apply L, Hnd]. }
  (* the general fallback: a log line, then a LoadConstant *)
  assert (Fallback : forall ty, bind (log (LogSkipInstr ty))
                                  (fun _ => push (LoadConstant ("unsupported_" +s+ ty))) st
                                = Ok (r, st') ->
            grows st st' /\ r < List.length (instrs st')).
  { intros ty H. apply bind_Ok in H as [u [st1 [H1 H2]]].
    destruct (log_grows _ _ _ _ H1) as [G1 E1].
    destruct (push_grows _ _ _ _ H2 ltac:(intros u' [])) as [G2 [_ L2]].
    split; [exact (grows_trans _ _ _ G1 G2) | exact L2]. }
  (* a LoadConstant pushed directly *)
  assert (Const : forall c, push (LoadConstant c) st = Ok (r, st') ->
            grows st st' /\ r < List.length (instrs st')).
  { intros c H. destruct (push_grows _ _ _ _ H ltac:(intros u' [])) as [G [_ L]]. auto. }
  destruct n; cbn [lowerBabelInstr] in Hrun; cbn [not_declaration];
    try (destruct (Fallback _ Hrun); split; [assumption | intros _; assumption]);
    try (destruct (Const _ Hrun); split; [assumption | intros _; assumption]).
  - (* Identifier *)
    apply bind_Ok in Hrun as [s0 [st1 [H0 H1]]]. injection H0 as <- <-.
    destruct (getDeclaration (instrs st) name) as [d|] eqn:Hd.
    + injection H1 as <- <-. split; [apply grows_refl|]. intros _.
      apply getDeclaration_from_lt in Hd. lia.
    + destruct (Const _ H1). split; [assumption | intros _; assumption].
  - (* MemberExpression *)
    apply bind_Ok in Hrun as [ov [st1 [H1 H2]]].
    destruct (Sub n1 ltac:(size_lt) Hok _ _ _ H1) as [G1 L1].
    apply bind_Ok in H2 as [pn [st2 [H2 H3]]].
    assert (st2 = st1) as ->.
    { destruct n2; try discriminate; injection H2 as _ <-; reflexivity. }
    destruct (push_grows _ _ _ _ H3) as [G3 [_ L3]].
    { intros u [<-|[]]. exact L1. }
    split; [exact (grows_trans _ _ _ G1 G3) | intros _; exact L3].
  - (* ObjectExpression *)
    apply bind_Ok in Hrun as [pv [st1 [H1 H2]]].
    assert (Hprops : forall ps acc s pv s',
               (forall p, In p ps -> node_size p < node_size (ObjectExpression properties)) ->
               forallb (fun p => match p with
                                 | ObjectProperty _ v => not_declaration v && operands_are_expressions v
                                 | _ => true
                                 end) ps = true ->
               (forall u, In (RValue u) (map snd acc) -> u < List.length (instrs s)) ->
               (fix lower_props (ps : list Node) (acc : list (string * Value))
                  : M (list (string * Value)) :=
                  match ps with
                  | [] => ret acc
                  | ObjectProperty key value :: ps' =>
                      match key with
                      | Identifier keyName =>
                          loweredValue <- match literal_of value with
                                          | Some l => ret (VLiteral l)
                                          | None => v <- lowerBabelInstr value ;; ret (RValue v)
                                          end ;;
                          lower_props ps' (map_set acc keyName loweredValue)
                      | _ => invalid "Only identifier keys supported"
                      end
                  | _ :: ps' => lower_props ps' acc
                  end) ps acc s = Ok (pv, s') ->
               grows s s' /\ (forall u, In (RValue u) (map snd pv) -> u < List.length (instrs s'))).
    { induction ps as [|p ps IHps]; intros acc s pv0 s' Hsz Hf Hacc Hl.
      - injection Hl as <- <-. split; [apply grows_refl | exact Hacc].
      - simpl in Hf. apply andb_true_iff in Hf as [Hp Hf].
        assert (Hszp : forall q, In q ps -> node_size q < node_size (ObjectExpression properties)).
        { intros q Hq. apply Hsz. right. exact Hq. }
        destruct p; try (apply (IHps acc s pv0 s' Hszp Hf Hacc Hl)).
        destruct p1; try discriminate.
        apply bind_Ok in Hl as [lv [s1 [Hv Hrest]]].
        assert (Hlv : grows s s1 /\ forall u, lv = RValue u -> u < List.length (instrs s1)).
        { destruct (literal_of p2).
          - injection Hv as <- <-. split; [apply grows_refl | discriminate].
          - apply bind_Ok in Hv as [x [s2 [Hx Hr]]]. injection Hr as <- <-.
            assert (Hsz2 : node_size p2 < node_size (ObjectExpression properties)).
            { specialize (Hsz _ (or_introl eq_refl)). simpl in Hsz |- *. lia. }
            destruct (Sub p2 Hsz2 Hp _ _ _ Hx) as [G L].
            split; [exact G|]. intros u Hu. injection Hu as <-. exact L. }
        destruct Hlv as [G1 L1].
        assert (Hacc1 : forall u, In (RValue u) (map snd (map_set acc name lv)) ->
                                  u < List.length (instrs s1)).
        { intros u Hu. apply map_set_values in Hu as [Hu|Hu].
          - specialize (Hacc u Hu). apply grows_length in G1. lia.
          - apply L1. symmetry. exact Hu. }
        destruct (IHps _ s1 pv0 s' Hszp Hf Hacc1 Hrest) as [G2 L2].
        split; [exact (grows_trans _ _ _ G1 G2) | exact L2]. }
    destruct (Hprops properties [] st pv st1) as [G1 L1].
    + intros p Hp. pose proof (in_list_sum_le node_size p properties Hp). simpl. lia.
    + exact Hok.
    + intros u [].
    + exact H1.
    + destruct (push_grows _ _ _ _ H2) as [G2 [_ L2]].
      { intros u Hu. apply L1. apply value_ids_In. exact Hu. }
      split; [exact (grows_trans _ _ _ G1 G2) | intros _; exact L2].
  - (* CallExpression *)
    rename n into callee.
    cbn [operands_are_expressions] in Hok. apply andb_true_iff in Hok as [Hc Hargs].
    apply bind_Ok in Hrun as [rp [st1 [H1 H2]]].
    assert (Hrp : grows st st1 /\ fst rp < List.length (instrs st1)).
    { destruct callee as [| | | |o p cb| | | | | | | | | | | | | | | |];
        try (apply bind_Ok in H1 as [x [s2 [Hx Hr]]]; injection Hr as <- <-;
             refine (Sub _ _ Hc _ _ _ Hx); size_lt).
      apply bind_Ok in H1 as [x [s2 [Hx Hr]]].
      destruct p; try discriminate. injection Hr as <- <-. simpl in Hc.
      exact (Sub o ltac:(size_lt) Hc _ _ _ Hx). }
    cbv beta zeta in H2. apply bind_Ok in H2 as [av [st2 [H3 H4]]].
    assert (Hsz : forall a, In a arguments -> node_size a < node_size (CallExpression callee arguments)).
    { intros a Ha. pose proof (in_list_sum_le node_size a arguments Ha). simpl. lia. }
    remember (node_size (CallExpression callee arguments)) as N eqn:EN. clear EN.
    assert (Hav : grows st1 st2 /\ forall u, In (RValue u) av -> u < List.length (instrs st2)).
    { clear - Sub H3 Hargs Hsz. revert st1 av st2 H3 Hargs Hsz.
      induction arguments as [|a xs IHa]; intros s vs s' Hl Hf Hs.
      - injection Hl as <- <-. split; [apply grows_refl | intros u []].
      - simpl in Hf. apply andb_true_iff in Hf as [Ha Hf].
        apply bind_Ok in Hl as [v [s1 [Hv Hrest]]].
        apply bind_Ok in Hrest as [vs' [s2 [Hvs Hr]]]. injection Hr as <- <-.
        assert (Hv' : grows s s1 /\ forall u, v = RValue u -> u < List.length (instrs s1)).
        { destruct (literal_of a).
          - injection Hv as <- <-. split; [apply grows_refl | discriminate].
          - apply bind_Ok in Hv as [x [s3 [Hx Hr]]]. injection Hr as <- <-.
            destruct (Sub a (Hs a (or_introl eq_refl)) Ha _ _ _ Hx) as [G L].
            split; [exact G|]. intros u Hu. injection Hu as <-. exact L. }
        destruct Hv' as [G1 L1].
        destruct (IHa s1 vs' s2 Hvs Hf (fun b Hb => Hs b (or_intror Hb))) as [G2 L2].
        split; [exact (grows_trans _ _ _ G1 G2)|].
        intros u [Hu|Hu]; [|exact (L2 u Hu)].
        specialize (L1 u Hu). apply grows_length in G2. lia. }
    destruct Hrp as [G1 L1]. destruct Hav as [G2 L2].
    destruct (push_grows _ _ _ _ H4) as [G3 [_ L3]].
    { intros u [<-|Hu].
      - apply grows_length in G2. lia.
      - apply L2, value_ids_In. exact Hu. }
    split; [exact (grows_trans _ _ _ (grows_trans _ _ _ G1 G2) G3) | intros _; exact L3].
  - (* ExpressionStatement *)
    cbn [operands_are_expressions] in Hok.
    assert (G : grows st st' /\ r < List.length (instrs st')).
    { refine (Sub _ _ Hok _ _ _ Hrun); size_lt. }
    destruct G as [G L].
    split; [exact G | intros _; exact L].
  - (* ReturnStatement *)
    apply bind_Ok in Hrun as [av [st1 [H1 H2]]].
    assert (Hav : grows st st1 /\ forall u, av = Some u -> u < List.length (instrs st1)).
    { destruct argument as [a|].
      - apply bind_Ok in H1 as [x [s2 [Hx Hr]]]. injection Hr as <- <-.
        cbn [operands_are_expressions] in Hok.
        destruct (Sub a ltac:(size_lt) Hok _ _ _ Hx) as [G L].
        split; [exact G|]. intros u Hu. injection Hu as <-. exact L.
      - injection H1 as <- <-. split; [apply grows_refl | discriminate]. }
    destruct Hav as [G1 L1].
    destruct (push_grows _ _ _ _ H2) as [G2 [_ L2]].
    { intros u Hu. destruct av as [v|]; simpl in Hu; [|destruct Hu].
      destruct Hu as [<-|[]]. apply L1. reflexivity. }
    split; [exact (grows_trans _ _ _ G1 G2) | intros _; exact L2].
  - (* VariableDeclaration *)
    cbn [operands_are_expressions] in Hok.
    apply bind_Ok in Hrun as [s0 [st1 [H0 H1]]]. injection H0 as <- <-.
    cbv beta zeta in H1.
    assert (Hsz : forall d, In d declarations ->
                  node_size d < node_size (VariableDeclaration kind declarations)).
    { intros d Hd. pose proof (in_list_sum_le node_size d declarations Hd). simpl. lia. }
    remember (node_size (VariableDeclaration kind declarations)) as N eqn:EN. clear EN.
    split; [|intros Hf; discriminate Hf].
    remember (List.length (instrs st)) as lv eqn:Elv. clear Elv.
    clear - Sub H1 Hok Hsz. revert lv st r st' H1 Hok Hsz.
    induction declarations as [|d ds IHd]; intros lv s x s' Hl Hf Hs.
    + injection Hl as <- <-. apply grows_refl.
    + simpl in Hf. apply andb_true_iff in Hf as [Hd Hf].
      assert (Hs' : forall d', In d' ds -> node_size d' < N).
      { intros d' Hd'. apply Hs. right. exact Hd'. }
      destruct d as [| | | | | | | | | | | | | | | | |did init| | |];
        try exact (IHd _ _ _ _ Hl Hf Hs').
      destruct init as [e|]; [|discriminate].
      assert (He : node_size e < N).
      { specialize (Hs _ (or_introl eq_refl)). simpl in Hs. lia. }
      destruct did;
        try (apply bind_Ok in Hl as [u [s1 [Hu Hrest]]];
             destruct (log_grows _ _ _ _ Hu) as [G1 _];
             exact (grows_trans _ _ _ G1 (IHd _ _ _ _ Hrest Hf Hs'))).
      * apply bind_Ok in Hl as [iv [s1 [Hiv Hrest]]].
        apply bind_Ok in Hrest as [cv [s2 [Hcv Hrest]]].
        destruct (Sub e He Hd _ _ _ Hiv) as [G1 L1].
        destruct (push_grows _ _ _ _ Hcv) as [G2 _].
        { intros u [<-|[]]. exact L1. }
        exact (grows_trans _ _ _ (grows_trans _ _ _ G1 G2) (IHd _ _ _ _ Hrest Hf Hs')).
      * apply bind_Ok in Hl as [iv [s1 [Hiv Hrest]]].
        apply bind_Ok in Hrest as [cv [s2 [Hcv Hrest]]].
        destruct (Sub e He Hd _ _ _ Hiv) as [G1 L1].
        destruct (push_grows _ _ _ _ Hcv) as [G2 _].
        { intros u [<-|[]]. exact L1. }
        exact (grows_trans _ _ _ (grows_trans _ _ _ G1 G2) (IHd _ _ _ _ Hrest Hf Hs')).
Qed.

Lemma lowerParam_grows (p : Node) (st : LowerState) (u : unit) (st' : LowerState) :
  lowerParam p st = Ok (u, st') -> grows st st'.
Proof.
  assert (PP : forall nm s v s', push_param (Param nm) s = Ok (v, s') -> grows s s').
  { unfold push_param. intros nm s v s' H. injection H as <- <-. split.
    - exists [Param nm]. reflexivity.
    - intros Hwf. apply operands_before_snoc; [exact Hwf | intros w []]. }
  destruct p; cbn [lowerParam]; intros H; try discriminate; [exact (PP _ _ _ _ H)|].
  revert st H. induction properties as [|q qs IHq]; intros s H.
  - injection H as <- <-. apply grows_refl.
  - destruct q as [| | | | | |k vq| | | | | | | | | | | | | |]; try discriminate. destruct k; try discriminate.
    apply bind_Ok in H as [v [s1 [H1 H2]]].
    exact (grows_trans _ _ _ (PP _ _ _ _ H1) (IHq _ H2)).
Qed.

Lemma forM_grows {A} (xs : list A) (f : A -> M unit) :
  (forall x s v s', In x xs -> f x s = Ok (v, s') -> grows s s') ->
  forall st u st', forM_ xs f st = Ok (u, st') -> grows st st'.
Proof.
  intros Hf. induction xs as [|x xs IH]; intros st u st' H; simpl in H.
  - injection H as <- <-. apply grows_refl.
  - apply bind_Ok in H as [v [s1 [H1 H2]]].
    apply (grows_trans _ s1); [exact (Hf x _ _ _ (or_introl eq_refl) H1)|].
    apply (IH (fun y s v' s' Hy => Hf y s v' s' (or_intror Hy)) _ _ _ H2).
Qed.

(** C4: in the FunctionBody that [readInstructions] produces, every operand
    id held by an instruction ([eachValue]: the Call receiver and RValue
    arguments, the Object RValue property values, the ReadProperty object,
    the Declare rhs, the Return value) is strictly smaller than the id of
    the instruction holding it. The hypothesis is what Babel's AST types
    guarantee: operand positions hold expressions, never declarations. *)
Theorem readInstructions_operands_before (func : FunctionDeclaration) (st : LowerState)
  (Hexpr : Forall (fun s => operands_are_expressions s = true) (body func))
  (Hread : readInstructions func = Ok st) :
  operands_before (instrs st).
Proof.
  unfold readInstructions in Hread.
  destruct ((_ <- forM_ (params func) lowerParam ;;
             forM_ (body func) (fun s => _ <- lowerBabelInstr s ;; ret tt))
              (mkLowerState [] [])) as [[u st1]|e] eqn:Hprog; [|discriminate].
  injection Hread as ->.
  apply bind_Ok in Hprog as [v [s1 [H1 H2]]].
  assert (G1 : grows (mkLowerState [] []) s1).
  { apply (forM_grows _ _ (fun p s w s' _ H => lowerParam_grows p s w s' H) _ _ _ H1). }
  assert (G2 : grows s1 st).
  { refine (forM_grows _ _ _ _ _ _ H2).
    intros x s w s' Hx H. apply bind_Ok in H as [r [s2 [H3 H4]]].
    injection H4 as _ <-.
    rewrite Forall_forall in Hexpr.
    exact (proj1 (lower_grows x (Hexpr x Hx) _ _ _ H3)). }
  destruct (grows_trans _ _ _ G1 G2) as [_ W]. apply W.
  intros i instr Hi. destruct i; discriminate.
Qed.

Lemma readInstructions_operands_before_witness :
  readInstructions scenarioA = Ok scenarioA_state /\ operands_before (instrs scenarioA_state).
Proof.
  assert (H : readInstructions scenarioA = Ok scenarioA_state) by (vm_compute; reflexivity).
  split; [exact H|].
  apply (readInstructions_operands_before scenarioA); [vm_compute; repeat constructor | exact H].
Defined.

(** C5: a Call with a non-empty accessed property name is classified
    expensive exactly when that name is in [expensiveMethods]: the early
    [return expensiveMethods.includes(instr.property)] decides before the
    receiver is looked at, so a property outside the method set is never
    expensive, whatever LoadConstant (e.g. ["Math"]) the receiver resolves to. *)
Theorem isExpensiveOperation_method_call (func : FunctionBody) (receiver : InstrId)
  (p : string) (args : list Value) (Hp : p <> "") :
  isExpensiveOperation (Call receiver (Some p) args) func = string_mem p expensiveMethods.
Proof.
  cbn [isExpensiveOperation]. destruct (String.eqb_spec p "") as [E|_]; [contradiction|reflexivity].
Qed.

Lemma isExpensiveOperation_method_call_witness :
  (exists st, readInstructions mathExample = Ok st /\ instrs st = mathExample_body) /\
  nth_error mathExample_body 1 = Some (LoadConstant "Math") /\
  includes "Math" (split_dot_head "Math.sqrt") = true /\
  isExpensiveOperation (Call 1 (Some "sqrt") [RValue 0]) mathExample_body = false.
Proof.
  split; [eexists; split; reflexivity|].
  split; [reflexivity|]. split; [reflexivity|].
  rewrite (isExpensiveOperation_method_call mathExample_body 1 "sqrt" [RValue 0]);
    [reflexivity | discriminate].
Defined.

(** C6 (amended): lowering a bare identifier returns the id of the FIRST
    (smallest-id) prior Declare or Param carrying the name, leaving the state
    unchanged; when none carries it, a LoadConstant placeholder is appended
    and its id returned. *)
Theorem lower_identifier_first_declaration (st : LowerState) (name : string) :
  match lowerBabelInstr (Identifier name) st with
  | Ok (i, st') =>
      (st' = st /\
       (exists instr, nth_error (instrs st) i = Some instr /\ declares name instr = true) /\
       (forall j instr, j < i -> nth_error (instrs st) j = Some instr -> declares name instr = false))
      \/
      ((forall j instr, nth_error (instrs st) j = Some instr -> declares name instr = false) /\
       i = List.length (instrs st) /\
       instrs st' = instrs st ++ [LoadConstant name])
  | Throw _ => False
  end.
Proof.
  cbn [lowerBabelInstr]. unfold bind, get_state. unfold getDeclaration.
  destruct (getDeclaration_from 0 (instrs st) name) as [i|] eqn:Hd.
  - left. apply getDeclaration_from_Some in Hd as [_ [Hex Hmin]].
    rewrite Nat.sub_0_r in Hex, Hmin. split; [reflexivity|]. exact (conj Hex Hmin).
  - right. split; [exact (getDeclaration_from_None _ _ _ Hd)|]. split; reflexivity.
Qed.

Lemma lower_identifier_last_declaration_counterexample :
  readInstructions dupExample =
  Ok (mkLowerState
        [LoadConstant "1"; Declare "x" 0; LoadConstant "2"; Declare "x" 2; Return (Some 1)]
        [LogInstr 0; LogInstr 1; LogInstr 2; LogInstr 3; LogInstr 4]) /\
  declares "x" (Declare "x" 2) = true /\ 1 < 3.
Proof. split; [reflexivity|]. split; [reflexivity | lia]. Qed.

(** C7 (amended): for [function F(a, b) { const c = a.map(x => x * b); return c; }]
    the [.map] Call (id 3) depends at the IR level on [a] (id 0) only, since
    the arrow function is lowered to an opaque LoadConstant; nothing is
    unioned with it, so no class of size > 1 and no scope range exist and
    [codegenJS] emits no statement; the statement-level rewrite replaces the
    initializer in place by a [useMemo(() => a.map(x => x * b), deps)]
    call whose dependency list [deps] holds [a] and [b]. *)
Theorem scenarioA_pipeline :
  readInstructions scenarioA = Ok scenarioA_state /\
  instrs scenarioA_state = scenarioA_body /\
  nth_error scenarioA_body 3 = Some (Call 0 (Some "map") [RValue 2]) /\
  option_map dependencies (nth_error (analyze scenarioA_body) 3) = Some [0] /\
  buildSets (build_mutating_sets scenarioA_body (analyze scenarioA_body)) = [] /\
  getInstructionScopeRanges scenarioA_body (analyze scenarioA_body) = [] /\
  codegenJS scenarioA_body (analyze scenarioA_body) = Some [] /\
  exists deps,
  In (Identifier "a") deps /\ In (Identifier "b") deps /\
  compileFunction scenarioA =
  Ok (mkOutput
    [VariableDeclaration "const"
       [VariableDeclarator (Identifier "c")
          (Some (CallExpression (Identifier "useMemo")
             [ArrowFunctionExpression []
                (CallExpression
                   (MemberExpression (Identifier "a") (Identifier "map") false)
                   [ArrowFunctionExpression [Identifier "x"]
                      (BinaryExpression "*" (Identifier "x") (Identifier "b"))]);
              ArrayExpression deps]))];
     ReturnStatement (Some (Identifier "c"))] true).
Proof.
  do 7 (split; [vm_compute; reflexivity|]).
  exists [Identifier "a"; Identifier "x"; Identifier "b"].
  split; [simpl; auto|]. split; [simpl; auto|]. vm_compute. reflexivity.
Qed.

Lemma scenarioA_dependencies_counterexample :
  match nth_error (analyze scenarioA_body) 3 with
  | Some vi => ~ In 1 (dependencies vi)
  | None => False
  end /\
  nth_error scenarioA_body 1 = Some (Param "b").
Proof. vm_compute. split; [intros [H|[]]; discriminate H | reflexivity]. Qed.

(** ** Functions without Param and without hook calls *)

Lemma analyze_proj_all (func : FunctionBody) :
  map info_proj (analyze func) =
  map (fun instr =>
         (collect_dependencies (getValuesThatMayChange func) instr,
          isExpensiveOperation instr func &&
          Nat.ltb 0 (List.length (collect_dependencies (getValuesThatMayChange func) instr))))
    func.
Proof.
  unfold analyze. rewrite mutation_sweep_proj. unfold analyze_step1.
  rewrite map_map. reflexivity.
Qed.

Lemma mayChange_unseeded (func : FunctionBody) :
  (forall i instr, nth_error func i = Some instr ->
                   is_param instr = false /\ isHookCall instr func = false) ->
  forall x, ~ In x (getValuesThatMayChange func).
Proof.
  intros Hno x. induction x as [x IH] using (well_founded_ind lt_wf). intros Hx.
  unfold getValuesThatMayChange in Hx.
  rewrite (sweep_from_spec _ func 0 [] ltac:(intros y [])) in Hx.
  destruct Hx as [[]|[k [instr [Hk [Hxk [Hs|[u [_ [Hlt Hu]]]]]]]]].
  - destruct (Hno k instr Hk) as [H1 H2]. rewrite H1, H2 in Hs. discriminate.
  - exact (IH u Hlt Hu).
Qed.

Lemma analyze_unseeded_dependencies (func : FunctionBody) :
  (forall i instr, nth_error func i = Some instr ->
                   is_param instr = false /\ isHookCall instr func = false) ->
  forall i vi, nth_error (analyze func) i = Some vi -> dependencies vi = [].
Proof.
  intros Hno i vi Hvi.
  assert (Hp : nth_error (map info_proj (analyze func)) i = Some (info_proj vi)).
  { rewrite nth_error_map, Hvi. reflexivity. }
  rewrite analyze_proj_all, nth_error_map in Hp.
  destruct (nth_error func i) as [instr|]; [|discriminate]. unfold info_proj in Hp. cbn [option_map] in Hp.
  injection Hp as Hd _.
  destruct (dependencies vi) as [|d ds] eqn:E; [reflexivity|exfalso].
  destruct (collect_dependencies_spec (getValuesThatMayChange func) instr) as [_ Hin].
  rewrite Hd in Hin. apply (mayChange_unseeded func Hno d), (Hin d). left. reflexivity.
Qed.

Lemma build_mutating_sets_unmemoized (func : FunctionBody) (info : ValueInfos) :
  (forall i vi, nth_error info i = Some vi -> dependencies vi = []) ->
  build_mutating_sets func info = emptyDS.
Proof.
  intros Hd. unfold build_mutating_sets.
  induction (seq 0 (List.length func)) as [|i l IH]; [reflexivity|]. simpl.
  destruct (nth_error info i) as [vi|] eqn:Hvi; [|exact IH].
  unfold shouldMemoize. rewrite (Hd i vi Hvi). simpl. rewrite andb_false_r. exact IH.
Qed.

Lemma codegen_loop_pass_through (func : FunctionBody) (info : ValueInfos) (ids : list nat) (k : nat) :
  codegen_loop func info
    (map prune (flat_map (fun i => match nth_error func i with
                                   | Some instr => [RInstr i instr]
                                   | None => []
                                   end) ids)) k = Some [].
Proof.
  induction ids as [|i ids IH]; [reflexivity|]. simpl.
  destruct (nth_error func i); [exact IH | exact IH].
Qed.

(** C8 (amended): if the lowered body has no Param and no Call whose receiver
    is a LoadConstant starting with "use", every [dependencies] set is empty,
    the partition is all pass-through and [codegenJS] emits nothing; the
    compiled statements are then exactly the input statements after the
    independent step-4 rewrite, which still wraps every declarator whose
    initializer is a [.map]/[.filter]/... method call in [useMemo]. *)
Theorem unseeded_compile (f : FunctionDeclaration) (st : LowerState)
  (Hread : readInstructions f = Ok st)
  (Hno : forall i instr, nth_error (instrs st) i = Some instr ->
                         is_param instr = false /\ isHookCall instr (instrs st) = false) :
  (forall i vi, nth_error (analyze (instrs st)) i = Some vi -> dependencies vi = []) /\
  makeReactiveInstrs (instrs st) (analyze (instrs st)) =
    Some (pass_through (instrs st) 0 (List.length (instrs st))) /\
  codegenJS (instrs st) (analyze (instrs st)) = Some [] /\
  compileFunction f =
    Ok (mkOutput (map fst (map rewrite_statement (body f)))
                 (existsb snd (map rewrite_statement (body f)))).
Proof.
  pose proof (analyze_unseeded_dependencies _ Hno) as Hd.
  assert (Hm : makeReactiveInstrs (instrs st) (analyze (instrs st)) =
               Some (pass_through (instrs st) 0 (List.length (instrs st)))).
  { unfold makeReactiveInstrs, getInstructionScopeRanges.
    rewrite (build_mutating_sets_unmemoized _ _ Hd). reflexivity. }
  assert (Hc : codegenJS (instrs st) (analyze (instrs st)) = Some []).
  { unfold codegenJS. rewrite Hm. cbn [obind]. apply codegen_loop_pass_through. }
  split; [exact Hd|]. split; [exact Hm|]. split; [exact Hc|].
  unfold compileFunction. rewrite Hread. cbv zeta. rewrite Hc. reflexivity.
Qed.

Lemma unseeded_compile_witness :
  readInstructions itemsExample = Ok itemsExample_state /\
  codegenJS (instrs itemsExample_state) (analyze (instrs itemsExample_state)) = Some [].
Proof.
  assert (Hread : readInstructions itemsExample = Ok itemsExample_state)
    by (vm_compute; reflexivity).
  split; [exact Hread|].
  refine (proj1 (proj2 (proj2 (unseeded_compile itemsExample itemsExample_state Hread _)))).
  intros i instr H. vm_compute in H.
  do 5 (destruct i as [|i]; [injection H as <-; split; reflexivity|]).
  destruct i; discriminate.
Defined.

Lemma unseeded_output_unchanged_counterexample :
  instrs itemsExample_state =
    [LoadConstant "items"; LoadConstant "f"; Call 0 (Some "map") [RValue 1];
     Declare "c" 2; Return (Some 3)] /\
  compileFunction itemsExample =
  Ok (mkOutput
    [VariableDeclaration "const"
       [VariableDeclarator (Identifier "c")
          (Some (CallExpression (Identifier "useMemo")
             [ArrowFunctionExpression []
                (CallExpression (MemberExpression (Identifier "items") (Identifier "map") false)
                   [Identifier "f"]);
              ArrayExpression [Identifier "items"; Identifier "f"]]))];
     ReturnStatement (Some (Identifier "c"))] true) /\
  match compileFunction itemsExample with
  | Ok out => out_body out <> body itemsExample
  | Throw _ => False
  end.
Proof. vm_compute. split; [reflexivity|]. split; [reflexivity | discriminate]. Qed.

(** ** Hard errors and placeholders of the lowering *)

Lemma bind_aborts_k {A B} (m : M A) (k : A -> M B) :
  (forall a, aborts (k a)) -> aborts (bind m k).
Proof.
  intros Hk st. unfold bind. destruct (m st) as [[a st1]|e]; [exact (Hk a st1) | exists e; reflexivity].
Qed.

Lemma bind_aborts_m {A B} (m : M A) (k : A -> M B) : aborts m -> aborts (bind m k).
Proof.
  intros Hm st. unfold bind. destruct (Hm st) as [e He]. rewrite He. exists e. reflexivity.
Qed.

Lemma invalid_aborts {A} (msg : string) : aborts (@invalid A msg).
Proof. intros st. eexists. reflexivity. Qed.

Lemma decl_no_init_aborts (kind : string) (pre ds : list Node) (id : Node) :
  aborts (lowerBabelInstr (VariableDeclaration kind (pre ++ VariableDeclarator id None :: ds))).
Proof.
  cbn [lowerBabelInstr]. apply bind_aborts_k. intros st0. cbv beta zeta.
  generalize (List.length (instrs st0)). clear st0.
  induction pre as [|d pre IH]; intros lv; cbn [app].
  - apply invalid_aborts.
  - destruct d as [| | | | | | | | | | | | | | | | |did [e|]| | |]; try exact (IH lv);
      [|apply invalid_aborts].
    destruct did; try (apply bind_aborts_k; intros; exact (IH lv));
      apply bind_aborts_k; intros; apply bind_aborts_k; intros cv; exact (IH cv).
Qed.

Lemma object_key_aborts (pre ps : list Node) (key value : Node) :
  is_identifier key = false ->
  aborts (lowerBabelInstr (ObjectExpression (pre ++ ObjectProperty key value :: ps))).
Proof.
  intros Hk. cbn [lowerBabelInstr]. apply bind_aborts_m.
  generalize (@nil (string * Value)) as acc.
  induction pre as [|p pre IH]; intros acc; cbn [app].
  - destruct key; try discriminate Hk; apply invalid_aborts.
  - destruct p as [| | | | | |k v| | | | | | | | | | | | | |]; try exact (IH acc).
    destruct k; try apply invalid_aborts.
    apply bind_aborts_k. intros lv. apply IH.
Qed.

Lemma param_key_aborts (pre ps : list Node) (key value : Node) :
  is_identifier key = false ->
  aborts (lowerParam (ObjectPattern (pre ++ ObjectProperty key value :: ps))).
Proof.
  intros Hk. cbn [lowerParam].
  induction pre as [|p pre IH]; cbn [app].
  - destruct key; try discriminate Hk; apply invalid_aborts.
  - destruct p as [| | | | | |k v| | | | | | | | | | | | | |]; try apply invalid_aborts.
    destruct k; try apply invalid_aborts.
    apply bind_aborts_k. intros u. exact IH.
Qed.

Lemma param_element_aborts (pre ps : list Node) (q : Node) :
  (forall key value, q <> ObjectProperty key value) ->
  aborts (lowerParam (ObjectPattern (pre ++ q :: ps))).
Proof.
  intros Hq. cbn [lowerParam].
  induction pre as [|p pre IH]; cbn [app].
  - destruct q; try apply invalid_aborts. exfalso. eapply Hq. reflexivity.
  - destruct p as [| | | | | |k v| | | | | | | | | | | | | |]; try apply invalid_aborts.
    destruct k; try apply invalid_aborts.
    apply bind_aborts_k. intros u. exact IH.
Qed.

(** C9 (amended): the lowering aborts with a hard error not only for a
    declarator without initializer and for a destructured parameter key that
    is not an identifier, wherever it stands in its declaration or pattern,
    but also for a MemberExpression whose property is
    not an Identifier, NumericLiteral or StringLiteral (e.g. [x[i + 1]]), a
    method call whose property is not an identifier, an object literal key
    that is not an identifier (at any position of the literal), a
    destructured parameter element that is not an ObjectProperty (at any
    position of the pattern), and a parameter that is neither an identifier nor an
    object pattern. Every node kind of the final fallback branch is lowered
    without error to a LoadConstant ["unsupported_<type>"] placeholder,
    preceded by a [LogSkipInstr] log line. *)
Theorem lowering_errors_and_placeholders :
  (forall kind id ds st,
     lowerBabelInstr (VariableDeclaration kind (VariableDeclarator id None :: ds)) st =
     Throw ("Invalid syntax. " +s+ "Variable must have initializer")) /\
  (forall key value ps st, is_identifier key = false ->
     lowerParam (ObjectPattern (ObjectProperty key value :: ps)) st =
     Throw ("Invalid syntax. " +s+ "Cannot handle non-identifier key in destructured param")) /\
  (forall n st, is_fallback n = true ->
     lowerBabelInstr n st =
     Ok (List.length (instrs st),
         mkLowerState (instrs st ++ [LoadConstant ("unsupported_" +s+ node_type n)])
                      (logs st ++ [LogSkipInstr (node_type n); LogInstr (List.length (instrs st))]))) /\
  (forall o p c st r st1, lowerBabelInstr o st = Ok (r, st1) -> supported_property p = false ->
     lowerBabelInstr (MemberExpression o p c) st =
     Throw ("Unsupported property type: " +s+ node_type p)) /\
  (forall o p c args st r st1, lowerBabelInstr o st = Ok (r, st1) -> is_identifier p = false ->
     lowerBabelInstr (CallExpression (MemberExpression o p c) args) st =
     Throw ("Invalid syntax. " +s+ "Only identifier properties supported")) /\
  (forall key value ps st, is_identifier key = false ->
     lowerBabelInstr (ObjectExpression (ObjectProperty key value :: ps)) st =
     Throw ("Invalid syntax. " +s+ "Only identifier keys supported")) /\
  (forall q ps st, (forall key value, q <> ObjectProperty key value) ->
     lowerParam (ObjectPattern (q :: ps)) st =
     Throw ("Invalid syntax. " +s+ ("Cannot handle " +s+ node_type q +s+ " in param"))) /\
  (forall p st, is_identifier p = false -> (forall ps, p <> ObjectPattern ps) ->
     lowerParam p st =
     Throw ("Invalid syntax. " +s+ ("Cannot handle non-identifier param " +s+ node_type p))) /\
  (forall kind pre id ds st, exists e,
     lowerBabelInstr (VariableDeclaration kind (pre ++ VariableDeclarator id None :: ds)) st =
     Throw e) /\
  (forall pre key value ps st, is_identifier key = false -> exists e,
     lowerParam (ObjectPattern (pre ++ ObjectProperty key value :: ps)) st = Throw e) /\
  (forall pre key value ps st, is_identifier key = false -> exists e,
     lowerBabelInstr (ObjectExpression (pre ++ ObjectProperty key value :: ps)) st = Throw e) /\
  (forall pre q ps st, (forall key value, q <> ObjectProperty key value) -> exists e,
     lowerParam (ObjectPattern (pre ++ q :: ps)) st = Throw e).
Proof.
  split; [reflexivity|]. split.
  { intros key value ps st H. destruct key; try discriminate H; reflexivity. }
  split.
  { intros n st H. destruct n; try discriminate H; cbn [lowerBabelInstr]; unfold bind, log, push; cbn [instrs logs]; rewrite <- app_assoc; reflexivity. }
  split.
  { intros o p c st r st1 Ho Hp. cbn [lowerBabelInstr]. unfold bind at 1. rewrite Ho.
    destruct p; try discriminate Hp; reflexivity. }
  split.
  { intros o p c args st r st1 Ho Hp. cbn [lowerBabelInstr]. unfold bind at 1 2. rewrite Ho.
    destruct p; try discriminate Hp; reflexivity. }
  split.
  { intros key value ps st H. destruct key; try discriminate H; reflexivity. }
  split.
  { intros q ps st H. destruct q; try reflexivity. exfalso. eapply H. reflexivity. }
  split.
  { intros p st H1 H2. destruct p; try discriminate H1; try reflexivity.
    exfalso. eapply H2. reflexivity. }
  split; [intros kind pre id ds st; exact (decl_no_init_aborts kind pre ds id st)|].
  split; [intros pre key value ps st H; exact (param_key_aborts pre ps key value H st)|].
  split; [intros pre key value ps st H; exact (object_key_aborts pre ps key value H st)|].
  intros pre q ps st H. exact (param_element_aborts pre ps q H st).
Qed.

Lemma lowering_errors_and_placeholders_witness :
  lowerBabelInstr (BinaryExpression "*" (Identifier "x") (Identifier "b")) (mkLowerState [] []) =
  Ok (0, mkLowerState [LoadConstant "unsupported_BinaryExpression"]
                      [LogSkipInstr "BinaryExpression"; LogInstr 0]) /\
  lowerBabelInstr (MemberExpression (Identifier "x")
                     (BinaryExpression "+" (Identifier "i") (NumericLiteral 1)) true)
                  (mkLowerState [Param "x"; Param "i"] []) =
  Throw "Unsupported property type: BinaryExpression" /\
  lowerParam (ObjectPattern [ObjectProperty (StringLiteral "k") (Identifier "v")])
             (mkLowerState [] []) =
  Throw ("Invalid syntax. " +s+ "Cannot handle non-identifier key in destructured param") /\
  exists e, lowerBabelInstr (ObjectExpression [ObjectProperty (Identifier "a") (NumericLiteral 1);
                                              ObjectProperty (StringLiteral "k") (NumericLiteral 2)])
                            (mkLowerState [] []) = Throw e.
Proof.
  destruct lowering_errors_and_placeholders
    as [_ [Hkey [Hfb [Hprop [_ [_ [_ [_ [_ [_ [Hobj _]]]]]]]]]]].
  split; [exact (Hfb (BinaryExpression "*" (Identifier "x") (Identifier "b")) (mkLowerState [] []) eq_refl)|].
  split; [exact (Hprop (Identifier "x") (BinaryExpression "+" (Identifier "i") (NumericLiteral 1))
                       true (mkLowerState [Param "x"; Param "i"] [])
                       0 (mkLowerState [Param "x"; Param "i"] []) eq_refl eq_refl)|].
  split; [exact (Hkey (StringLiteral "k") (Identifier "v") [] (mkLowerState [] []) eq_refl)|].
  exact (Hobj [ObjectProperty (Identifier "a") (NumericLiteral 1)] (StringLiteral "k")
              (NumericLiteral 2) [] (mkLowerState [] []) eq_refl).
Defined.

Lemma lowering_errors_counterexample :
  readInstructions computedExample = Throw "Unsupported property type: BinaryExpression" /\
  is_fallback (BinaryExpression "+" (Identifier "i") (NumericLiteral 1)) = true.
Proof. split; reflexivity. Qed.

(** ** What [codegenJS] emits *)

Lemma codegen_loop_shape (func : FunctionBody) (info : ValueInfos) (l : list ReactiveInstruction) :
  forall k out, codegen_loop func info l k = Some out ->
  List.length out = List.length (filter (emits_statement info) l) /\
  Forall (fun n => exists memoVar computation depNames,
                     n = memo_declaration memoVar computation depNames) out.
Proof.
  induction l as [|ri l IH]; intros k out H.
  - injection H as <-. split; [reflexivity | constructor].
  - destruct ri as [is ds deps|id instr]; [destruct deps as [|d deps]|];
      cbn [codegen_loop emits_statement filter] in *; try exact (IH _ _ H).
    destruct (main_operation is info) as [[mid mo]|]; [|exact (IH _ _ H)].
    cbn [obind] in H.
    destruct (instrToExpression _ mo func) as [e|]; [|discriminate].
    destruct (codegen_loop func info l (S k)) as [out'|] eqn:Hl; [|discriminate].
    injection H as <-. destruct (IH _ _ Hl) as [Hlen Hf].
    split; [simpl; rewrite Hlen; reflexivity|].
    constructor; [do 3 eexists; reflexivity | exact Hf].
Qed.

(** C3 (amended): pass-through instructions produce no output statement.
    Every statement [codegenJS] returns is a memo declaration
    [const memoVar = useMemo(() => computation, [deps])], one for each
    ReactiveBlock of the pruned partition that has a non-empty dependency
    list and a member with [shouldMemo] set, and nothing else. *)
Theorem codegenJS_only_memo_declarations (func : FunctionBody) (info : ValueInfos)
  (out : list Node) (Hgen : codegenJS func info = Some out) :
  exists hir, makeReactiveInstrs func info = Some hir /\
    List.length out = List.length (filter (emits_statement info) (map prune hir)) /\
    Forall (fun n => exists memoVar computation depNames,
                       n = memo_declaration memoVar computation depNames) out.
Proof.
  unfold codegenJS in Hgen.
  destruct (makeReactiveInstrs func info) as [hir|]; [|discriminate].
  exists hir. split; [reflexivity|]. exact (codegen_loop_shape _ _ _ _ _ Hgen).
Qed.

Lemma codegenJS_only_memo_declarations_witness :
  makeReactiveInstrs blockExample (analyze blockExample) =
  Some [RInstr 0 (Param "items"); RInstr 1 (LoadConstant "foo");
        ReactiveBlock [(2, Object [("a", RValue 0)]); (3, Call 1 None [RValue 2])] [2; 3] [0; 2];
        RInstr 4 (Return (Some 3))] /\
  codegenJS blockExample (analyze blockExample) =
  Some [memo_declaration "memoized0"
          (ObjectExpression [ObjectProperty (Identifier "a") (Identifier "unknown")]) ["items"]] /\
  exists hir, makeReactiveInstrs blockExample (analyze blockExample) = Some hir /\
    List.length [memo_declaration "memoized0"
          (ObjectExpression [ObjectProperty (Identifier "a") (Identifier "unknown")]) ["items"]] =
    List.length (filter (emits_statement (analyze blockExample)) (map prune hir)).
Proof.
  assert (H : codegenJS blockExample (analyze blockExample) =
              Some [memo_declaration "memoized0"
                      (ObjectExpression [ObjectProperty (Identifier "a") (Identifier "unknown")])
                      ["items"]]) by (vm_compute; reflexivity).
  split; [vm_compute; reflexivity|]. split; [exact H|].
  destruct (codegenJS_only_memo_declarations _ _ _ H) as [hir [Hm [Hl _]]].
  exists hir. split; [exact Hm | exact Hl].
Defined.

Lemma pass_through_codegen_counterexample :
  makeReactiveInstrs scenarioA_body (analyze scenarioA_body) =
  Some [RInstr 0 (Param "a"); RInstr 1 (Param "b"); RInstr 2 (LoadConstant "function");
        RInstr 3 (Call 0 (Some "map") [RValue 2]); RInstr 4 (Declare "c" 3);
        RInstr 5 (Return (Some 4))] /\
  codegenJS scenarioA_body (analyze scenarioA_body) = Some [].
Proof. split; vm_compute; reflexivity. Qed.

Lemma analyze_dependencies_shouldMemo_witness :
  nth_error scenarioA_body 3 = Some (Call 0 (Some "map") [RValue 2]) /\
  exists vi, nth_error (analyze scenarioA_body) 3 = Some vi /\
    (forall d, In d (dependencies vi) <->
               In d (eachValue (Call 0 (Some "map") [RValue 2])) /\
               In d (getValuesThatMayChange scenarioA_body)) /\
    (shouldMemo vi = true <->
       isExpensiveOperation (Call 0 (Some "map") [RValue 2]) scenarioA_body = true /\
       dependencies vi <> []).
Proof.
  split; [reflexivity|].
  destruct (analyze_dependencies_shouldMemo scenarioA_body 3 (Call 0 (Some "map") [RValue 2]) eq_refl)
    as [_ [vi [Hvi [_ [Hd Hs]]]]].
  exists vi. split; [exact Hvi|]. split; [exact Hd | exact Hs].
Defined.

(** ** The partition handed to code generation *)

Lemma jm_get_In (m : list (nat * nat)) (k v : nat) : jm_get m k = Some v -> In (k, v) m.
Proof.
  induction m as [|[k' v'] m IH]; simpl; [discriminate|].
  destruct (Nat.eqb_spec k k') as [->|_].
  - intros H. injection H as <-. left. reflexivity.
  - intros H. right. exact (IH H).
Qed.

Lemma jm_set_In (m : list (nat * nat)) (k v k0 v0 : nat) :
  In (k0, v0) (jm_set m k v) -> In (k0, v0) m \/ (k0, v0) = (k, v).
Proof.
  induction m as [|[k' v'] m IH]; simpl.
  - intros [H|[]]. right. symmetry. exact H.
  - destruct (Nat.eqb k k'); simpl.
    + intros [H|H]; [right; symmetry; exact H | left; right; exact H].
    + intros [H|H]; [left; left; exact H|].
      destruct (IH H) as [H'|H']; [left; right; exact H' | right; exact H'].
Qed.

Lemma jm_set_bounded (n : nat) (m : list (nat * nat)) (k v : nat) :
  (forall k' v', In (k', v') m -> k' < n /\ v' < n) -> k < n -> v < n ->
  forall k' v', In (k', v') (jm_set m k v) -> k' < n /\ v' < n.
Proof.
  intros B Hk Hv k' v' H. destruct (jm_set_In _ _ _ _ _ H) as [H'|H']; [exact (B _ _ H')|].
  injection H' as -> ->. auto.
Qed.

Lemma ensure_bounded (n item : nat) (ds : DisjointSet) :
  ds_bounded n ds -> item < n -> ds_bounded n (ensure item ds).
Proof.
  unfold ensure. intros B Hi. destruct (jm_get (parent ds) item); [exact B|].
  unfold ds_bounded. simpl. apply jm_set_bounded; assumption.
Qed.

Lemma find_chain_bounded (n fuel : nat) :
  forall item ds ds' r, find_chain fuel item ds = (ds', r) ->
  ds_bounded n ds -> item < n -> ds_bounded n ds' /\ r < n.
Proof.
  induction fuel as [|f IH]; intros item ds ds' r H B Hi; cbn [find_chain] in H;
    (assert (B1 : ds_bounded n (ensure item ds)) by (apply ensure_bounded; assumption));
    (assert (Hp : match jm_get (parent (ensure item ds)) item with Some p => p | None => item end < n)
       by (destruct (jm_get (parent (ensure item ds)) item) as [p|] eqn:E;
           [exact (proj2 (B1 _ _ (jm_get_In _ _ _ E))) | exact Hi]));
    revert H Hp;
    generalize (match jm_get (parent (ensure item ds)) item with Some p => p | None => item end);
    intros p H Hp; destruct (Nat.eqb p item).
  - injection H as <- <-. auto.
  - injection H as <- <-. auto.
  - injection H as <- <-. auto.
  - destruct (find_chain f p (ensure item ds)) as [ds2 r2] eqn:Hf. injection H as <- <-.
    destruct (IH _ _ _ _ Hf B1 Hp) as [B2 Hr]. split; [|exact Hr].
    unfold ds_bounded. simpl. apply jm_set_bounded; assumption.
Qed.

Lemma find_bounded (n item : nat) (ds ds' : DisjointSet) (r : nat) :
  find item ds = (ds', r) -> ds_bounded n ds -> item < n -> ds_bounded n ds' /\ r < n.
Proof. apply find_chain_bounded. Qed.

Lemma unionTwo_bounded (n a b : nat) (ds : DisjointSet) :
  ds_bounded n ds -> a < n -> b < n -> ds_bounded n (unionTwo a b ds).
Proof.
  intros B Ha Hb. unfold unionTwo.
  destruct (find a ds) as [ds1 ra] eqn:E1.
  destruct (find_bounded n _ _ _ _ E1 B Ha) as [B1 Hra].
  destruct (find b ds1) as [ds2 rb] eqn:E2.
  destruct (find_bounded n _ _ _ _ E2 B1 Hb) as [B2 Hrb].
  destruct (Nat.eqb ra rb); [exact B2|].
  destruct (Nat.ltb _ _); [unfold ds_bounded; simpl; apply jm_set_bounded; assumption|].
  destruct (Nat.ltb _ _); unfold ds_bounded; simpl; apply jm_set_bounded; assumption.
Qed.

Lemma union_bounded (n : nat) (items : list nat) (ds : DisjointSet) :
  ds_bounded n ds -> (forall x, In x items -> x < n) -> ds_bounded n (union items ds).
Proof.
  intros B H. destruct items as [|first [|x rest]]; [exact B | exact B|].
  unfold union. cbv beta iota.
  assert (Hf : first < n) by (apply H; left; reflexivity).
  assert (Hr : forall y, In y (x :: rest) -> y < n) by (intros y Hy; apply H; right; exact Hy).
  remember (x :: rest) as l eqn:El. clear El H.
  revert ds B. induction l as [|y ys IH]; intros ds B; simpl; [exact B|].
  apply IH; [intros z Hz; apply Hr; right; exact Hz|].
  apply unionTwo_bounded; [exact B | exact Hf | apply Hr; left; reflexivity].
Qed.

Lemma build_mutating_sets_bounded (func : FunctionBody) (info : ValueInfos) :
  instructions_below (List.length func) info ->
  ds_bounded (List.length func) (build_mutating_sets func info).
Proof.
  intros Hinfo. unfold build_mutating_sets.
  assert (Hseq : forall id, In id (seq 0 (List.length func)) -> id < List.length func)
    by (intros id Hid; apply in_seq in Hid; lia).
  assert (B0 : ds_bounded (List.length func) emptyDS) by (intros k v []).
  remember (seq 0 (List.length func)) as l eqn:El. clear El.
  revert Hseq B0. generalize emptyDS.
  induction l as [|id ids IH]; intros ds Hseq B; simpl; [exact B|].
  apply IH; [intros z Hz; apply Hseq; right; exact Hz|].
  destruct (nth_error info id) as [vi|] eqn:E; [|exact B].
  destruct (shouldMemoize vi); [|exact B].
  apply union_bounded; [exact B|]. unfold union_items. intros x Hx.
  apply in_app_or in Hx. destruct Hx as [Hx|[<-|[]]].
  - destruct (instructions vi) as [s|] eqn:Es; [|destruct Hx].
    exact (Hinfo vi s x (nth_error_In _ _ E) Es Hx).
  - apply Hseq. left. reflexivity.
Qed.

Lemma update_nth_In {A} (f : A -> A) (n : nat) (l : list A) (x : A) :
  In x (update_nth f n l) -> In x l \/ exists y, In y l /\ x = f y.
Proof.
  revert n. induction l as [|y l IH]; intros [|n]; simpl; try tauto.
  - intros [<-|H]; [right; exists y; auto | left; right; exact H].
  - intros [<-|H]; [left; left; reflexivity|].
    destruct (IH n H) as [H'|[z [Hz ->]]]; [left; right; exact H' | right; exists z; auto].
Qed.

Lemma mutation_sweep_below (w : list InstrId) (l : list Instruction) :
  forall id0 r B, id0 + List.length l <= B -> instructions_below B r ->
  instructions_below B (mutation_sweep w id0 l r).
Proof.
  induction l as [|instr rest IH]; intros id0 r B Hle Hr; simpl; [exact Hr|].
  simpl in Hle. apply IH; [lia|].
  destruct instr; try exact Hr.
  set (us := eachValue _). clearbody us.
  revert r Hr. induction us as [|u us IHu]; intros r Hr; simpl; [exact Hr|].
  apply IHu. destruct (set_has u w); [|exact Hr].
  intros vi s x Hvi Hs Hx. destruct (update_nth_In _ _ _ _ Hvi) as [H|[y [Hy ->]]];
    [exact (Hr vi s x H Hs Hx)|].
  unfold add_mutator in Hs. simpl in Hs. injection Hs as <-.
  apply In_set_add in Hx. destruct Hx as [Hx|Hx]; [lia|].
  destruct (instructions y) as [s0|] eqn:E; [exact (Hr y s0 x Hy E Hx) | destruct Hx].
Qed.

Lemma analyze_instructions_below (func : FunctionBody) :
  instructions_below (List.length func) (analyze func).
Proof.
  unfold analyze. apply mutation_sweep_below; [lia|].
  intros vi s x Hvi Hs. unfold analyze_step1 in Hvi. apply in_map_iff in Hvi.
  destruct Hvi as [instr [<- _]]. simpl in Hs. discriminate Hs.
Qed.

Lemma group_push_In (groups : list (nat * list nat)) (root item : nat) (g : list nat) (x : nat) :
  In g (map snd (group_push groups root item)) -> In x g ->
  x = item \/ exists g0, In g0 (map snd groups) /\ In x g0.
Proof.
  induction groups as [|[r g1] groups IH]; simpl.
  - intros [<-|[]] [<-|[]]. left. reflexivity.
  - destruct (Nat.eqb r root); simpl.
    + intros [<-|Hg] Hx.
      * apply in_app_or in Hx. destruct Hx as [Hx|[<-|[]]]; [|left; reflexivity].
        right. exists g1. split; [left; reflexivity | exact Hx].
      * right. exists g. split; [right; exact Hg | exact Hx].
    + intros [<-|Hg] Hx.
      * right. exists g1. split; [left; reflexivity | exact Hx].
      * destruct (IH Hg Hx) as [H|[g0 [H1 H2]]]; [left; exact H|].
        right. exists g0. split; [right; exact H1 | exact H2].
Qed.

Lemma build_groups_In (keys : list nat) :
  forall ds groups g x, In g (map snd (build_groups keys ds groups)) -> In x g ->
  In x keys \/ exists g0, In g0 (map snd groups) /\ In x g0.
Proof.
  induction keys as [|k ks IH]; intros ds groups g x; simpl.
  - intros Hg Hx. right. exists g. auto.
  - destruct (find k ds) as [ds' root]. intros Hg Hx.
    destruct (IH _ _ _ _ Hg Hx) as [H|[g0 [H1 H2]]]; [left; right; exact H|].
    destruct (group_push_In _ _ _ _ _ H1 H2) as [->|H]; [left; left; reflexivity | right; exact H].
Qed.

Lemma buildSets_bounded (n : nat) (ds : DisjointSet) :
  ds_bounded n ds -> forall g, In g (buildSets ds) -> g <> [] /\ forall x, In x g -> x < n.
Proof.
  intros B g Hg. unfold buildSets in Hg. apply filter_In in Hg as [Hg Hlen]. split.
  - intros ->. discriminate Hlen.
  - intros x Hx. destruct (build_groups_In _ _ _ _ _ Hg Hx) as [H|[g0 [[] _]]].
    apply in_map_iff in H as [[k v] [Hk Hkv]]. simpl in Hk. subst k.
    exact (proj1 (B _ _ Hkv)).
Qed.

Lemma fold_min_le (xs : list nat) : forall x, fold_left Nat.min xs x <= x.
Proof. induction xs as [|a xs IH]; simpl; intros x; [lia|]. specialize (IH (Nat.min x a)). lia. Qed.

Lemma fold_max_ge (xs : list nat) : forall x, x <= fold_left Nat.max xs x.
Proof. induction xs as [|a xs IH]; simpl; intros x; [lia|]. specialize (IH (Nat.max x a)). lia. Qed.

Lemma fold_max_lt (n : nat) (xs : list nat) :
  forall x, x < n -> (forall y, In y xs -> y < n) -> fold_left Nat.max xs x < n.
Proof.
  induction xs as [|a xs IH]; simpl; intros x Hx Hxs; [exact Hx|].
  apply IH; [|intros y Hy; apply Hxs; right; exact Hy].
  specialize (Hxs a (or_introl eq_refl)). lia.
Qed.

Lemma range_of_ok (n : nat) (g : list nat) :
  g <> [] -> (forall x, In x g -> x < n) -> range_ok n (range_of g).
Proof.
  destruct g as [|x xs]; [contradiction|]. intros _ H. unfold range_ok. simpl.
  pose proof (fold_min_le xs x). pose proof (fold_max_ge xs x).
  pose proof (fold_max_lt n xs x (H x (or_introl eq_refl)) (fun y Hy => H y (or_intror Hy))).
  lia.
Qed.

Lemma insert_by_start_In (r : Range) (l : list Range) (x : Range) :
  In x (insert_by_start r l) -> x = r \/ In x l.
Proof.
  induction l as [|y l IH]; simpl; [intros [<-|[]]; left; reflexivity|].
  destruct (Nat.leb _ _); simpl.
  - intros [<-|H]; [right; left; reflexivity|].
    destruct (IH H) as [->|H']; [left; reflexivity | right; right; exact H'].
  - intros [<-|H]; [left; reflexivity | right; exact H].
Qed.

Lemma sort_ranges_In (l : list Range) (x : Range) : In x (sort_ranges l) -> In x l.
Proof.
  unfold sort_ranges.
  assert (G : forall acc, In x (fold_left (fun acc r => insert_by_start r acc) l acc) ->
                          In x acc \/ In x l).
  { induction l as [|r l IH]; simpl; intros acc H; [left; exact H|].
    destruct (IH _ H) as [H'|H']; [|right; right; exact H'].
    destruct (insert_by_start_In _ _ _ H') as [->|H'']; [right; left; reflexivity | left; exact H'']. }
  intros H. destruct (G [] H) as [[]|H']. exact H'.
Qed.

Lemma merge_from_ok (n : nat) (rs : list Range) :
  forall previous lo, lo <= start previous -> range_ok n previous -> Forall (range_ok n) rs ->
  scopes_ok lo n (merge_from previous rs).
Proof.
  induction rs as [|r rs IH]; intros previous lo Hlo [Hse Hen] Hrs; simpl.
  - repeat split; lia.
  - inversion Hrs as [|r' rs' [Hr1 Hr2] Hrs' [Er Ers]]; subst r' rs'.
    destruct (Nat.leb_spec (start r) (end_ previous)) as [Hle|Hgt].
    + apply IH; [simpl; exact Hlo | unfold range_ok; simpl; lia | exact Hrs'].
    + simpl. split; [exact Hlo|]. split; [exact Hse|]. split; [exact Hen|].
      apply IH; [lia | split; assumption | exact Hrs'].
Qed.

Lemma getInstructionScopeRanges_ok (func : FunctionBody) :
  scopes_ok 0 (List.length func) (getInstructionScopeRanges func (analyze func)).
Proof.
  assert (B : ds_bounded (List.length func) (build_mutating_sets func (analyze func)))
    by (apply build_mutating_sets_bounded, analyze_instructions_below).
  assert (Hr : forall r, In r (map range_of (buildSets (build_mutating_sets func (analyze func)))) ->
                         range_ok (List.length func) r).
  { intros r Hr. apply in_map_iff in Hr as [g [<- Hg]].
    destruct (buildSets_bounded _ _ B g Hg). apply range_of_ok; assumption. }
  unfold getInstructionScopeRanges.
  destruct (buildSets (build_mutating_sets func (analyze func))) as [|g gs]; [simpl; lia|].
  destruct (sort_ranges (map range_of (g :: gs))) as [|r0 rs] eqn:Hs; [simpl; lia|].
  assert (Hall : forall r, In r (r0 :: rs) -> range_ok (List.length func) r).
  { intros r Hin. apply Hr, sort_ranges_In. rewrite Hs. exact Hin. }
  apply merge_from_ok; [lia | apply Hall; left; reflexivity|].
  apply Forall_forall. intros r Hin. apply Hall. right. exact Hin.
Qed.

Lemma seq_concat (lo m k : nat) : lo <= m <= k -> seq lo (m - lo) ++ seq m (k - m) = seq lo (k - lo).
Proof.
  intros H. replace (k - lo) with ((m - lo) + (k - m)) by lia. rewrite seq_app.
  f_equal. f_equal. lia.
Qed.

Lemma pass_through_ids (func : FunctionBody) (lo hi : nat) :
  lo <= hi -> hi <= List.length func ->
  flat_map ri_ids (pass_through func lo hi) = seq lo (hi - lo).
Proof.
  intros H1 H2. unfold pass_through.
  assert (Hb : lo + (hi - lo) <= List.length func) by lia.
  remember (hi - lo) as m eqn:Em. clear Em H1 H2. revert lo Hb.
  induction m as [|m IH]; intros lo Hb; [reflexivity|].
  cbn [seq flat_map].
  destruct (nth_error func lo) as [instr|] eqn:E; [|apply nth_error_None in E; lia].
  simpl. rewrite IH by lia. reflexivity.
Qed.

Lemma make_block_fold_ids (func : FunctionBody) (info : ValueInfos) (l : list nat) :
  forall is ds ps, (forall i, In i l -> i < List.length func) ->
  map fst (fst (fst (fold_left (make_block_step func info) l (is, ds, ps)))) = map fst is ++ l.
Proof.
  induction l as [|i l IH]; intros is ds ps Hl; [simpl; rewrite app_nil_r; reflexivity|].
  destruct (nth_error func i) as [instr|] eqn:E;
    [|apply nth_error_None in E; specialize (Hl i (or_introl eq_refl)); lia].
  cbn [fold_left].
  assert (Hs : make_block_step func info (is, ds, ps) i =
               (is ++ [(i, instr)], set_add i ds,
                fold_left (fun a d => set_add d a)
                  (match nth_error info i with Some vi => dependencies vi | None => [] end) ps))
    by (unfold make_block_step; rewrite E; reflexivity).
  rewrite Hs, IH by (intros j Hj; apply Hl; right; exact Hj).
  rewrite map_app, <- app_assoc. reflexivity.
Qed.

Lemma make_block_ids (func : FunctionBody) (info : ValueInfos) (s e : nat) :
  s <= e -> e < List.length func -> ri_ids (make_block func info s e) = seq s (S e - s).
Proof.
  intros H1 H2. unfold make_block.
  pose proof (make_block_fold_ids func info (seq s (S e - s)) [] [] []
                ltac:(intros i Hi; apply in_seq in Hi; lia)) as H.
  destruct (fold_left (make_block_step func info) (seq s (S e - s)) ([], [], []))
    as [[is ds] ps]. exact H.
Qed.

Lemma emit_scopes_ids (func : FunctionBody) (info : ValueInfos) (scopes : list Range) :
  forall lo hir, scopes_ok lo (List.length func) scopes ->
  exists hir' k, emit_scopes func info lo scopes hir = Some (hir', k) /\
    lo <= k <= List.length func /\
    flat_map ri_ids hir' = flat_map ri_ids hir ++ seq lo (k - lo).
Proof.
  induction scopes as [|sc rest IH]; intros lo hir Hok.
  - exists hir, lo. simpl in Hok. split; [reflexivity|]. split; [lia|].
    rewrite Nat.sub_diag, app_nil_r. reflexivity.
  - destruct Hok as [Hlo [Hse [Hen Hrest]]].
    assert (Hmid : exists x, ri_ids x = seq (start sc) (S (end_ sc) - start sc) /\
                     emit_scopes func info lo (sc :: rest) hir =
                     emit_scopes func info (S (end_ sc)) rest
                       (hir ++ pass_through func lo (start sc) ++ [x])).
    { cbn [emit_scopes]. destruct (Nat.eqb_spec (start sc) (end_ sc)) as [Heq|Hne].
      - destruct (nth_error func (start sc)) as [instr|] eqn:E;
          [|apply nth_error_None in E; lia].
        destruct instr; (eexists; split; [|rewrite <- app_assoc; reflexivity]).
        all: try (apply make_block_ids; lia).
        replace (S (end_ sc) - start sc) with 1 by lia. reflexivity.
      - exists (make_block func info (start sc) (end_ sc)).
        split; [apply make_block_ids; lia | rewrite <- app_assoc; reflexivity]. }
    destruct Hmid as [x [Hx ->]].
    destruct (IH (S (end_ sc)) (hir ++ pass_through func lo (start sc) ++ [x]) Hrest)
      as [hir' [k [He [Hk Hids]]]].
    exists hir', k. split; [exact He|]. split; [lia|].
    rewrite Hids, !flat_map_app, pass_through_ids by lia. simpl. rewrite app_nil_r, Hx.
    rewrite <- !app_assoc. f_equal.
    transitivity (seq lo (start sc - lo) ++ seq (start sc) (k - start sc)).
    { f_equal. apply seq_concat. lia. }
    apply seq_concat. lia.
Qed.

(** C10: for every function body and its analysis, [makeReactiveInstrs]
    succeeds and the ids of the partition, read in order (a standalone
    instruction gives its id, a ReactiveBlock the ids of its members), are
    exactly [0, 1, ..., size - 1]: every id once, none dropped, none
    duplicated, in strictly ascending order. *)
Theorem makeReactiveInstrs_partition (func : FunctionBody) :
  exists hir, makeReactiveInstrs func (analyze func) = Some hir /\
    flat_map ri_ids hir = seq 0 (List.length func) /\
    NoDup (flat_map ri_ids hir).
Proof.
  unfold makeReactiveInstrs.
  destruct (emit_scopes_ids func (analyze func) _ 0 [] (getInstructionScopeRanges_ok func))
    as [hir' [k [He [Hk Hids]]]].
  rewrite He. eexists. split; [reflexivity|].
  assert (E : flat_map ri_ids (hir' ++ pass_through func k (List.length func)) =
              seq 0 (List.length func)).
  { rewrite flat_map_app, Hids, pass_through_ids by lia. cbn [flat_map app].
    rewrite seq_concat by lia. f_equal. lia. }
  split; [exact E|]. rewrite E. apply seq_NoDup.
Qed.

(** ** Correctness of the disjoint set and of the span construction *)

Lemma jm_get_set (m : list (nat * nat)) (k v k' : nat) :
  jm_get (jm_set m k v) k' = if Nat.eqb k' k then Some v else jm_get m k'.
Proof.
  induction m as [|[a b] m IH]; simpl.
  - destruct (Nat.eqb k' k); reflexivity.
  - destruct (Nat.eqb_spec k a) as [->|Hka]; simpl.
    + destruct (Nat.eqb k' a); reflexivity.
    + destruct (Nat.eqb_spec k' a) as [->|Hk'a].
      * destruct (Nat.eqb_spec a k); [congruence|reflexivity].
      * exact IH.
Qed.

Lemma jm_get_None (m : list (nat * nat)) (k : nat) : jm_get m k = None <-> ~ In k (map fst m).
Proof.
  induction m as [|[a b] m IH]; simpl; [tauto|].
  destruct (Nat.eqb_spec k a) as [->|Hka].
  - split; [discriminate | intros H; exfalso; apply H; left; reflexivity].
  - rewrite IH. split; [intros H [E|H']; [congruence | exact (H H')] | tauto].
Qed.

Lemma jm_set_keys_old (m : list (nat * nat)) (k v : nat) :
  In k (map fst m) -> map fst (jm_set m k v) = map fst m.
Proof.
  induction m as [|[a b] m IH]; simpl; [tauto|].
  destruct (Nat.eqb_spec k a) as [->|Hka]; simpl; [reflexivity|].
  intros [E|H]; [congruence|]. rewrite (IH H). reflexivity.
Qed.

Lemma jm_set_keys_new (m : list (nat * nat)) (k v : nat) :
  ~ In k (map fst m) -> map fst (jm_set m k v) = map fst m ++ [k].
Proof.
  induction m as [|[a b] m IH]; simpl; [reflexivity|].
  intros H. destruct (Nat.eqb_spec k a) as [->|Hka]; [exfalso; apply H; left; reflexivity|].
  simpl. rewrite IH; [reflexivity | tauto].
Qed.

Lemma is_key_In (ds : DisjointSet) (k : nat) : is_key ds k <-> In k (map fst (parent ds)).
Proof.
  unfold is_key. rewrite jm_get_None. destruct (in_dec Nat.eq_dec k (map fst (parent ds))); tauto.
Qed.

Lemma is_root_fixed (ds : DisjointSet) (x r : nat) : is_root ds x r -> jm_get (parent ds) r = Some r.
Proof. induction 1; assumption. Qed.

Lemma is_root_key (ds : DisjointSet) (x r : nat) : is_root ds x r -> is_key ds x.
Proof. destruct 1 as [x H|x p r H _ _]; unfold is_key; rewrite H; discriminate. Qed.

Lemma is_root_det (ds : DisjointSet) (x r1 r2 : nat) : is_root ds x r1 -> is_root ds x r2 -> r1 = r2.
Proof.
  intros H1. revert r2. induction H1 as [x H|x p r H Hp _ IH]; intros r2 H2.
  - destruct H2 as [|x p r2 H' Hp _]; [reflexivity|congruence].
  - destruct H2 as [x H'|x p' r2 H' _ H2]; [congruence|].
    rewrite H in H'. injection H' as <-. exact (IH _ H2).
Qed.

Lemma is_root_rank (ds : DisjointSet) (x r : nat) :
  ds_inv ds -> is_root ds x r -> x <> r -> rank_of ds x < rank_of ds r.
Proof.
  intros [_ [_ I3]]. induction 1 as [x H|x p r H Hp Hr IH]; [congruence|].
  intros _. specialize (I3 _ _ H Hp).
  destruct (Nat.eq_dec p r) as [<-|Hpr]; [exact I3|]. specialize (IH Hpr). lia.
Qed.

Lemma filter_length_lt {A} (f g : A -> bool) (l : list A) (w : A) :
  (forall x, f x = true -> g x = true) -> In w l -> g w = true -> f w = false ->
  List.length (filter f l) < List.length (filter g l).
Proof.
  intros Hfg. induction l as [|x l IH]; simpl; [tauto|].
  assert (Hle : forall l', List.length (filter f l') <= List.length (filter g l')).
  { induction l' as [|y l' IH']; simpl; [lia|].
    destruct (f y) eqn:Ef; [rewrite (Hfg _ Ef); simpl; lia|]. destruct (g y); simpl; lia. }
  intros [<-|Hw] Hg Hf.
  - rewrite Hf, Hg. simpl. specialize (Hle l). lia.
  - specialize (IH Hw Hg Hf). destruct (f x) eqn:Ef; [rewrite (Hfg _ Ef); simpl; lia|].
    destruct (g x); simpl; lia.
Qed.

Lemma above_step (ds : DisjointSet) (x p : nat) :
  ds_inv ds -> jm_get (parent ds) x = Some p -> p <> x -> above ds p < above ds x.
Proof.
  intros [I1 [I2 I3]] Hx Hp. unfold above.
  apply filter_length_lt with (w := p).
  - intros k Hk. apply Nat.ltb_lt in Hk. apply Nat.ltb_lt. specialize (I3 _ _ Hx Hp). lia.
  - apply is_key_In. exact (I2 _ _ Hx).
  - apply Nat.ltb_lt. exact (I3 _ _ Hx Hp).
  - apply Nat.ltb_ge. lia.
Qed.

Lemma above_le (ds : DisjointSet) (x : nat) : above ds x <= List.length (parent ds).
Proof. unfold above. rewrite <- (length_map fst (parent ds)). apply filter_length_le. Qed.

Lemma root_exists (ds : DisjointSet) (x : nat) : ds_inv ds -> is_key ds x -> exists r, is_root ds x r.
Proof.
  intros Inv. remember (above ds x) as n eqn:En. revert x En.
  induction n as [n IH] using lt_wf_ind. intros x En Hx.
  destruct (jm_get (parent ds) x) as [p|] eqn:Hp; [|contradiction].
  destruct (Nat.eq_dec p x) as [->|Hne]; [exists x; constructor; exact Hp|].
  destruct (IH (above ds p)) with (x := p) as [r Hr].
  - rewrite En. exact (above_step _ _ _ Inv Hp Hne).
  - reflexivity.
  - destruct Inv as [_ [I2 _]]. exact (I2 _ _ Hp).
  - exists r. exact (root_step _ _ _ _ Hp Hne Hr).
Qed.

Lemma rank_of_same (ds ds' : DisjointSet) : rank ds' = rank ds -> forall x, rank_of ds' x = rank_of ds x.
Proof. intros E x. unfold rank_of. rewrite E. reflexivity. Qed.

Lemma find_chain_spec (ds : DisjointSet) (Inv : ds_inv ds) (x r : nat) (Hr : is_root ds x r) :
  forall fuel, above ds x <= fuel ->
  exists ds', find_chain fuel x ds = (ds', r) /\ compressed ds ds'.
Proof.
  induction Hr as [x Hx|x p r Hx Hp Hr IH]; intros fuel Hf.
  - exists ds. assert (E : ensure x ds = ds) by (unfold ensure; rewrite Hx; reflexivity).
    split.
    + destruct fuel; cbn [find_chain]; rewrite E, Hx, Nat.eqb_refl; reflexivity.
    + split; [reflexivity|]. split; [reflexivity|]. intros k v H. left. exact H.
  - pose proof (above_step _ _ _ Inv Hx Hp) as Hlt.
    destruct fuel as [|f]; [lia|].
    destruct (IH f ltac:(lia)) as [ds2 [E2 [Rk [Ks Hc]]]].
    assert (E : ensure x ds = ds) by (unfold ensure; rewrite Hx; reflexivity).
    exists (mkDS (jm_set (parent ds2) x r) (rank ds2)). split.
    + cbn [find_chain]. rewrite E, Hx. destruct (Nat.eqb_spec p x) as [|_]; [contradiction|].
      rewrite E2. reflexivity.
    + split; [exact Rk|]. split.
      * cbn [parent]. rewrite jm_set_keys_old; [exact Ks|].
        rewrite Ks. apply is_key_In. unfold is_key. rewrite Hx. discriminate.
      * intros k v. cbn [parent]. rewrite jm_get_set. destruct (Nat.eqb_spec k x) as [->|Hkx].
        -- intros H. injection H as <-. right. exact (root_step _ _ _ _ Hx Hp Hr).
        -- apply Hc.
Qed.

Lemma compressed_fixed (ds ds' : DisjointSet) (r : nat) :
  compressed ds ds' -> jm_get (parent ds) r = Some r -> jm_get (parent ds') r = Some r.
Proof.
  intros [_ [Ks Hc]] Hr.
  destruct (jm_get (parent ds') r) as [w|] eqn:Hw.
  - destruct (Hc _ _ Hw) as [H|H]; [congruence|].
    rewrite (is_root_det _ _ _ _ H (root_here _ _ Hr)). reflexivity.
  - exfalso. apply jm_get_None in Hw. apply Hw. rewrite Ks. apply is_key_In.
    unfold is_key. rewrite Hr. discriminate.
Qed.

Lemma compressed_inv (ds ds' : DisjointSet) : ds_inv ds -> compressed ds ds' -> ds_inv ds'.
Proof.
  intros Inv C. pose proof Inv as [I1 [I2 I3]]. pose proof C as [Rk [Ks Hc]].
  split; [rewrite Ks; exact I1|]. split.
  - intros k v H. apply is_key_In. rewrite Ks. apply is_key_In.
    destruct (Hc _ _ H) as [H'|H'].
    + exact (I2 _ _ H').
    + unfold is_key. rewrite (is_root_fixed _ _ _ H'). discriminate.
  - intros k v H Hne. rewrite !(rank_of_same _ _ Rk).
    destruct (Hc _ _ H) as [H'|H'].
    + exact (I3 _ _ H' Hne).
    + apply (is_root_rank _ _ _ Inv H'). congruence.
Qed.

Lemma compressed_root (ds ds' : DisjointSet) (x r : nat) :
  compressed ds ds' -> is_root ds x r -> is_root ds' x r.
Proof.
  intros C Hr. pose proof C as [Rk [Ks Hc]].
  pose proof (compressed_fixed _ _ _ C (is_root_fixed _ _ _ Hr)) as Fr.
  induction Hr as [x Hx|x p r Hx Hp Hr IH].
  - constructor. exact Fr.
  - destruct (jm_get (parent ds') x) as [v|] eqn:Hv.
    + destruct (Hc _ _ Hv) as [H|H].
      * rewrite Hx in H. injection H as <-. exact (root_step _ _ _ _ Hv Hp (IH Fr)).
      * pose proof (is_root_det _ _ _ _ H (root_step _ _ _ _ Hx Hp Hr)) as ->.
        destruct (Nat.eq_dec r x) as [->|Hrx]; [constructor; exact Hv|].
        exact (root_step _ _ _ _ Hv Hrx (root_here _ _ Fr)).
    + exfalso. apply jm_get_None in Hv. apply Hv. rewrite Ks. apply is_key_In.
      unfold is_key. rewrite Hx. discriminate.
Qed.

Lemma is_root_ext (ds ds' : DisjointSet) :
  (forall k v, jm_get (parent ds) k = Some v -> jm_get (parent ds') k = Some v) ->
  forall x r, is_root ds x r -> is_root ds' x r.
Proof.
  intros E x r. induction 1 as [x H|x p r H Hp _ IH].
  - constructor. exact (E _ _ H).
  - exact (root_step _ _ _ _ (E _ _ H) Hp IH).
Qed.

Lemma find_spec (ds : DisjointSet) (x : nat) (ds' : DisjointSet) (r : nat) :
  ds_inv ds -> find x ds = (ds', r) ->
  ds_inv ds' /\ is_root ds' x r /\
  (forall k r', is_root ds k r' -> is_root ds' k r') /\
  (forall k, is_key ds' k <-> is_key ds k \/ k = x) /\
  (is_key ds x -> map fst (parent ds') = map fst (parent ds)) /\
  (~ is_key ds x -> r = x).
Proof.
  intros Inv Hf. unfold find in Hf.
  destruct (jm_get (parent ds) x) as [p|] eqn:Hx.
  - assert (Kx : is_key ds x) by (unfold is_key; rewrite Hx; discriminate).
    destruct (root_exists _ _ Inv Kx) as [r0 Hr0].
    destruct (find_chain_spec _ Inv _ _ Hr0 (S (List.length (parent ds))))
      as [ds2 [E2 C]]; [pose proof (above_le ds x); lia|].
    rewrite E2 in Hf. injection Hf as <- <-.
    pose proof C as [Rk [Ks _]].
    split; [exact (compressed_inv _ _ Inv C)|].
    split; [exact (compressed_root _ _ _ _ C Hr0)|].
    split; [intros k r' H; exact (compressed_root _ _ _ _ C H)|].
    split.
    { intros k. rewrite !is_key_In, Ks. split; [tauto|].
      intros [H|E]; [exact H|]. subst k. apply is_key_In. exact Kx. }
    split; [intros _; exact Ks | intros H; contradiction].
  - assert (Kx : ~ is_key ds x) by (unfold is_key; rewrite Hx; tauto).
    set (ds1 := mkDS (jm_set (parent ds) x x) (jm_set (rank ds) x 0)).
    assert (E : ensure x ds = ds1) by (unfold ensure; rewrite Hx; reflexivity).
    assert (G : forall k, jm_get (parent ds1) k = if Nat.eqb k x then Some x else jm_get (parent ds) k)
      by (intros k; apply jm_get_set).
    assert (Gx : jm_get (parent ds1) x = Some x) by (rewrite G, Nat.eqb_refl; reflexivity).
    assert (Hf' : (ds1, x) = (ds', r)).
    { rewrite <- Hf. destruct (S (List.length (parent ds))); cbn [find_chain];
        rewrite E, Gx, Nat.eqb_refl; reflexivity. }
    injection Hf' as <- <-.
    assert (Old : forall k v, jm_get (parent ds) k = Some v -> jm_get (parent ds1) k = Some v).
    { intros k v H. rewrite G. destruct (Nat.eqb_spec k x) as [->|_]; [congruence|exact H]. }
    assert (Kn : ~ In x (map fst (parent ds))) by (apply jm_get_None; exact Hx).
    pose proof Inv as [I1 [I2 I3]].
    assert (Rk : forall k, k <> x -> rank_of ds1 k = rank_of ds k).
    { intros k Hk. unfold rank_of, ds1. cbn [rank]. rewrite jm_get_set.
      destruct (Nat.eqb_spec k x); [contradiction|reflexivity]. }
    split.
    + split; [|split].
      * unfold ds1. cbn [parent]. rewrite jm_set_keys_new by exact Kn.
        apply NoDup_app; [exact I1 | constructor; [tauto | constructor] |].
        intros y Hy [<-|[]]. exact (Kn Hy).
      * intros k v. rewrite G. destruct (Nat.eqb_spec k x) as [->|Hk].
        -- intros H. injection H as <-. rewrite Gx. discriminate.
        -- intros H. rewrite G. destruct (Nat.eqb v x); [discriminate|exact (I2 _ _ H)].
      * intros k v. rewrite G. destruct (Nat.eqb_spec k x) as [->|Hk].
        -- intros H. injection H as <-. tauto.
        -- intros H Hne. assert (Hv : v <> x) by (intros ->; exact (I2 _ _ H Hx)).
           rewrite (Rk _ Hk), (Rk _ Hv). exact (I3 _ _ H Hne).
    + split; [constructor; exact Gx|].
      split; [exact (is_root_ext _ _ Old)|].
      split; [|split; [intros H; contradiction | reflexivity]].
      intros k. unfold is_key at 1. rewrite G. destruct (Nat.eqb_spec k x) as [->|Hk].
      * split; [tauto | discriminate].
      * unfold is_key. split; [tauto | intros [H|H]; [exact H|contradiction]].
Qed.

Lemma conn_fresh (P : list (nat * nat)) (K : nat -> Prop) (x y : nat) :
  (forall a b, In (a, b) P -> K a /\ K b) -> conn P x y -> x = y \/ (K x /\ K y).
Proof.
  intros HP. induction 1 as [x|x y H|x y _ IH|x y z _ IH1 _ IH2].
  - left. reflexivity.
  - right. exact (HP _ _ H).
  - destruct IH as [->|[]]; [left; reflexivity | right; split; assumption].
  - destruct IH1 as [->|[]], IH2 as [->|[]]; auto.
Qed.

Lemma conn_mono (P Q : list (nat * nat)) (x y : nat) :
  (forall p, In p P -> In p Q) -> conn P x y -> conn Q x y.
Proof.
  intros H. induction 1.
  - apply conn_refl.
  - apply conn_edge. apply H. assumption.
  - apply conn_sym. assumption.
  - eapply conn_trans; eassumption.
Qed.

Lemma conn_snoc (P : list (nat * nat)) (a b x y : nat) :
  conn (P ++ [(a, b)]) x y <->
  conn P x y \/ (conn P x a /\ conn P b y) \/ (conn P x b /\ conn P a y).
Proof.
  split.
  - induction 1 as [x|x y H|x y _ IH|x y z _ IH1 _ IH2].
    + left. apply conn_refl.
    + apply in_app_or in H as [H|[H|[]]].
      * left. apply conn_edge. exact H.
      * injection H as <- <-. right. left. split; apply conn_refl.
    + destruct IH as [H|[[H1 H2]|[H1 H2]]].
      * left. apply conn_sym. exact H.
      * right. right. split; apply conn_sym; assumption.
      * right. left. split; apply conn_sym; assumption.
    + destruct IH1 as [H|[[H1 H2]|[H1 H2]]], IH2 as [H'|[[H1' H2']|[H1' H2']]];
        eauto 6 using conn_trans, conn_sym.
  - assert (M : forall u v, conn P u v -> conn (P ++ [(a, b)]) u v)
      by (intros u v; apply conn_mono; intros p Hp; apply in_or_app; left; exact Hp).
    assert (E : conn (P ++ [(a, b)]) a b)
      by (apply conn_edge; apply in_or_app; right; left; reflexivity).
    intros [H|[[H1 H2]|[H1 H2]]].
    + exact (M _ _ H).
    + exact (conn_trans _ _ _ _ (M _ _ H1) (conn_trans _ _ _ _ E (M _ _ H2))).
    + exact (conn_trans _ _ _ _ (M _ _ H1) (conn_trans _ _ _ _ (conn_sym _ _ _ E) (M _ _ H2))).
Qed.

Lemma ds_sem_ext (ds : DisjointSet) (P : list (nat * nat)) (K K' : nat -> Prop) :
  (forall k, K k <-> K' k) -> ds_sem ds P K -> ds_sem ds P K'.
Proof.
  intros E [H1 [H2 H3]]. split; [|split].
  - intros k. rewrite H1. apply E.
  - intros a b H. rewrite <- !E. exact (H2 _ _ H).
  - intros x y Hx Hy. apply H3; apply E; assumption.
Qed.

Lemma same_set_refl (ds : DisjointSet) (x : nat) : ds_inv ds -> is_key ds x -> same_set ds x x.
Proof. intros Inv Hx. destruct (root_exists _ _ Inv Hx) as [r Hr]. exists r. auto. Qed.

(** On keys of [ds], a change that keeps every root keeps [same_set]. *)
Lemma same_set_kept (ds ds' : DisjointSet) (x y : nat) :
  ds_inv ds -> (forall k r, is_root ds k r -> is_root ds' k r) -> is_key ds x -> is_key ds y ->
  (same_set ds' x y <-> same_set ds x y).
Proof.
  intros Inv Hk Hx Hy.
  destruct (root_exists _ _ Inv Hx) as [rx Hrx]. destruct (root_exists _ _ Inv Hy) as [ry Hry].
  split.
  - intros [r [H1 H2]]. rewrite <- (is_root_det _ _ _ _ (Hk _ _ Hrx) H1) in H2.
    rewrite (is_root_det _ _ _ _ H2 (Hk _ _ Hry)) in Hrx. exists ry. auto.
  - intros [r [H1 H2]]. exists r. auto.
Qed.

(** [same_set] read through the roots *)
Lemma same_set_roots (ds : DisjointSet) (x y rx ry : nat) :
  is_root ds x rx -> is_root ds y ry -> (same_set ds x y <-> rx = ry).
Proof.
  intros Hx Hy. split.
  - intros [r [H1 H2]]. rewrite (is_root_det _ _ _ _ Hx H1), (is_root_det _ _ _ _ Hy H2). reflexivity.
  - intros <-. exists rx. auto.
Qed.

Lemma find_sem (ds : DisjointSet) (P : list (nat * nat)) (K : nat -> Prop) (x : nat)
    (ds' : DisjointSet) (r : nat) :
  ds_inv ds -> ds_sem ds P K -> find x ds = (ds', r) ->
  ds_inv ds' /\ is_root ds' x r /\ (forall k r', is_root ds k r' -> is_root ds' k r') /\
  ds_sem ds' P (fun k => K k \/ k = x).
Proof.
  intros Inv [S1 [S2 S3]] Hf.
  destruct (find_spec _ _ _ _ Inv Hf) as [Inv' [Hr [Hk [Keys [_ Hnew]]]]].
  split; [exact Inv'|]. split; [exact Hr|]. split; [exact Hk|].
  assert (Old : forall u v, K u -> K v -> (same_set ds' u v <-> conn P u v)).
  { intros u v Hu Hv. rewrite (same_set_kept _ _ _ _ Inv Hk); [apply S3; assumption | |];
      apply S1; assumption. }
  split; [|split].
  - intros k. rewrite Keys, S1. reflexivity.
  - intros a b H. destruct (S2 _ _ H). tauto.
  - assert (D : is_key ds x \/ ~ is_key ds x)
      by (unfold is_key; destruct (jm_get (parent ds) x); [left; discriminate | right; tauto]).
    destruct D as [Kx|Kx].
    + apply S1 in Kx. intros u v [Hu| ->] [Hv| ->]; apply Old; assumption.
    + assert (Hx : ~ K x) by (rewrite <- S1; exact Kx).
      specialize (Hnew Kx). subst r.
      assert (Apart : forall v, K v -> ~ same_set ds' x v /\ ~ conn P x v).
      { intros v Hv. split.
        - apply S1 in Hv. destruct (root_exists _ _ Inv Hv) as [rv Hrv].
          rewrite (same_set_roots _ _ _ _ _ Hr (Hk _ _ Hrv)). intros <-.
          apply Kx. unfold is_key. rewrite (is_root_fixed _ _ _ Hrv). discriminate.
        - intros H. destruct (conn_fresh _ _ _ _ S2 H) as [<-|[]]; contradiction. }
      intros u v [Hu| ->] [Hv| ->].
      * apply Old; assumption.
      * destruct (Apart _ Hu) as [A1 A2]. split; intros H; exfalso.
        -- apply A1. destruct H as [r' [H1 H2]]. exists r'. auto.
        -- apply A2. apply conn_sym. exact H.
      * destruct (Apart _ Hv) as [A1 A2]. split; intros H; exfalso; [exact (A1 H) | exact (A2 H)].
      * split; intros _; [apply conn_refl | exists x; auto].
Qed.

Lemma link_spec (ds : DisjointSet) (lo w : nat) (rk' : list (nat * nat)) :
  ds_inv ds -> jm_get (parent ds) lo = Some lo -> jm_get (parent ds) w = Some w -> lo <> w ->
  (forall k, k <> w -> rank_of (mkDS (jm_set (parent ds) lo w) rk') k = rank_of ds k) ->
  rank_of ds w <= rank_of (mkDS (jm_set (parent ds) lo w) rk') w ->
  rank_of ds lo < rank_of (mkDS (jm_set (parent ds) lo w) rk') w ->
  ds_inv (mkDS (jm_set (parent ds) lo w) rk') /\
  map fst (parent (mkDS (jm_set (parent ds) lo w) rk')) = map fst (parent ds) /\
  (forall x r, is_root ds x r ->
     is_root (mkDS (jm_set (parent ds) lo w) rk') x (if Nat.eqb r lo then w else r)).
Proof.
  intros [I1 [I2 I3]] Hlo Hw Hne R1 R2 R3.
  set (ds' := mkDS (jm_set (parent ds) lo w) rk') in *.
  assert (G : forall k, jm_get (parent ds') k = if Nat.eqb k lo then Some w else jm_get (parent ds) k)
    by (intros k; apply jm_get_set).
  assert (Ks : map fst (parent ds') = map fst (parent ds)).
  { apply jm_set_keys_old. apply is_key_In. unfold is_key. rewrite Hlo. discriminate. }
  assert (Gw : jm_get (parent ds') w = Some w)
    by (rewrite G; destruct (Nat.eqb_spec w lo); [congruence | exact Hw]).
  split; [|split; [exact Ks|]].
  - split; [rewrite Ks; exact I1|split].
    + intros k v. rewrite G. destruct (Nat.eqb_spec k lo) as [->|Hk].
      * intros H. injection H as <-. rewrite Gw. discriminate.
      * intros H. rewrite G. destruct (Nat.eqb v lo); [discriminate | exact (I2 _ _ H)].
    + intros k v. rewrite G. destruct (Nat.eqb_spec k lo) as [->|Hk].
      * intros H _. injection H as <-. rewrite (R1 _ Hne). exact R3.
      * intros H Hkv. assert (Hkw : k <> w) by (intros ->; congruence).
        rewrite (R1 _ Hkw). specialize (I3 _ _ H Hkv).
        destruct (Nat.eq_dec v w) as [->|Hvw]; [lia|]. rewrite (R1 _ Hvw). exact I3.
  - induction 1 as [x Hx|x p r Hx Hp _ IH].
    + destruct (Nat.eqb_spec x lo) as [->|Hxl].
      * refine (root_step _ _ w _ _ (not_eq_sym Hne) (root_here _ _ Gw)).
        rewrite G, Nat.eqb_refl. reflexivity.
      * constructor. rewrite G. destruct (Nat.eqb_spec x lo); [contradiction | exact Hx].
    + assert (Hxl : x <> lo) by (intros ->; congruence).
      refine (root_step _ _ p _ _ Hp IH). rewrite G. destruct (Nat.eqb_spec x lo); [contradiction | exact Hx].
Qed.

Lemma link_sem (ds : DisjointSet) (P : list (nat * nat)) (K : nat -> Prop) (a b lo w : nat)
    (rk' : list (nat * nat)) :
  ds_inv ds -> ds_sem ds P K -> K a -> K b ->
  (is_root ds a lo /\ is_root ds b w) \/ (is_root ds a w /\ is_root ds b lo) -> lo <> w ->
  (forall k, k <> w -> rank_of (mkDS (jm_set (parent ds) lo w) rk') k = rank_of ds k) ->
  rank_of ds w <= rank_of (mkDS (jm_set (parent ds) lo w) rk') w ->
  rank_of ds lo < rank_of (mkDS (jm_set (parent ds) lo w) rk') w ->
  ds_inv (mkDS (jm_set (parent ds) lo w) rk') /\
  ds_sem (mkDS (jm_set (parent ds) lo w) rk') (P ++ [(a, b)]) K.
Proof.
  intros Inv [S1 [S2 S3]] Ka Kb Hab Hne R1 R2 R3.
  assert (Hlo : jm_get (parent ds) lo = Some lo)
    by (destruct Hab as [[H _]|[_ H]]; exact (is_root_fixed _ _ _ H)).
  assert (Hw : jm_get (parent ds) w = Some w)
    by (destruct Hab as [[_ H]|[H _]]; exact (is_root_fixed _ _ _ H)).
  destruct (link_spec _ _ _ rk' Inv Hlo Hw Hne R1 R2 R3) as [Inv' [Ks Hroot]].
  set (ds' := mkDS (jm_set (parent ds) lo w) rk') in *.
  split; [exact Inv'|]. split; [|split].
  - intros k. rewrite is_key_In, Ks, <- is_key_In. apply S1.
  - intros u v H. apply in_app_or in H as [H|[H|[]]]; [exact (S2 _ _ H)|].
    injection H as <- <-. auto.
  - intros x y Kx Ky.
    assert (Root : forall u, K u -> exists ru, is_root ds u ru)
      by (intros u Ku; apply root_exists; [exact Inv | apply S1; exact Ku]).
    assert (C : forall u v ru rv, K u -> K v -> is_root ds u ru -> is_root ds v rv ->
                                  (conn P u v <-> ru = rv)).
    { intros u v ru rv Ku Kv Hu Hv. rewrite <- (S3 _ _ Ku Kv). apply same_set_roots; assumption. }
    destruct (Root _ Kx) as [rx Hx], (Root _ Ky) as [ry Hy].
    destruct (Root _ Ka) as [ra Ha], (Root _ Kb) as [rb Hb].
    rewrite conn_snoc.
    rewrite (C _ _ _ _ Kx Ky Hx Hy), (C _ _ _ _ Kx Ka Hx Ha), (C _ _ _ _ Kb Ky Hb Hy),
            (C _ _ _ _ Kx Kb Hx Hb), (C _ _ _ _ Ka Ky Ha Hy).
    rewrite (same_set_roots _ _ _ _ _ (Hroot _ _ Hx) (Hroot _ _ Hy)).
    assert (Hr : (ra = lo /\ rb = w) \/ (ra = w /\ rb = lo)).
    { destruct Hab as [[H1 H2]|[H1 H2]]; [left|right];
        split; eapply is_root_det; eassumption. }
    destruct (Nat.eqb_spec rx lo), (Nat.eqb_spec ry lo); lia.
Qed.

Lemma unionTwo_sem (ds : DisjointSet) (P : list (nat * nat)) (K : nat -> Prop) (a b : nat) :
  ds_inv ds -> ds_sem ds P K ->
  ds_inv (unionTwo a b ds) /\ ds_sem (unionTwo a b ds) (P ++ [(a, b)]) (fun k => (K k \/ k = a) \/ k = b).
Proof.
  intros Inv Sem. unfold unionTwo.
  destruct (find a ds) as [ds1 ra] eqn:E1.
  destruct (find_sem _ _ _ _ _ _ Inv Sem E1) as [Inv1 [Ha1 [Hk1 Sem1]]].
  destruct (find b ds1) as [ds2 rb] eqn:E2.
  destruct (find_sem _ _ _ _ _ _ Inv1 Sem1 E2) as [Inv2 [Hb2 [Hk2 Sem2]]].
  pose proof (Hk2 _ _ Ha1) as Ha2.
  set (K2 := fun k => (K k \/ k = a) \/ k = b) in *.
  assert (Ka : K2 a) by (unfold K2; tauto). assert (Kb : K2 b) by (unfold K2; tauto).
  destruct (Nat.eqb_spec ra rb) as [<-|Hne].
  - split; [exact Inv2|]. destruct Sem2 as [S1 [S2 S3]].
    assert (Hab : conn P a b) by (apply S3; [exact Ka | exact Kb | exists ra; auto]).
    split; [exact S1|]. split.
    + intros u v H. apply in_app_or in H as [H|[H|[]]]; [exact (S2 _ _ H)|].
      injection H as <- <-. auto.
    + intros x y Kx Ky. rewrite (S3 _ _ Kx Ky), conn_snoc.
      split; [tauto|]. intros [H|[[H1 H2]|[H1 H2]]]; [exact H | |].
      * exact (conn_trans _ _ _ _ H1 (conn_trans _ _ _ _ Hab H2)).
      * exact (conn_trans _ _ _ _ H1 (conn_trans _ _ _ _ (conn_sym _ _ _ Hab) H2)).
  - cbv zeta.
    destruct (Nat.ltb_spec (rank_of ds2 ra) (rank_of ds2 rb)) as [Lt|Ge].
    + apply (link_sem _ _ _ _ _ _ _ _ Inv2 Sem2 Ka Kb (or_introl (conj Ha2 Hb2)) Hne);
        unfold rank_of; cbn [rank]; [reflexivity | lia | exact Lt].
    + destruct (Nat.ltb_spec (rank_of ds2 rb) (rank_of ds2 ra)) as [Lt'|Ge'].
      * apply (link_sem _ _ _ _ _ _ _ _ Inv2 Sem2 Ka Kb (or_intror (conj Ha2 Hb2)) (not_eq_sym Hne));
          unfold rank_of; cbn [rank]; [reflexivity | lia | exact Lt'].
      * apply (link_sem _ _ _ _ _ _ _ _ Inv2 Sem2 Ka Kb (or_intror (conj Ha2 Hb2)) (not_eq_sym Hne));
          unfold rank_of; cbn [rank]; rewrite ?jm_get_set, ?Nat.eqb_refl.
        -- intros k Hk. rewrite jm_get_set. destruct (Nat.eqb_spec k ra); [contradiction|reflexivity].
        -- fold (rank_of ds2 ra). lia.
        -- fold (rank_of ds2 rb) (rank_of ds2 ra). lia.
Qed.

Lemma pair_elems_app (P Q : list (nat * nat)) : pair_elems (P ++ Q) = pair_elems P ++ pair_elems Q.
Proof. unfold pair_elems. apply flat_map_app. Qed.

Lemma unionTwo_Sem (ds : DisjointSet) (P : list (nat * nat)) (a b : nat) :
  ds_inv ds -> ds_sem ds P (fun k => In k (pair_elems P)) ->
  ds_inv (unionTwo a b ds) /\
  ds_sem (unionTwo a b ds) (P ++ [(a, b)]) (fun k => In k (pair_elems (P ++ [(a, b)]))).
Proof.
  intros Inv Sem. destruct (unionTwo_sem _ _ _ a b Inv Sem) as [Inv' Sem'].
  split; [exact Inv'|]. revert Sem'. apply ds_sem_ext. intros k.
  rewrite pair_elems_app, in_app_iff. simpl. intuition.
Qed.

Lemma union_fold_Sem (f : nat) (l : list nat) :
  forall ds P, ds_inv ds -> ds_sem ds P (fun k => In k (pair_elems P)) ->
  ds_inv (fold_left (fun d it => unionTwo f it d) l ds) /\
  ds_sem (fold_left (fun d it => unionTwo f it d) l ds) (P ++ map (fun it => (f, it)) l)
    (fun k => In k (pair_elems (P ++ map (fun it => (f, it)) l))).
Proof.
  induction l as [|x l IH]; intros ds P Inv Sem; simpl.
  - rewrite app_nil_r. auto.
  - destruct (unionTwo_Sem _ _ f x Inv Sem) as [Inv' Sem'].
    replace (P ++ (f, x) :: map (fun it => (f, it)) l)
      with ((P ++ [(f, x)]) ++ map (fun it => (f, it)) l) by (rewrite <- app_assoc; reflexivity).
    exact (IH _ _ Inv' Sem').
Qed.

Lemma union_Sem (items : list nat) (ds : DisjointSet) (P : list (nat * nat)) :
  ds_inv ds -> ds_sem ds P (fun k => In k (pair_elems P)) ->
  ds_inv (union items ds) /\
  ds_sem (union items ds) (P ++ union_pairs items) (fun k => In k (pair_elems (P ++ union_pairs items))).
Proof.
  intros Inv Sem. destruct items as [|f [|x rest]]; simpl; rewrite ?app_nil_r; [auto | auto |].
  exact (union_fold_Sem f (x :: rest) ds P Inv Sem).
Qed.

Lemma build_mutating_sets_Sem (func : FunctionBody) (valuesInfo : ValueInfos) :
  ds_inv (build_mutating_sets func valuesInfo) /\
  ds_sem (build_mutating_sets func valuesInfo) (mutating_pairs func valuesInfo)
    (fun k => In k (pair_elems (mutating_pairs func valuesInfo))).
Proof.
  unfold build_mutating_sets, mutating_pairs.
  assert (Gen : forall l ds P, ds_inv ds -> ds_sem ds P (fun k => In k (pair_elems P)) ->
    let G := fun id => match nth_error valuesInfo id with
                       | Some info => if shouldMemoize info then union_pairs (union_items info id) else []
                       | None => []
                       end in
    let F := fun ds id => match nth_error valuesInfo id with
                          | Some info => if shouldMemoize info then union (union_items info id) ds else ds
                          | None => ds
                          end in
    ds_inv (fold_left F l ds) /\
    ds_sem (fold_left F l ds) (P ++ flat_map G l) (fun k => In k (pair_elems (P ++ flat_map G l)))).
  { induction l as [|id l IH]; intros ds P Inv Sem G F; simpl.
    - rewrite app_nil_r. auto.
    - rewrite app_assoc.
      assert (Step : ds_inv (F ds id) /\
                     ds_sem (F ds id) (P ++ G id) (fun k => In k (pair_elems (P ++ G id)))).
      { unfold F, G. destruct (nth_error valuesInfo id) as [info|];
          [destruct (shouldMemoize info); [apply union_Sem; assumption|] |];
          rewrite app_nil_r; auto. }
      destruct Step as [Inv' Sem']. exact (IH _ _ Inv' Sem'). }
  apply (Gen _ emptyDS []).
  - split; [constructor|]. split; intros k v H; discriminate H.
  - split; [|split].
    + intros k. unfold is_key. simpl. tauto.
    + intros a b [].
    + intros x y [].
Qed.

Lemma union_pairs_In (items : list nat) (x y : nat) :
  In (x, y) (union_pairs items) -> In x items /\ In y items.
Proof.
  destruct items as [|f rest]; simpl; [tauto|].
  intros H. apply in_map_iff in H as [it [E Hit]]. injection E as <- <-. auto.
Qed.

Lemma union_pairs_conn (items : list nat) (f e : nat) :
  hd_error items = Some f -> In e items -> conn (union_pairs items) f e.
Proof.
  destruct items as [|f' rest]; simpl; [discriminate|].
  intros H. injection H as <-. intros [<-|He]; [apply conn_refl|].
  apply conn_edge. apply in_map_iff. exists e. auto.
Qed.

Lemma mutating_pairs_linked (func : FunctionBody) (valuesInfo : ValueInfos) (x y : nat) :
  (forall id info, nth_error valuesInfo id = Some info -> shouldMemoize info = shouldMemo info) ->
  (conn (mutating_pairs func valuesInfo) x y <-> linked func valuesInfo x y).
Proof.
  intros HM. split.
  - induction 1 as [x|x y H|x y _ IH|x y z _ IH1 _ IH2].
    + apply linked_refl.
    + unfold mutating_pairs in H. apply in_flat_map in H as [id [Hid H]].
      apply in_seq in Hid.
      destruct (nth_error valuesInfo id) as [info|] eqn:Hi; [|destruct H].
      rewrite (HM _ _ Hi) in H. destruct (shouldMemo info) eqn:Hs; [|destruct H].
      apply union_pairs_In in H as [Hx Hy].
      assert (L : forall e, In e (union_items info id) -> linked func valuesInfo id e).
      { intros e He. unfold union_items in He. apply in_app_or in He as [He|[<-|[]]].
        - apply (linked_mutator _ _ id info e); [lia | exact Hi | exact Hs | exact He].
        - apply linked_refl. }
      exact (linked_trans _ _ _ _ _ (linked_sym _ _ _ _ (L _ Hx)) (L _ Hy)).
    + apply linked_sym. exact IH.
    + exact (linked_trans _ _ _ _ _ IH1 IH2).
  - induction 1 as [id info m Hid Hi Hs Hm|x|x y _ IH|x y z _ IH1 _ IH2].
    + set (items := union_items info id).
      destruct (hd_error items) as [f|] eqn:Hf.
      2:{ exfalso. unfold items, union_items in Hf. destruct (instructions info); [destruct l|]; discriminate. }
      assert (Sub : forall p, In p (union_pairs items) -> In p (mutating_pairs func valuesInfo)).
      { intros p Hp. unfold mutating_pairs. apply in_flat_map. exists id. split; [apply in_seq; lia|].
        rewrite Hi, (HM _ _ Hi), Hs. exact Hp. }
      assert (Cf : forall e, In e items -> conn (mutating_pairs func valuesInfo) f e)
        by (intros e He; apply (conn_mono _ _ _ _ Sub); apply union_pairs_conn; assumption).
      refine (conn_trans _ _ f _ (conn_sym _ _ _ (Cf id _)) (Cf m _));
        unfold items, union_items; apply in_or_app; [right; left; reflexivity | left; exact Hm].
    + apply conn_refl.
    + apply conn_sym. exact IH.
    + exact (conn_trans _ _ _ _ IH1 IH2).
Qed.

Lemma group_push_keys (G : list (nat * list nat)) (r k r' : nat) :
  In r' (map fst (group_push G r k)) <-> In r' (map fst G) \/ r' = r.
Proof.
  induction G as [|[r0 g0] G IH]; simpl; [intuition congruence|].
  destruct (Nat.eqb_spec r0 r) as [->|Hne]; simpl; [intuition congruence|]. rewrite IH. intuition congruence.
Qed.

Lemma group_push_NoDup (G : list (nat * list nat)) (r k : nat) :
  NoDup (map fst G) -> NoDup (map fst (group_push G r k)).
Proof.
  induction G as [|[r0 g0] G IH]; simpl; intros H.
  - constructor; [tauto | constructor].
  - inversion H as [|x l Hx Hl]; subst.
    destruct (Nat.eqb_spec r0 r) as [->|Hne]; simpl; constructor; [exact Hx | exact Hl | |exact (IH Hl)].
    rewrite group_push_keys. intros [H'|H']; [exact (Hx H') | exact (Hne H')].
Qed.

Lemma group_push_cases (G : list (nat * list nat)) (r k r' : nat) (g' : list nat) :
  NoDup (map fst G) -> In (r', g') (group_push G r k) ->
  (r' <> r /\ In (r', g') G) \/
  (r' = r /\ ((exists g, In (r, g) G /\ g' = g ++ [k]) \/ (~ In r (map fst G) /\ g' = [k]))).
Proof.
  induction G as [|[r0 g0] G IH]; simpl; intros ND H.
  - destruct H as [E|[]]. injection E as <- <-. right. split; [reflexivity|]. right. tauto.
  - inversion ND as [|x l Hx Hl]; subst.
    destruct (Nat.eqb_spec r0 r) as [->|Hne].
    + destruct H as [E|H].
      * injection E as <- <-. right. split; [reflexivity|]. left. exists g0. auto.
      * left. split; [|right; exact H]. intros ->. apply Hx. apply in_map_iff. exists (r, g'). auto.
    + destruct H as [E|H].
      * injection E as <- <-. left. auto.
      * destruct (IH Hl H) as [[H1 H2]|[H1 [[g [H2 H3]]|[H2 H3]]]].
        -- left. auto.
        -- right. split; [exact H1|]. left. exists g. auto.
        -- right. split; [exact H1|]. right. split; [|exact H3]. intros [E|E]; [exact (Hne E) | exact (H2 E)].
Qed.

Lemma group_push_other (G : list (nat * list nat)) (r k r' : nat) (g : list nat) :
  In (r', g) G -> r' <> r -> In (r', g) (group_push G r k).
Proof.
  induction G as [|[r0 g0] G IH]; simpl; [tauto|]. intros H Hne.
  destruct (Nat.eqb_spec r0 r) as [->|Hne']; simpl.
  - destruct H as [E|H]; [injection E as -> _; contradiction | right; exact H].
  - destruct H as [E|H]; [left; exact E | right; exact (IH H Hne)].
Qed.

Lemma group_push_here (G : list (nat * list nat)) (r k : nat) : exists g', In (r, g') (group_push G r k).
Proof.
  induction G as [|[r0 g0] G IH]; simpl; [exists [k]; left; reflexivity|].
  destruct (Nat.eqb_spec r0 r) as [->|Hne]; simpl.
  - exists (g0 ++ [k]). left. reflexivity.
  - destruct IH as [g' H]. exists g'. right. exact H.
Qed.

Lemma groups_ok_push (ds : DisjointSet) (G : list (nat * list nat)) (L : list nat) (k r : nat) :
  groups_ok ds G L -> ~ In k L -> is_root ds k r ->
  groups_ok ds (group_push G r k) (L ++ [k]).
Proof.
  intros [G1 [G2 [G3 G4]]] Hk Hr.
  split; [apply group_push_NoDup; exact G1|].
  split; [|split].
  - intros r' g' H. destruct (group_push_cases _ _ _ _ _ G1 H) as [[_ H']|[-> [[g [Hg ->]]|[_ ->]]]].
    + exact (G2 _ _ H').
    + destruct (G2 _ _ Hg) as [ND _]. split; [|destruct g; discriminate].
      apply NoDup_app; [exact ND | constructor; [tauto | constructor] |].
      intros y Hy [<-|[]]. apply Hk. exact (proj1 (proj1 (G3 _ _ _ Hg) Hy)).
    + split; [constructor; [tauto | constructor] | discriminate].
  - intros r' g' y H. rewrite in_app_iff. simpl.
    destruct (group_push_cases _ _ _ _ _ G1 H) as [[Hne H']|[-> [[g [Hg ->]]|[Hn ->]]]].
    + rewrite (G3 _ _ _ H'). split; [tauto|].
      intros [[Hy|[<-|[]]] Hy']; [tauto|]. exfalso. exact (Hne (is_root_det _ _ _ _ Hy' Hr)).
    + rewrite in_app_iff, (G3 _ _ _ Hg). simpl. split.
      * intros [H1|[<-|[]]]; [tauto | split; [right; left; reflexivity | exact Hr]].
      * intros [[Hy|[<-|[]]] Hy']; [left; tauto | right; left; reflexivity].
    + simpl. split.
      * intros [<-|[]]. split; [right; left; reflexivity | exact Hr].
      * intros [[Hy|[<-|[]]] Hy']; [|left; reflexivity].
        exfalso. destruct (G4 _ _ Hy Hy') as [g Hg]. apply Hn. apply in_map_iff. exists (r, g). auto.
  - intros y r'' Hy Hy''. destruct (Nat.eq_dec r'' r) as [->|Hne]; [apply group_push_here|].
    apply in_app_or in Hy as [Hy|[<-|[]]].
    + destruct (G4 _ _ Hy Hy'') as [g Hg]. exists g. apply group_push_other; assumption.
    + exfalso. exact (Hne (is_root_det _ _ _ _ Hy'' Hr)).
Qed.

Lemma build_groups_ok (ds0 : DisjointSet) (keys : list nat) :
  ds_inv ds0 ->
  forall ds G L, ds_inv ds -> (forall k r, is_root ds0 k r -> is_root ds k r) ->
  (forall k, In k keys -> is_key ds0 k) -> NoDup (L ++ keys) -> groups_ok ds0 G L ->
  groups_ok ds0 (build_groups keys ds G) (L ++ keys).
Proof.
  intros Inv0. induction keys as [|k ks IH]; intros ds G L Inv Hk Hkeys ND GI; simpl.
  - rewrite app_nil_r. exact GI.
  - destruct (find k ds) as [ds' root] eqn:Ef.
    destruct (find_spec _ _ _ _ Inv Ef) as [Inv' [Hroot [Hk' _]]].
    destruct (root_exists _ _ Inv0 (Hkeys k (or_introl eq_refl))) as [r0 Hr0].
    pose proof (is_root_det _ _ _ _ (Hk' _ _ (Hk _ _ Hr0)) Hroot) as ->.
    replace (L ++ k :: ks) with ((L ++ [k]) ++ ks) by (rewrite <- app_assoc; reflexivity).
    apply IH.
    + exact Inv'.
    + intros k' r' H. exact (Hk' _ _ (Hk _ _ H)).
    + intros k' H. apply Hkeys. right. exact H.
    + rewrite <- app_assoc. exact ND.
    + apply groups_ok_push; [exact GI | | exact Hr0].
      intros H. apply (NoDup_remove_2 _ _ _ ND). apply in_or_app. left. exact H.
Qed.

Lemma two_members (g : list nat) (x y : nat) : In x g -> In y g -> x <> y -> 1 < List.length g.
Proof. destruct g as [|a [|b g]]; simpl; [tauto | intros [<-|[]] [<-|[]]; tauto | lia]. Qed.

Lemma buildSets_spec (ds : DisjointSet) : ds_inv ds ->
  (forall g, In g (buildSets ds) ->
     NoDup g /\ 1 < List.length g /\
     forall x, In x g -> forall y, In y g <-> is_key ds y /\ same_set ds x y) /\
  (forall x y, is_key ds x -> x <> y -> same_set ds x y ->
     exists g, In g (buildSets ds) /\ In x g /\ In y g).
Proof.
  intros Inv.
  assert (GI : groups_ok ds (build_groups (map fst (parent ds)) ds []) (map fst (parent ds))).
  { apply (build_groups_ok ds _ Inv ds [] []); [exact Inv | auto | | apply Inv |].
    - intros k Hk. apply is_key_In. exact Hk.
    - split; [constructor|]. split; [intros r g []|]. split; [intros r g y []|intros y r []]. }
  destruct GI as [_ [G2 [G3 G4]]]. split.
  - intros g Hg. unfold buildSets in Hg. apply filter_In in Hg as [Hg Hlen].
    apply Nat.ltb_lt in Hlen. apply in_map_iff in Hg as [[r g0] [E Hg]]. simpl in E. subst g0.
    destruct (G2 _ _ Hg) as [ND _]. split; [exact ND|]. split; [exact Hlen|].
    intros x Hx y. rewrite (G3 _ _ _ Hg), is_key_In. apply (G3 _ _ _ Hg) in Hx as [_ Hxr].
    split.
    + intros [Hy Hyr]. split; [exact Hy | exists r; auto].
    + intros [Hy [r' [H1 H2]]]. rewrite <- (is_root_det _ _ _ _ Hxr H1) in H2. auto.
  - intros x y Hx Hne [r [Hxr Hyr]].
    assert (Kx : In x (map fst (parent ds))) by (apply is_key_In; exact Hx).
    assert (Ky : In y (map fst (parent ds))) by (apply is_key_In; exact (is_root_key _ _ _ Hyr)).
    destruct (G4 _ _ Kx Hxr) as [g Hg].
    assert (Hxg : In x g) by (apply (G3 _ _ _ Hg); auto).
    assert (Hyg : In y g) by (apply (G3 _ _ _ Hg); auto).
    exists g. split; [|auto]. unfold buildSets. apply filter_In. split.
    + apply in_map_iff. exists (r, g). auto.
    + apply Nat.ltb_lt. exact (two_members _ _ _ Hxg Hyg Hne).
Qed.

Lemma fold_min_In (xs : list nat) : forall x, In (fold_left Nat.min xs x) (x :: xs).
Proof.
  induction xs as [|a xs IH]; simpl; intros x; [left; reflexivity|].
  destruct (IH (Nat.min x a)) as [E|H]; [|right; right; exact H].
  rewrite <- E. destruct (Nat.min_dec x a) as [->| ->]; [left|right; left]; reflexivity.
Qed.

Lemma fold_max_In (xs : list nat) : forall x, In (fold_left Nat.max xs x) (x :: xs).
Proof.
  induction xs as [|a xs IH]; simpl; intros x; [left; reflexivity|].
  destruct (IH (Nat.max x a)) as [E|H]; [|right; right; exact H].
  rewrite <- E. destruct (Nat.max_dec x a) as [->| ->]; [left|right; left]; reflexivity.
Qed.

Lemma fold_min_le_all (xs : list nat) : forall x y, In y (x :: xs) -> fold_left Nat.min xs x <= y.
Proof.
  induction xs as [|a xs IH]; simpl; intros x y Hy; [destruct Hy as [<-|[]]; lia|].
  destruct Hy as [<-|[<-|Hy]].
  - pose proof (fold_min_le xs (Nat.min x a)). lia.
  - pose proof (fold_min_le xs (Nat.min x a)). lia.
  - apply IH. right. exact Hy.
Qed.

Lemma fold_max_ge_all (xs : list nat) : forall x y, In y (x :: xs) -> y <= fold_left Nat.max xs x.
Proof.
  induction xs as [|a xs IH]; simpl; intros x y Hy; [destruct Hy as [<-|[]]; lia|].
  destruct Hy as [<-|[<-|Hy]].
  - pose proof (fold_max_ge xs (Nat.max x a)). lia.
  - pose proof (fold_max_ge xs (Nat.max x a)). lia.
  - apply IH. right. exact Hy.
Qed.

Lemma range_of_spec (g : list nat) : g <> [] ->
  In (start (range_of g)) g /\ In (end_ (range_of g)) g /\
  forall x, In x g -> start (range_of g) <= x <= end_ (range_of g).
Proof.
  destruct g as [|x xs]; [contradiction|]. intros _. simpl.
  split; [apply fold_min_In|]. split; [apply fold_max_In|].
  intros y Hy. split; [apply fold_min_le_all | apply fold_max_ge_all]; exact Hy.
Qed.

Lemma range_of_lt (g : list nat) (x y : nat) :
  In x g -> In y g -> x <> y -> start (range_of g) < end_ (range_of g).
Proof.
  intros Hx Hy Hne. assert (Hg : g <> []) by (intros ->; destruct Hx).
  destruct (range_of_spec g Hg) as [_ [_ B]].
  pose proof (B x Hx). pose proof (B y Hy). lia.
Qed.

Lemma insert_by_start_perm (r : Range) (l : list Range) : Permutation (insert_by_start r l) (r :: l).
Proof.
  induction l as [|x l IH]; simpl; [reflexivity|].
  destruct (Nat.leb (start x) (start r)); [|reflexivity].
  transitivity (x :: r :: l); [constructor; exact IH | constructor].
Qed.

Lemma insert_by_start_sorted (r : Range) (l : list Range) :
  Sorted by_start l -> Sorted by_start (insert_by_start r l).
Proof.
  induction l as [|x l IH]; simpl; intros Hs; [repeat constructor|].
  destruct (Nat.leb_spec (start x) (start r)) as [Le|Gt].
  - inversion Hs as [|x' l' Hl Hh]; subst. constructor; [exact (IH Hl)|].
    destruct l as [|y l]; simpl; [constructor; exact Le|].
    inversion Hh; subst. destruct (Nat.leb (start y) (start r)); constructor; assumption.
  - constructor; [exact Hs|]. constructor. unfold by_start. lia.
Qed.

Lemma sort_ranges_spec (l : list Range) :
  Sorted by_start (sort_ranges l) /\ Permutation (sort_ranges l) l.
Proof.
  unfold sort_ranges.
  assert (G : forall acc, Sorted by_start acc ->
            Sorted by_start (fold_left (fun acc r => insert_by_start r acc) l acc) /\
            Permutation (fold_left (fun acc r => insert_by_start r acc) l acc) (l ++ acc)).
  { induction l as [|r l IH]; simpl; intros acc Hs; [split; [exact Hs | reflexivity]|].
    destruct (IH _ (insert_by_start_sorted r acc Hs)) as [H1 H2]. split; [exact H1|].
    rewrite H2, insert_by_start_perm. symmetry. apply Permutation_middle. }
  destruct (G [] (Sorted_nil _)) as [A B]. rewrite app_nil_r in B. split; assumption.
Qed.

Lemma merge_from_contains (rs : list Range) :
  forall prev, StronglySorted by_start (prev :: rs) ->
  forall r, r = prev \/ In r rs ->
  exists s, In s (merge_from prev rs) /\ start s <= start r /\ end_ r <= end_ s.
Proof.
  induction rs as [|r1 rs IH]; intros prev Hs r Hr; simpl.
  - destruct Hr as [->|[]]. exists prev. split; [left; reflexivity | lia].
  - inversion Hs as [|p l Hs' Hf]; subst. inversion Hs' as [|q l' Hs'' Hf']; subst.
    inversion Hf as [|x l0 Hx Hf0]; subst. unfold by_start in Hx.
    destruct (Nat.leb_spec (start r1) (end_ prev)) as [Le|Gt].
    + set (prev' := mkRange (start prev) (Nat.max (end_ prev) (end_ r1))).
      assert (Hs2 : StronglySorted by_start (prev' :: rs)) by (constructor; [exact Hs'' | exact Hf0]).
      destruct Hr as [->|[->|Hr]].
      * destruct (IH prev' Hs2 prev' (or_introl eq_refl)) as [s [Hin [H1 H2]]].
        exists s. split; [exact Hin|]. simpl in H1, H2. lia.
      * destruct (IH prev' Hs2 prev' (or_introl eq_refl)) as [s [Hin [H1 H2]]].
        exists s. split; [exact Hin|]. simpl in H1, H2. lia.
      * exact (IH prev' Hs2 r (or_intror Hr)).
    + destruct Hr as [->|Hr].
      * exists prev. split; [left; reflexivity | lia].
      * assert (Hr' : r = r1 \/ In r rs) by (destruct Hr as [<-|Hr]; auto).
        destruct (IH r1 Hs' r Hr') as [s [Hin Hb]]. exists s. split; [right; exact Hin | exact Hb].
Qed.

Lemma merge_from_chained (inputs rs : list Range) :
  forall prev, chained inputs prev -> (forall r, In r rs -> In r inputs) ->
  forall s, In s (merge_from prev rs) -> chained inputs s.
Proof.
  induction rs as [|r1 rs IH]; intros prev Hp Hin s Hs; simpl in Hs.
  - destruct Hs as [<-|[]]. exact Hp.
  - assert (Hr1 : In r1 inputs) by (apply Hin; left; reflexivity).
    assert (Hrs : forall r, In r rs -> In r inputs) by (intros r Hr; apply Hin; right; exact Hr).
    destruct (Nat.leb_spec (start r1) (end_ prev)) as [Le|Gt].
    + refine (IH _ _ Hrs s Hs). intros n Hn1 Hn2. simpl in Hn1, Hn2.
      destruct (Nat.le_gt_cases (S n) (end_ prev)) as [Hle|Hgt].
      * apply Hp; lia.
      * exists r1. split; [exact Hr1 | lia].
    + destruct Hs as [<-|Hs]; [exact Hp|].
      refine (IH _ _ Hrs s Hs). intros n Hn1 Hn2. exists r1. split; [exact Hr1 | lia].
Qed.

Lemma merge_from_lt (rs : list Range) :
  forall prev, start prev < end_ prev -> Forall (fun r => start r < end_ r) rs ->
  forall s, In s (merge_from prev rs) -> start s < end_ s.
Proof.
  induction rs as [|r1 rs IH]; intros prev Hp Hrs s Hs; simpl in Hs.
  - destruct Hs as [<-|[]]. exact Hp.
  - inversion Hrs as [|x l Hr1 Hrs']; subst.
    destruct (Nat.leb (start r1) (end_ prev)).
    + refine (IH _ _ Hrs' s Hs). simpl. lia.
    + destruct Hs as [<-|Hs]; [exact Hp | exact (IH _ Hr1 Hrs' s Hs)].
Qed.

Lemma getInstructionScopeRanges_merge (func : FunctionBody) (valuesInfo : ValueInfos) :
  getInstructionScopeRanges func valuesInfo =
  match sort_ranges (map range_of (buildSets (build_mutating_sets func valuesInfo))) with
  | [] => []
  | r0 :: rs => merge_from r0 rs
  end.
Proof.
  unfold getInstructionScopeRanges. destruct (buildSets _); reflexivity.
Qed.

(** Merging sorted non-degenerate ranges. *)
Lemma merge_ranges_spec (inputs : list Range) :
  Forall (fun r => start r < end_ r) inputs ->
  let spans := match sort_ranges inputs with [] => [] | r0 :: rs => merge_from r0 rs end in
  (forall r, In r inputs -> exists s, In s spans /\ start s <= start r /\ end_ r <= end_ s) /\
  (forall s, In s spans -> chained inputs s) /\
  (forall s, In s spans -> start s < end_ s).
Proof.
  intros Hlt spans. destruct (sort_ranges_spec inputs) as [Hsort Hperm].
  assert (Mem : forall r, In r (sort_ranges inputs) <-> In r inputs)
    by (intros r; split; apply Permutation_in; [exact Hperm | symmetry; exact Hperm]).
  assert (Lt : Forall (fun r => start r < end_ r) (sort_ranges inputs)).
  { apply Forall_forall. intros r Hr. apply Mem in Hr. rewrite Forall_forall in Hlt. exact (Hlt r Hr). }
  apply Sorted_StronglySorted in Hsort; [|intros a b c; unfold by_start; lia].
  unfold spans. destruct (sort_ranges inputs) as [|r0 rs] eqn:Es.
  - split; [|split; intros s []]. intros r Hr. apply Mem in Hr. destruct Hr.
  - split; [|split].
    + intros r Hr. apply Mem in Hr. apply merge_from_contains; [exact Hsort|].
      destruct Hr as [<-|Hr]; [left|right]; auto.
    + apply merge_from_chained.
      * intros n Hn1 Hn2. exists r0. split; [apply Mem; left; reflexivity | lia].
      * intros r Hr. apply Mem. right. exact Hr.
    + inversion Lt; subst. apply merge_from_lt; assumption.
Qed.

Lemma analyze_shouldMemoize (func : FunctionBody) (id : InstrId) (info : ValueInfo) :
  nth_error (analyze func) id = Some info -> shouldMemoize info = shouldMemo info.
Proof.
  intros H. pose proof (analyze_proj_all func) as E.
  apply (f_equal (fun l => nth_error l id)) in E. rewrite !nth_error_map, H in E.
  destruct (nth_error func id) as [instr|]; [|discriminate E].
  cbn [option_map] in E. injection E as Ed Es. unfold info_proj in Ed, Es. simpl in Ed, Es.
  unfold shouldMemoize. rewrite Es, <- Ed, <- andb_assoc, andb_diag. reflexivity.
Qed.

(** C2: for every function body and its analysis: each set [buildSets]
    returns is duplicate-free, has at least two members, and is exactly the
    class of any of its members under [linked] (an instruction with
    [shouldMemo] is unioned with every id of its mutator set); two distinct
    linked ids are in a common set, so only singleton classes are dropped.
    Each set yields the range [[min, max]] of its members. The ranges are
    sorted by start (a permutation of them), then merged: the spans are
    disjoint and ascending ([scopes_ok]), every range lies inside a span, and
    any two consecutive ids of a span lie in one range (ranges are merged
    exactly when they overlap). Every span has start < end. Finally a scope
    with start = end whose instruction is a Declare is emitted as a plain
    instruction, not a block; by the previous point no span of
    [getInstructionScopeRanges] has that shape. *)
Theorem getInstructionScopeRanges_spec (func : FunctionBody) :
  let valuesInfo := analyze func in
  let mutatingSets := buildSets (build_mutating_sets func valuesInfo) in
  let ranges := map range_of mutatingSets in
  let spans := getInstructionScopeRanges func valuesInfo in
  (forall g, In g mutatingSets ->
     NoDup g /\ 2 <= List.length g /\
     forall x, In x g -> forall y, In y g <-> linked func valuesInfo x y) /\
  (forall x y, linked func valuesInfo x y -> x <> y ->
     exists g, In g mutatingSets /\ In x g /\ In y g) /\
  (forall g, In g mutatingSets ->
     In (start (range_of g)) g /\ In (end_ (range_of g)) g /\
     forall x, In x g -> start (range_of g) <= x <= end_ (range_of g)) /\
  Sorted by_start (sort_ranges ranges) /\ Permutation (sort_ranges ranges) ranges /\
  spans = match sort_ranges ranges with [] => [] | r0 :: rs => merge_from r0 rs end /\
  scopes_ok 0 (List.length func) spans /\
  (forall r, In r ranges -> exists s, In s spans /\ start s <= start r /\ end_ r <= end_ s) /\
  (forall s n, In s spans -> start s <= n -> n < end_ s ->
     exists r, In r ranges /\ start r <= n /\ S n <= end_ r) /\
  (forall s, In s spans -> start s < end_ s) /\
  (forall startingInstrId scope rest hir lhs rhs,
     start scope = end_ scope -> nth_error func (start scope) = Some (Declare lhs rhs) ->
     emit_scopes func valuesInfo startingInstrId (scope :: rest) hir =
     emit_scopes func valuesInfo (S (end_ scope)) rest
       ((hir ++ pass_through func startingInstrId (start scope)) ++
        [RInstr (start scope) (Declare lhs rhs)])).
Proof.
  intros valuesInfo mutatingSets ranges spans.
  destruct (build_mutating_sets_Sem func valuesInfo) as [Inv [S1 [S2 S3]]].
  set (ds := build_mutating_sets func valuesInfo) in *.
  set (P := mutating_pairs func valuesInfo) in *.
  assert (HL : forall x y, conn P x y <-> linked func valuesInfo x y)
    by (intros x y; apply mutating_pairs_linked; intros id info; apply analyze_shouldMemoize).
  destruct (buildSets_spec ds Inv) as [B1 B2].
  assert (Classes : forall g, In g mutatingSets ->
     NoDup g /\ 2 <= List.length g /\
     forall x, In x g -> forall y, In y g <-> linked func valuesInfo x y).
  { intros g Hg. destruct (B1 g Hg) as [ND [Hlen Hmem]].
    split; [exact ND|]. split; [lia|]. intros x Hx y. rewrite (Hmem x Hx y), <- HL.
    assert (Kx : is_key ds x) by (apply (Hmem x Hx x) in Hx; tauto).
    split.
    - intros [Ky Hs]. apply S3; [apply S1; exact Kx | apply S1; exact Ky | exact Hs].
    - intros Hc. destruct (conn_fresh _ _ _ _ S2 Hc) as [<-|[Kx' Ky']].
      + apply (Hmem x Hx x). exact Hx.
      + split; [apply S1; exact Ky'|]. apply S3; assumption. }
  assert (Lt : Forall (fun r => start r < end_ r) ranges).
  { apply Forall_forall. intros r Hr. unfold ranges in Hr. apply in_map_iff in Hr as [g [<- Hg]].
    destruct (Classes g Hg) as [ND [Hlen _]].
    destruct g as [|x [|y g']]; simpl in Hlen; [lia | lia|].
    apply (range_of_lt _ x y); [left; reflexivity | right; left; reflexivity |].
    inversion ND; subst. intros ->. apply H1. left. reflexivity. }
  assert (Espans : spans = match sort_ranges ranges with [] => [] | r0 :: rs => merge_from r0 rs end)
    by apply getInstructionScopeRanges_merge.
  destruct (merge_ranges_spec ranges Lt) as [M1 [M2 M3]]. rewrite <- Espans in M1, M2, M3.
  destruct (sort_ranges_spec ranges) as [So Pe].
  split; [exact Classes|]. split.
  { intros x y Hxy Hne. apply HL in Hxy.
    destruct (conn_fresh _ _ _ _ S2 Hxy) as [E|[Kx Ky]]; [contradiction|].
    apply B2; [apply S1; exact Kx | exact Hne | apply S3; assumption]. }
  split.
  { intros g Hg. apply range_of_spec. destruct (Classes g Hg) as [_ [Hlen _]].
    intros ->. simpl in Hlen. lia. }
  split; [exact So|]. split; [exact Pe|]. split; [exact Espans|].
  split; [apply getInstructionScopeRanges_ok|].
  split; [exact M1|]. split; [intros s n Hs; exact (M2 s Hs n)|]. split; [exact M3|].
  intros k scope rest hir lhs rhs E H. cbn [emit_scopes].
  replace (Nat.eqb (start scope) (end_ scope)) with true by (symmetry; apply Nat.eqb_eq; exact E).
  rewrite H. reflexivity.
Qed.

(** ** Further properties of the lowering, the analysis, the code generator
    and the visitor *)

Lemma update_nth_nth {A} (f : A -> A) (n : nat) (l : list A) (u : nat) :
  nth_error (update_nth f n l) u =
  if Nat.eqb n u then option_map f (nth_error l u) else nth_error l u.
Proof.
  revert n u. induction l as [|x l IH]; intros n u; simpl.
  - destruct n, (Nat.eqb _ u), u; reflexivity.
  - destruct n as [|n], u as [|u]; simpl; try reflexivity.
    rewrite IH. reflexivity.
Qed.

Lemma add_mutator_idem (id : InstrId) (vi : ValueInfo) :
  add_mutator id (add_mutator id vi) = add_mutator id vi.
Proof. unfold add_mutator. simpl. rewrite set_add_idem. reflexivity. Qed.

Lemma mutation_fold_nth (w : list InstrId) (id : InstrId) (es : list InstrId)
    (r : ValueInfos) (u : nat) :
  nth_error (fold_left (fun r used => if set_has used w then update_nth (add_mutator id) used r
                                      else r) es r) u =
  option_map (fun vi => if set_has u w && set_has u es then add_mutator id vi else vi)
    (nth_error r u).
Proof.
  revert r. induction es as [|e es IH]; intros r; simpl.
  - rewrite andb_false_r. destruct (nth_error r u); reflexivity.
  - rewrite IH. destruct (set_has e w) eqn:Ew.
    + rewrite update_nth_nth. destruct (Nat.eqb_spec e u) as [<-|Hne].
      * rewrite Nat.eqb_refl, Ew. simpl. destruct (nth_error r e); simpl; [|reflexivity].
        destruct (set_has e es); simpl; [rewrite add_mutator_idem|]; reflexivity.
      * destruct (Nat.eqb u e) eqn:E; [apply Nat.eqb_eq in E; congruence|]. simpl.
        destruct (nth_error r u); reflexivity.
    + destruct (Nat.eqb_spec u e) as [->|Hne]; simpl.
      * rewrite Ew. reflexivity.
      * destruct (nth_error r u); reflexivity.
Qed.

(** the ids of [pre ++ l] from [length pre] on that are Calls consuming [u] *)
Lemma mutation_sweep_nth (w : list InstrId) (u : nat) (l : list Instruction) :
  forall pre r vi, nth_error r u = Some vi ->
  (forall x, In x (mutators vi) -> x < List.length pre) ->
  let cs := if set_has u w then
              filter (fun j => match nth_error (pre ++ l) j with
                               | Some (Call r p args) => set_has u (eachValue (Call r p args))
                               | _ => false
                               end) (seq (List.length pre) (List.length l))
            else [] in
  exists vi', nth_error (mutation_sweep w (List.length pre) l r) u = Some vi' /\
    dependencies vi' = dependencies vi /\ shouldMemo vi' = shouldMemo vi /\
    instructions vi' = match cs with [] => instructions vi | _ => Some (mutators vi ++ cs) end.
Proof.
  induction l as [|instr rest IH]; intros pre r vi Hr Hold cs.
  - exists vi. subst cs. simpl. destruct (set_has u w); auto.
  - set (cond := match instr with
                 | Call _ _ _ => set_has u w && set_has u (eachValue instr)
                 | _ => false end).
    set (vi1 := if cond then add_mutator (List.length pre) vi else vi).
    assert (H1 : nth_error (match instr with
                            | Call _ _ _ =>
                                fold_left (fun r used => if set_has used w
                                             then update_nth (add_mutator (List.length pre)) used r
                                             else r) (eachValue instr) r
                            | _ => r end) u = Some vi1).
    { unfold vi1, cond. destruct instr; try (rewrite Hr; reflexivity).
      rewrite mutation_fold_nth, Hr. reflexivity. }
    assert (Hold1 : forall x, In x (mutators vi1) -> x < List.length (pre ++ [instr])).
    { intros x Hx. rewrite length_app. simpl. unfold vi1 in Hx.
      destruct cond; [|specialize (Hold x Hx); lia].
      unfold mutators, add_mutator in Hx. simpl in Hx. apply In_set_add in Hx.
      destruct Hx as [->|Hx]; [lia|]. specialize (Hold x Hx). lia. }
    destruct (IH (pre ++ [instr]) _ vi1 H1 Hold1) as [vi' [Hn [Hd [Hs Hi]]]].
    cbn [mutation_sweep]. exists vi'.
    replace (List.length (pre ++ [instr])) with (S (List.length pre)) in Hn
      by (rewrite length_app; simpl; lia).
    split; [exact Hn|].
    assert (Hproj : dependencies vi1 = dependencies vi /\ shouldMemo vi1 = shouldMemo vi)
      by (unfold vi1; destruct cond; split; reflexivity).
    split; [rewrite Hd; apply Hproj|]. split; [rewrite Hs; apply Hproj|].
    rewrite <- app_assoc in Hi. cbn [app] in Hi.
    replace (List.length (pre ++ [instr])) with (S (List.length pre)) in Hi
      by (rewrite length_app; simpl; lia).
    rewrite Hi. subst cs. cbn [List.length seq].
    unfold vi1, cond in *. clear Hold1 H1 Hn Hd Hs Hproj vi1 cond.
    destruct (set_has u w) eqn:Ew; [|destruct instr; reflexivity].
    cbn [filter]. rewrite nth_error_app2, Nat.sub_diag by lia. cbn [nth_error].
    set (cs' := filter _ (seq (S (List.length pre)) (List.length rest))).
    destruct instr; cbn [andb]; try reflexivity.
    destruct (set_has u (eachValue (Call receiver property arguments))) eqn:Ec.
    + assert (Hm : mutators (add_mutator (List.length pre) vi) = mutators vi ++ [List.length pre]).
      { unfold mutators at 1, add_mutator. cbn [instructions].
        change (match instructions vi with Some s => s | None => [] end) with (mutators vi).
        unfold set_add. destruct (set_has (List.length pre) (mutators vi)) eqn:E; [|reflexivity].
        apply set_has_In, Hold in E. lia. }
      destruct cs' as [|c cs'']; simpl; [|rewrite Hm, <- app_assoc; reflexivity].
      unfold add_mutator. simpl. f_equal. exact Hm.
    + reflexivity.
Qed.

Lemma update_nth_length {A} (f : A -> A) (n : nat) (l : list A) :
  List.length (update_nth f n l) = List.length l.
Proof.
  revert n. induction l as [|x l IH]; intros n; destruct n; simpl; try reflexivity.
  rewrite IH. reflexivity.
Qed.

Lemma mutation_sweep_length (w : list InstrId) (l : list Instruction) :
  forall id r, List.length (mutation_sweep w id l r) = List.length r.
Proof.
  induction l as [|instr rest IH]; intros id r; simpl; [reflexivity|].
  rewrite IH. destruct instr; try reflexivity.
  generalize (eachValue (Call receiver property arguments)) as es. intros es.
  revert r. induction es as [|e es IHe]; intros r; simpl; [reflexivity|].
  rewrite IHe. destruct (set_has e w); [apply update_nth_length | reflexivity].
Qed.

Lemma analyze_length (func : FunctionBody) : List.length (analyze func) = List.length func.
Proof.
  unfold analyze. rewrite mutation_sweep_length. unfold analyze_step1. apply length_map.
Qed.

(** The mutator set [analyze] records for [u]: none unless [u] is writable
    and some Call consumes it; otherwise the consuming Calls, in id order. *)
Lemma analyze_instructions (func : FunctionBody) (u : nat) (vi : ValueInfo) :
  nth_error (analyze func) u = Some vi ->
  instructions vi = if set_has u (getWritableValues func) then
                      match consumers func u with [] => None | cs => Some cs end
                    else None.
Proof.
  intros H.
  assert (Hu : u < List.length func)
    by (rewrite <- analyze_length; apply nth_error_Some; rewrite H; discriminate).
  assert (Hlen : List.length (analyze_step1 func) = List.length func)
    by (unfold analyze_step1; apply length_map).
  destruct (nth_error (analyze_step1 func) u) as [vi0|] eqn:H0;
    [|apply nth_error_None in H0; lia].
  assert (Hn0 : instructions vi0 = None).
  { unfold analyze_step1 in H0. rewrite nth_error_map in H0.
    destruct (nth_error func u); [injection H0 as <-; reflexivity | discriminate]. }
  destruct (mutation_sweep_nth (getWritableValues func) u func [] (analyze_step1 func) vi0 H0)
    as [vi' [Hn [_ [_ Hi]]]].
  { unfold mutators. rewrite Hn0. intros x []. }
  unfold analyze in H. simpl in Hn. rewrite H in Hn. injection Hn as <-.
  rewrite Hi. unfold mutators. rewrite Hn0. cbn [app List.length].
  unfold consumers. destruct (set_has u (getWritableValues func)); [|reflexivity].
  destruct (filter _ _); reflexivity.
Qed.

(** X1: [getWritableValues] holds exactly the ids of the Objects and Calls,
    and of every instruction with an operand that is an earlier writable
    value. *)
Theorem getWritableValues_spec (func : FunctionBody) (x : InstrId) :
  In x (getWritableValues func) <->
  exists instr, nth_error func x = Some instr /\
    (is_object_or_call instr = true \/
     exists u, In u (eachValue instr) /\ u < x /\ In u (getWritableValues func)).
Proof.
  unfold getWritableValues.
  rewrite (sweep_from_spec is_object_or_call func 0 [] ltac:(intros y [])).
  split.
  - intros [[]|[k [instr [Hk [-> H]]]]]. exists instr. split; [exact Hk | exact H].
  - intros [instr [Hx H]]. right. exists x, instr. auto.
Qed.

(** X2: the [instructions] set [analyze] records for a value [u] lists the
    Calls that take [u] as receiver or argument, in id order; it is absent
    when [u] is not writable or no Call consumes it. *)
Theorem analyze_mutator_sets (func : FunctionBody) (u : InstrId) (vi : ValueInfo)
  (H : nth_error (analyze func) u = Some vi) :
  instructions vi = if set_has u (getWritableValues func) then
                      match consumers func u with [] => None | cs => Some cs end
                    else None.
Proof. exact (analyze_instructions func u vi H). Qed.

Lemma analyze_mutator_sets_witness :
  nth_error (analyze blockExample) 2 = Some (mkValueInfo [0] (Some [3]) true) /\
  instructions (mkValueInfo [0] (Some [3]) true) =
    if set_has 2 (getWritableValues blockExample) then
      match consumers blockExample 2 with [] => None | cs => Some cs end
    else None.
Proof.
  assert (H : nth_error (analyze blockExample) 2 = Some (mkValueInfo [0] (Some [3]) true))
    by (vm_compute; reflexivity).
  split; [exact H | exact (analyze_mutator_sets blockExample 2 _ H)].
Defined.

(** X3: on a body whose operands point backwards, every recorded mutator
    of [u] is a later Call consuming [u], and [u] is writable. *)
Theorem analyze_mutators_later (func : FunctionBody) (u j : InstrId) (vi : ValueInfo)
  (Hwf : operands_before func) (H : nth_error (analyze func) u = Some vi)
  (Hj : In j (mutators vi)) :
  u < j /\ In u (getWritableValues func) /\
  exists receiver property args, nth_error func j = Some (Call receiver property args) /\
    In u (eachValue (Call receiver property args)).
Proof.
  unfold mutators in Hj. rewrite (analyze_instructions func u vi H) in Hj.
  destruct (set_has u (getWritableValues func)) eqn:Ew; [|destruct Hj].
  assert (Hc : In j (consumers func u)) by (destruct (consumers func u); [destruct Hj | exact Hj]).
  unfold consumers in Hc. apply filter_In in Hc as [_ Hc].
  destruct (nth_error func j) as [[r p args| | | | | |]|] eqn:Ej; try discriminate.
  apply set_has_In in Hc. apply set_has_In in Ew.
  split; [exact (Hwf j _ Ej u Hc)|]. split; [exact Ew|]. exists r, p, args. auto.
Qed.

Lemma analyze_mutators_later_witness :
  operands_before blockExample /\
  nth_error (analyze blockExample) 2 = Some (mkValueInfo [0] (Some [3]) true) /\
  (2 < 3 /\ In 2 (getWritableValues blockExample) /\
   exists receiver property args, nth_error blockExample 3 = Some (Call receiver property args) /\
     In 2 (eachValue (Call receiver property args))).
Proof.
  assert (Hwf : operands_before blockExample).
  { intros i instr Hi u Hu.
    destruct i as [|[|[|[|[|i]]]]]; simpl in Hi; try (destruct i; discriminate);
      injection Hi as <-; simpl in Hu; lia. }
  assert (H : nth_error (analyze blockExample) 2 = Some (mkValueInfo [0] (Some [3]) true))
    by (vm_compute; reflexivity).
  split; [exact Hwf|]. split; [exact H|].
  apply (analyze_mutators_later blockExample 2 3 _ Hwf H). simpl. left. reflexivity.
Defined.

(** X4: [analyze] marks only Objects and Calls for memoization. *)
Theorem analyze_memo_only_calls_objects (func : FunctionBody) (i : InstrId) (vi : ValueInfo)
  (H : nth_error (analyze func) i = Some vi) (Hm : shouldMemo vi = true) :
  exists instr, nth_error func i = Some instr /\ is_object_or_call instr = true.
Proof.
  pose proof (f_equal (fun l => nth_error l i) (analyze_proj_all func)) as E.
  cbn beta in E. rewrite !nth_error_map, H in E.
  destruct (nth_error func i) as [instr|]; [|discriminate].
  exists instr. split; [reflexivity|].
  injection E as _ Es. rewrite Hm in Es. symmetry in Es. apply andb_true_iff in Es as [Ex _].
  destruct instr; try discriminate; reflexivity.
Qed.

Lemma analyze_memo_only_calls_objects_witness :
  nth_error (analyze blockExample) 2 = Some (mkValueInfo [0] (Some [3]) true) /\
  exists instr, nth_error blockExample 2 = Some instr /\ is_object_or_call instr = true.
Proof.
  assert (H : nth_error (analyze blockExample) 2 = Some (mkValueInfo [0] (Some [3]) true))
    by (vm_compute; reflexivity).
  split; [exact H|]. exact (analyze_memo_only_calls_objects blockExample 2 _ H eq_refl).
Defined.

Lemma readInstructions_wf (func : FunctionDeclaration) (st : LowerState) :
  Forall (fun s => operands_are_expressions s = true) (body func) ->
  readInstructions func = Ok st -> operands_before (instrs st).
Proof.
  intros Hexpr Hread. unfold readInstructions in Hread.
  destruct ((_ <- forM_ (params func) lowerParam ;;
             forM_ (body func) (fun s => _ <- lowerBabelInstr s ;; ret tt))
              (mkLowerState [] [])) as [[u st1]|e] eqn:Hprog; [|discriminate].
  injection Hread as ->.
  apply bind_Ok in Hprog as [v [s1 [H1 H2]]].
  assert (G1 : grows (mkLowerState [] []) s1)
    by exact (forM_grows _ _ (fun p s w s' _ H => lowerParam_grows p s w s' H) _ _ _ H1).
  assert (G2 : grows s1 st).
  { refine (forM_grows _ _ _ _ _ _ H2).
    intros x s w s' Hx H. apply bind_Ok in H as [r [s2 [H3 H4]]].
    injection H4 as _ <-. rewrite Forall_forall in Hexpr.
    exact (proj1 (lower_grows x (Hexpr x Hx) _ _ _ H3)). }
  destruct (grows_trans _ _ _ G1 G2) as [_ W]. apply W.
  intros i instr Hi. destruct i; discriminate.
Qed.

Lemma fold_values_some (g : Value -> option Node) (xs : list Value) :
  (forall a, In a xs -> g a <> None) ->
  fold_right (fun a acc => e <-? g a ;; es <-? acc ;; Some (e :: es)) (Some []) xs <> None.
Proof.
  induction xs as [|a xs IH]; intros H; simpl; [discriminate|].
  destruct (g a) as [e|] eqn:Eg; [|exfalso; exact (H a (or_introl eq_refl) Eg)]. simpl.
  destruct (fold_right _ _ xs) as [es|] eqn:Ef; [simpl; discriminate|].
  exfalso. apply IH; [intros b Hb; exact (H b (or_intror Hb)) | reflexivity].
Qed.

Lemma fold_props_some (g : Value -> option Node) (ps : list (string * Value)) :
  (forall kv, In kv ps -> g (snd kv) <> None) ->
  fold_right (fun kv acc => e <-? g (snd kv) ;; es <-? acc ;;
                            Some (ObjectProperty (Identifier (fst kv)) e :: es)) (Some []) ps
  <> None.
Proof.
  induction ps as [|kv ps IH]; intros H; simpl; [discriminate|].
  destruct (g (snd kv)) as [e|] eqn:Eg; [|exfalso; exact (H kv (or_introl eq_refl) Eg)]. simpl.
  destruct (fold_right _ _ ps) as [es|] eqn:Ef; [simpl; discriminate|].
  exfalso. apply IH; [intros b Hb; exact (H b (or_intror Hb)) | reflexivity].
Qed.

(** With operands referring backwards, the recursion of [instrToExpression]
    from the instruction of id [k] never reads a missing instruction, and
    [k + 1] levels suffice. *)
Lemma instrToExpression_some (func : FunctionBody) (Hwf : operands_before func) (fuel : nat) :
  forall k instr, nth_error func k = Some instr -> k < fuel ->
  instrToExpression fuel instr func <> None.
Proof.
  induction fuel as [|f IH]; intros k instr Hk Hf; [lia|].
  assert (Op : forall v, In v (eachValue instr) ->
            (i <-? nth_error func v ;; instrToExpression f i func) <> None).
  { intros v Hv. pose proof (Hwf k instr Hk v Hv) as Hlt.
    destruct (nth_error func v) as [i|] eqn:Ev.
    - simpl. apply (IH v i Ev). lia.
    - apply nth_error_None in Ev. assert (k < List.length func) by
        (apply nth_error_Some; rewrite Hk; discriminate). lia. }
  cbn [instrToExpression].
  destruct instr as [receiver property args|props|obj property|lhs rhs|name|name|value];
    try discriminate.
  - (* Call *)
    destruct (nth_error func receiver) as [ri|] eqn:Er.
    2:{ exfalso. apply (Op receiver (or_introl eq_refl)). rewrite Er. reflexivity. }
    cbn [obind].
    destruct (instrToExpression f ri func) as [recv|] eqn:Ex.
    2:{ exfalso. apply (Op receiver (or_introl eq_refl)). rewrite Er. simpl. exact Ex. }
    cbn [obind].
    match goal with |- context [fold_right ?F (Some []) args] =>
      assert (Hargs : fold_right F (Some []) args <> None) end.
    { apply fold_values_some. intros [v|l] Ha; [|discriminate].
      apply Op. right. apply value_ids_In. exact Ha. }
    destruct (fold_right _ (Some []) args); [discriminate | exfalso; apply Hargs; reflexivity].
  - (* Object *)
    match goal with |- context [fold_right ?F (Some []) props] =>
      assert (Hps : fold_right F (Some []) props <> None) end.
    { apply (fold_props_some (fun v => match v with
                                       | RValue v => i <-? nth_error func v ;; instrToExpression f i func
                                       | VLiteral l => Some (literal_expr l)
                                       end)). intros [key [v|l]] Ha; [|discriminate].
      apply Op. simpl. apply value_ids_In. apply in_map_iff. exists (key, RValue v). auto. }
    destruct (fold_right _ (Some []) props); [discriminate | exfalso; apply Hps; reflexivity].
  - (* ReadProperty *)
    pose proof (Op obj (or_introl eq_refl)) as Ho.
    destruct (obind (nth_error func obj) _) as [o|]; [|exfalso; apply Ho; reflexivity].
    cbn [obind]. destruct property; discriminate.
Qed.


Lemma make_block_members (func : FunctionBody) (info : ValueInfos) (s e : nat) :
  members_ok func (make_block func info s e).
Proof.
  unfold make_block.
  assert (H : forall l is ds ps, (forall i x, In (i, x) is -> nth_error func i = Some x) ->
            forall i x, In (i, x) (fst (fst (fold_left (make_block_step func info) l (is, ds, ps)))) ->
            nth_error func i = Some x).
  { induction l as [|j l IH]; intros is ds ps Hi; [exact Hi|].
    cbn [fold_left]. unfold make_block_step at 2.
    destruct (nth_error func j) as [instr|] eqn:Ej; [|apply IH; exact Hi].
    apply IH. intros i x Hx. apply in_app_iff in Hx as [Hx|[Hx|[]]]; [exact (Hi i x Hx)|].
    injection Hx as <- <-. exact Ej. }
  specialize (H (seq s (S e - s)) [] [] [] ltac:(intros i x [])).
  destruct (fold_left _ _ _) as [[is ds] ps]. exact H.
Qed.

Lemma pass_through_members (func : FunctionBody) (lo hi : nat) :
  forall ri, In ri (pass_through func lo hi) -> members_ok func ri.
Proof.
  intros ri H. unfold pass_through in H. apply in_flat_map in H as [i [_ H]].
  destruct (nth_error func i); simpl in H; [destruct H as [<-|[]]; exact I | destruct H].
Qed.

Lemma emit_scopes_members (func : FunctionBody) (info : ValueInfos) (scopes : list Range) :
  forall lo hir hir' k, emit_scopes func info lo scopes hir = Some (hir', k) ->
  (forall ri, In ri hir -> members_ok func ri) ->
  forall ri, In ri hir' -> members_ok func ri.
Proof.
  induction scopes as [|sc rest IH]; intros lo hir hir' k He Hhir.
  - injection He as <- _. exact Hhir.
  - cbn [emit_scopes] in He.
    assert (Hstep : forall x, members_ok func x ->
              forall ri, In ri ((hir ++ pass_through func lo (start sc)) ++ [x]) ->
              members_ok func ri).
    { intros x Hx ri Hri. rewrite !in_app_iff in Hri.
      destruct Hri as [[H|H]|[<-|[]]];
        [exact (Hhir _ H) | exact (pass_through_members _ _ _ _ H) | exact Hx]. }
    destruct (Nat.eqb (start sc) (end_ sc)).
    + destruct (nth_error func (start sc)) as [instr|]; [|discriminate].
      destruct instr; (refine (IH _ _ _ _ He (Hstep _ _)); [exact I || apply make_block_members]).
    + exact (IH _ _ _ _ He (Hstep _ (make_block_members _ _ _ _))).
Qed.

Lemma main_operation_In (is : list (InstrId * Instruction)) (info : ValueInfos) (p : InstrId * Instruction) :
  main_operation is info = Some p -> In p is.
Proof.
  induction is as [|[id bi] is IH]; simpl; [discriminate|].
  destruct (nth_error info id) as [vi|].
  - destruct (shouldMemo vi); [intros H; injection H as <-; left; reflexivity|].
    intros H. right. exact (IH H).
  - intros H. right. exact (IH H).
Qed.

Lemma codegen_loop_some (func : FunctionBody) (info : ValueInfos) (Hwf : operands_before func)
    (l : list ReactiveInstruction) :
  (forall ri, In ri l -> members_ok func ri) ->
  forall k, codegen_loop func info l k <> None.
Proof.
 induction l as [|ri l IH]; intros Hl k; [simpl; discriminate|].
  assert (Hl' : forall x, In x l -> members_ok func x) by (intros x Hx; apply Hl; right; exact Hx).
  destruct ri as [is ds deps|id instr]; [destruct deps as [|d deps]|];
    cbn [codegen_loop]; try exact (IH Hl' _).
  destruct (main_operation is info) as [[mid mo]|] eqn:Hm; [|exact (IH Hl' _)].
  assert (Hmo : nth_error func mid = Some mo)
    by exact (Hl _ (or_introl eq_refl) mid mo (main_operation_In _ _ _ Hm)).
  pose proof (instrToExpression_some func Hwf (S (List.length func)) mid mo Hmo) as He.
  assert (mid < List.length func) by (apply nth_error_Some; rewrite Hmo; discriminate).
  destruct (instrToExpression (S (List.length func)) mo func); [|exfalso; exact (He ltac:(lia) eq_refl)].
  cbn [obind]. pose proof (IH Hl' (S k)) as Hc.
  destruct (codegen_loop func info l (S k)); [cbn [obind]; discriminate | exfalso; apply Hc; reflexivity].
Qed.

Lemma codegenJS_some (func : FunctionBody) (Hwf : operands_before func) :
  codegenJS func (analyze func) <> None.
Proof.
  unfold codegenJS, makeReactiveInstrs.
  destruct (emit_scopes_ids func (analyze func) _ 0 [] (getInstructionScopeRanges_ok func))
    as [hir' [k [He _]]].
  rewrite He. cbn [obind]. apply codegen_loop_some; [exact Hwf|].
  intros ri Hri. apply in_map_iff in Hri as [ri0 [<- Hri0]].
  assert (H0 : members_ok func ri0).
  { apply in_app_iff in Hri0 as [H|H].
    - exact (emit_scopes_members _ _ _ _ _ _ _ He ltac:(intros x []) _ H).
    - exact (pass_through_members _ _ _ _ H). }
  destruct ri0; exact H0.
Qed.

(** X5: when operand positions hold expressions, compilation fails only if
    lowering fails, with lowering's error; otherwise it produces an output
    (code generation never fails). *)
Theorem compileFunction_fails_only_in_lowering (f : FunctionDeclaration)
  (Hexpr : Forall (fun s => operands_are_expressions s = true) (body f)) :
  match readInstructions f with
  | Ok _ => exists out, compileFunction f = Ok out
  | Throw e => compileFunction f = Throw e
  end.
Proof.
  unfold compileFunction.
  destruct (readInstructions f) as [st|e] eqn:Hr; [|reflexivity].
  pose proof (codegenJS_some (instrs st) (readInstructions_wf f st Hexpr Hr)) as Hc.
  destruct (codegenJS (instrs st) (analyze (instrs st))); [eexists; reflexivity|].
  exfalso. apply Hc. reflexivity.
Qed.

Lemma compileFunction_fails_only_in_lowering_witness :
  Forall (fun s => operands_are_expressions s = true) (body scenarioA) /\
  exists out, compileFunction scenarioA = Ok out.
Proof.
  assert (H : Forall (fun s => operands_are_expressions s = true) (body scenarioA))
    by (vm_compute; repeat constructor).
  split; [exact H|].
  pose proof (compileFunction_fails_only_in_lowering scenarioA H) as R.
  assert (E : exists st, readInstructions scenarioA = Ok st) by (eexists; vm_compute; reflexivity).
  destruct E as [st E]. rewrite E in R. exact R.
Defined.

Lemma string_mem_In (x : string) (xs : list string) : string_mem x xs = true <-> In x xs.
Proof.
  unfold string_mem. rewrite existsb_exists. split.
  - intros [y [Hy E]]. apply String.eqb_eq in E. subst. exact Hy.
  - intros H. exists x. split; [exact H | apply String.eqb_refl].
Qed.

Lemma dedup_fold_spec (xs : list string) :
  forall acc, NoDup acc ->
  let r := fold_left (fun acc x => if string_mem x acc then acc else acc ++ [x]) xs acc in
  NoDup r /\ (forall y, In y r <-> In y acc \/ In y xs).
Proof.
  induction xs as [|x xs IH]; intros acc Hacc; simpl.
  - split; [exact Hacc | intros y; tauto].
  - destruct (string_mem x acc) eqn:Hm.
    + destruct (IH acc Hacc) as [Hn Hi]. split; [exact Hn|].
      intros y. rewrite Hi. apply string_mem_In in Hm. split; [tauto|].
      intros [H|[<-|H]]; tauto.
    + assert (Hacc' : NoDup (acc ++ [x])).
      { apply NoDup_app; [exact Hacc | constructor; [intros []|constructor] |].
        intros y Hy [->|[]]. apply (proj2 (string_mem_In y acc)) in Hy. congruence. }
      destruct (IH _ Hacc') as [Hn Hi]. split; [exact Hn|].
      intros y. rewrite Hi, in_app_iff. simpl. tauto.
Qed.

Lemma extractIdentifiers_spec (n : Node) :
  NoDup (extractIdentifiers n) /\ (forall y, In y (extractIdentifiers n) <-> In y (traverse n)).
Proof.
  unfold extractIdentifiers, dedup_strings.
  destruct (dedup_fold_spec (traverse n) [] (NoDup_nil _)) as [Hn Hi].
  split; [exact Hn|]. intros y. rewrite Hi. simpl. tauto.
Qed.

(** the declarator [rewrite_declarator] wraps, and its wrapper *)
Lemma rewrite_declarator_wrapped_spec (d d' : Node) (H : rewrite_declarator d = (d', true)) :
  exists id obj m computed args names,
    d = VariableDeclarator id (Some (CallExpression (MemberExpression obj (Identifier m) computed) args)) /\
    In m expensiveMethods /\
    d' = VariableDeclarator id
           (Some (CallExpression (Identifier "useMemo")
                    [ArrowFunctionExpression []
                       (CallExpression (MemberExpression obj (Identifier m) computed) args);
                     ArrayExpression (map Identifier names)])) /\
    NoDup names /\
    (forall x, In x names <->
       In x (traverse (CallExpression (MemberExpression obj (Identifier m) computed) args)) /\
       ~ In x excludeList).
Proof.
  destruct d as [| | | | | | | | | | | | | | | | |id [init|] | | |]; try discriminate.
  unfold rewrite_declarator in H.
  destruct init as [| | | | | | | |callee args| | | | | | | | | | | |]; try discriminate.
  destruct callee as [| | | |obj prop computed| | | | | | | | | | | | | | | |]; try discriminate.
  destruct prop as [m| | | | | | | | | | | | | | | | | | | |]; try discriminate.
  cbn [expensive_call_name] in H.
  destruct (string_mem m expensiveMethods) eqn:Hm; [|discriminate].
  injection H as <-.
  destruct (extractIdentifiers_spec (CallExpression (MemberExpression obj (Identifier m) computed) args))
    as [Hn Hi].
  exists id, obj, m, computed, args,
    (filter (fun x => negb (string_mem x excludeList))
       (extractIdentifiers (CallExpression (MemberExpression obj (Identifier m) computed) args))).
  split; [reflexivity|]. split; [apply string_mem_In; exact Hm|]. split; [reflexivity|].
  split; [apply NoDup_filter; exact Hn|].
  intros x. rewrite filter_In, <- Hi, negb_true_iff.
  rewrite <- (string_mem_In x excludeList). destruct (string_mem x excludeList); intuition congruence.
Qed.

(** the per-declarator test of [hasExpensiveOperation] *)
Lemma hasExpensiveOperation_existsb (decls : list Node) :
  hasExpensiveOperation decls = existsb (fun d => snd (rewrite_declarator d)) decls.
Proof.
  unfold hasExpensiveOperation. induction decls as [|d decls IH]; [reflexivity|].
  cbn [existsb]. rewrite IH. f_equal.
  destruct d as [| | | | | | | | | | | | | | | | |id [init|] | | |]; try reflexivity.
  unfold rewrite_declarator.
  destruct (expensive_call_name (Some init)); [|reflexivity].
  destruct (string_mem s expensiveMethods); reflexivity.
Qed.

Lemma rewrite_declarator_cases (d : Node) :
  (rewrite_declarator d = (d, false) /\ snd (rewrite_declarator (fst (rewrite_declarator d))) = false) \/
  (snd (rewrite_declarator d) = true /\ fst (rewrite_declarator d) <> d /\
   snd (rewrite_declarator (fst (rewrite_declarator d))) = false).
Proof.
  destruct (rewrite_declarator d) as [d' b] eqn:E.
  destruct b.
  - right. destruct (rewrite_declarator_wrapped_spec d d' E)
      as [id [obj [m [c [args [names [-> [_ [-> _]]]]]]]]].
    split; [reflexivity|]. split; [discriminate|]. reflexivity.
  - left. assert (d' = d) as ->.
    { unfold rewrite_declarator in E.
      destruct d as [| | | | | | | | | | | | | | | | |id [init|] | | |];
        try (injection E as <-; reflexivity).
      destruct (expensive_call_name (Some init)); [|injection E as <-; reflexivity].
      destruct (string_mem s expensiveMethods); [discriminate | injection E as <-; reflexivity]. }
    split; [reflexivity|]. simpl. rewrite E. reflexivity.
Qed.

Lemma rewrite_declarators_quiet (decls : list Node) :
  hasExpensiveOperation (map fst (map rewrite_declarator decls)) = false.
Proof.
  rewrite hasExpensiveOperation_existsb. induction decls as [|d decls IH]; [reflexivity|].
  cbn [map existsb]. rewrite IH, orb_false_r.
  destruct (rewrite_declarator_cases d) as [[_ H]|[_ [_ H]]]; exact H.
Qed.

(** X7: rewriting a rewritten statement changes nothing and reports no
    optimization. *)
Theorem rewrite_statement_idempotent (stmt : Node) :
  rewrite_statement (fst (rewrite_statement stmt)) = (fst (rewrite_statement stmt), false).
Proof.
  destruct stmt as [| | | | | | | | | | | | | | | |kind decls| | | |]; try reflexivity.
  unfold rewrite_statement at 2 3.
  destruct (hasExpensiveOperation decls) eqn:Hd.
  - cbn [fst]. unfold rewrite_statement. rewrite rewrite_declarators_quiet. reflexivity.
  - cbn [fst]. unfold rewrite_statement. rewrite Hd. reflexivity.
Qed.

Lemma map_fixed {A} (f : A -> A) (l : list A) : map f l = l -> forall x, In x l -> f x = x.
Proof.
  induction l as [|y l IH]; simpl; [intros _ _ []|].
  intros H. injection H as H1 H2. intros x [<-|Hx]; [exact H1 | exact (IH H2 x Hx)].
Qed.

Lemma existsb_map_comp {A B} (f : B -> bool) (g : A -> B) (l : list A) :
  existsb f (map g l) = existsb (fun x => f (g x)) l.
Proof. induction l as [|x l IH]; simpl; [reflexivity|]. rewrite IH. reflexivity. Qed.

Lemma rewrite_statement_flag (stmt : Node) :
  if snd (rewrite_statement stmt) then fst (rewrite_statement stmt) <> stmt
  else fst (rewrite_statement stmt) = stmt.
Proof.
  destruct stmt as [| | | | | | | | | | | | | | | |kind decls| | | |]; try reflexivity.
  unfold rewrite_statement. destruct (hasExpensiveOperation decls) eqn:Hd; [|reflexivity].
  rewrite hasExpensiveOperation_existsb in Hd. cbn [fst snd].
  rewrite existsb_map_comp, Hd. intros E. injection E as E.
  rewrite map_map in E. apply existsb_exists in Hd as [d [Hin Hf]].
  pose proof (map_fixed _ _ E d Hin) as Hfix.
  destruct (rewrite_declarator_cases d) as [[H _]|[_ [H _]]].
  - rewrite H in Hf. discriminate.
  - exact (H Hfix).
Qed.

Lemma rewrite_statements_changed (stmts : list Node) :
  existsb snd (map rewrite_statement stmts) = true <-> map fst (map rewrite_statement stmts) <> stmts.
Proof.
  rewrite map_map. split.
  - intros Hb E. apply existsb_exists in Hb as [p [Hp Hs]].
    apply in_map_iff in Hp as [s [<- Hs']].
    pose proof (rewrite_statement_flag s) as F. rewrite Hs in F.
    exact (F (map_fixed _ _ E s Hs')).
  - intros Hne. destruct (existsb snd (map rewrite_statement stmts)) eqn:Hb; [reflexivity|].
    exfalso. apply Hne. clear Hne. induction stmts as [|s stmts IH]; [reflexivity|].
    cbn [map existsb] in *. apply orb_false_iff in Hb as [H1 H2].
    pose proof (rewrite_statement_flag s) as F. rewrite H1 in F.
    simpl. rewrite F, IH by exact H2. reflexivity.
Qed.

(** X8: [hasAnyOptimizations] is set exactly when the output body differs
    from the input body. *)
Theorem compileFunction_optimized_iff_changed (f : FunctionDeclaration) (out : CompileOutput)
  (H : compileFunction f = Ok out) :
  hasAnyOptimizations out = true <-> out_body out <> body f.
Proof.
  unfold compileFunction in H.
  destruct (readInstructions f) as [st|e]; [|discriminate].
  destruct (codegenJS (instrs st) (analyze (instrs st))) as [gen|]; [|discriminate].
  injection H as <-. cbn [hasAnyOptimizations out_body].
  destruct gen as [|g gen].
  - cbn [List.length Nat.ltb Nat.leb orb]. apply rewrite_statements_changed.
  - cbn [List.length]. split; [|reflexivity]. intros _ E.
    apply (f_equal (@List.length Node)) in E.
    rewrite length_app, !length_map in E. simpl in E. lia.
Qed.

(** X6: a declarator that [rewrite_declarator] wraps is [id = obj.m(args)]
    with [m] an expensive method; the wrapper is
    [useMemo(() => obj.m(args), [names])], where [names] are the distinct
    identifiers of the call that are not in the exclude list. *)
Theorem rewrite_declarator_wrapped (d d' : Node) (H : rewrite_declarator d = (d', true)) :
  exists id obj m computed args names,
    d = VariableDeclarator id (Some (CallExpression (MemberExpression obj (Identifier m) computed) args)) /\
    In m expensiveMethods /\
    d' = VariableDeclarator id
           (Some (CallExpression (Identifier "useMemo")
                    [ArrowFunctionExpression []
                       (CallExpression (MemberExpression obj (Identifier m) computed) args);
                     ArrayExpression (map Identifier names)])) /\
    NoDup names /\
    (forall x, In x names <->
       In x (traverse (CallExpression (MemberExpression obj (Identifier m) computed) args)) /\
       ~ In x excludeList).
Proof. exact (rewrite_declarator_wrapped_spec d d' H). Qed.

Lemma rewrite_declarator_wrapped_witness :
  let d := VariableDeclarator (Identifier "c")
             (Some (CallExpression (MemberExpression (Identifier "items") (Identifier "map") false)
                      [Identifier "f"; Identifier "Math"; Identifier "f"])) in
  let d' := fst (rewrite_declarator d) in
  rewrite_declarator d = (d', true) /\
  exists id obj m computed args names,
    d = VariableDeclarator id (Some (CallExpression (MemberExpression obj (Identifier m) computed) args)) /\
    In m expensiveMethods /\
    d' = VariableDeclarator id
           (Some (CallExpression (Identifier "useMemo")
                    [ArrowFunctionExpression []
                       (CallExpression (MemberExpression obj (Identifier m) computed) args);
                     ArrayExpression (map Identifier names)])) /\
    NoDup names /\
    (forall x, In x names <->
       In x (traverse (CallExpression (MemberExpression obj (Identifier m) computed) args)) /\
       ~ In x excludeList).
Proof.
  intros d d'.
  assert (H : rewrite_declarator d = (d', true)) by (vm_compute; reflexivity).
  split; [exact H | exact (rewrite_declarator_wrapped d d' H)].
Defined.

Lemma compileFunction_optimized_iff_changed_witness :
  exists out, compileFunction scenarioA = Ok out /\
    (hasAnyOptimizations out = true <-> out_body out <> body scenarioA).
Proof.
  destruct (compileFunction scenarioA) as [out|e] eqn:H; [|vm_compute in H; discriminate].
  exists out. split; [reflexivity|]. exact (compileFunction_optimized_iff_changed scenarioA out H).
Defined.

Lemma emit_scopes_forall (P : ReactiveInstruction -> Prop) (func : FunctionBody) (info : ValueInfos)
    (HR : forall i x, P (RInstr i x)) (HB : forall s e, P (make_block func info s e))
    (scopes : list Range) :
  forall lo hir hir' k, emit_scopes func info lo scopes hir = Some (hir', k) ->
  (forall ri, In ri hir -> P ri) -> forall ri, In ri hir' -> P ri.
Proof.
  assert (HP : forall lo hi ri, In ri (pass_through func lo hi) -> P ri).
  { intros lo hi ri H. unfold pass_through in H. apply in_flat_map in H as [i [_ H]].
    destruct (nth_error func i); simpl in H; [destruct H as [<-|[]]; apply HR | destruct H]. }
  induction scopes as [|sc rest IH]; intros lo hir hir' k He Hhir.
  - injection He as <- _. exact Hhir.
  - cbn [emit_scopes] in He.
    assert (Hstep : forall x, P x ->
              forall ri, In ri ((hir ++ pass_through func lo (start sc)) ++ [x]) -> P ri).
    { intros x Hx ri Hri. rewrite !in_app_iff in Hri.
      destruct Hri as [[H|H]|[<-|[]]]; [exact (Hhir _ H) | exact (HP _ _ _ H) | exact Hx]. }
    destruct (Nat.eqb (start sc) (end_ sc)).
    + destruct (nth_error func (start sc)) as [instr|]; [|discriminate].
      destruct instr; (refine (IH _ _ _ _ He (Hstep _ _)); [apply HR || apply HB]).
    + exact (IH _ _ _ _ He (Hstep _ (HB _ _))).
Qed.

Lemma makeReactiveInstrs_forall (P : ReactiveInstruction -> Prop) (func : FunctionBody)
    (info : ValueInfos) (HR : forall i x, P (RInstr i x)) (HB : forall s e, P (make_block func info s e))
    (hir : list ReactiveInstruction) :
  makeReactiveInstrs func info = Some hir -> forall ri, In ri hir -> P ri.
Proof.
  unfold makeReactiveInstrs.
  destruct (emit_scopes func info 0 _ []) as [[hir' k]|] eqn:He; [|discriminate].
  intros H. injection H as <-. intros ri Hri. apply in_app_iff in Hri as [H|H].
  - exact (emit_scopes_forall P func info HR HB _ _ _ _ _ He ltac:(intros x []) _ H).
  - unfold pass_through in H. apply in_flat_map in H as [i [_ H]].
    destruct (nth_error func i); simpl in H; [destruct H as [<-|[]]; apply HR | destruct H].
Qed.


Lemma fold_set_add_spec (deps : list InstrId) :
  forall ps, NoDup ps ->
  NoDup (fold_left (fun a d => set_add d a) deps ps) /\
  (forall d, In d (fold_left (fun a d => set_add d a) deps ps) <-> In d ps \/ In d deps).
Proof.
  induction deps as [|x deps IH]; intros ps Hps; simpl.
  - split; [exact Hps | intros d; tauto].
  - destruct (IH (set_add x ps) (NoDup_set_add x ps Hps)) as [Hn Hi].
    split; [exact Hn|]. intros d. rewrite Hi, In_set_add. simpl. intuition (subst; auto).
Qed.

Lemma make_block_ok (func : FunctionBody) (info : ValueInfos) (s e : nat) :
  block_ok func info (make_block func info s e).
Proof.
  unfold make_block.
  assert (H : forall l is ds ps,
            block_ok func info (ReactiveBlock is ds ps) -> NoDup l ->
            (forall j, In j l -> ~ In j (map fst is)) ->
            let '(is', ds', ps') := fold_left (make_block_step func info) l (is, ds, ps) in
            block_ok func info (ReactiveBlock is' ds' ps')).
  { induction l as [|i l IH]; intros is ds ps Hok Hnd Hfresh; [exact Hok|].
    cbn [fold_left]. unfold make_block_step at 2.
    inversion Hnd as [|? ? Hni Hnd']; subst.
    destruct (nth_error func i) as [instr|] eqn:Ei.
    2:{ apply IH; [exact Hok | exact Hnd' | intros j Hj; apply Hfresh; right; exact Hj]. }
    apply IH; [| exact Hnd' |].
    - destruct Hok as [Hm [Hds [Hps Hdep]]].
      set (deps := match nth_error info i with Some vi => dependencies vi | None => [] end).
      destruct (fold_set_add_spec deps ps Hps) as [Hn Hi].
      split; [|split; [|split]].
      + intros j x Hj. apply in_app_iff in Hj as [Hj|[Hj|[]]]; [exact (Hm j x Hj)|].
        injection Hj as <- <-. exact Ei.
      + rewrite map_app, Hds. simpl. unfold set_add.
        destruct (set_has i (map fst is)) eqn:Hh; [|reflexivity].
        apply set_has_In in Hh. exfalso. exact (Hfresh i (or_introl eq_refl) Hh).
      + exact Hn.
      + intros d. rewrite Hi, Hdep. unfold deps. split.
        * intros [[j [x [vi [Hj Hv]]]]|Hd].
          -- exists j, x, vi. rewrite in_app_iff. tauto.
          -- destruct (nth_error info i) as [vi|] eqn:Ev; [|destruct Hd].
             exists i, instr, vi. rewrite in_app_iff. simpl. tauto.
        * intros [j [x [vi [Hj [Hv Hd]]]]]. apply in_app_iff in Hj as [Hj|[Hj|[]]].
          -- left. exists j, x, vi. tauto.
          -- injection Hj as <- <-. right. rewrite Hv. exact Hd.
    - intros j Hj. rewrite map_app, in_app_iff. simpl.
      intros [H|[<-|[]]]; [exact (Hfresh j (or_intror Hj) H) | exact (Hni Hj)]. }
  specialize (H (seq s (S e - s)) [] [] []).
  destruct (fold_left _ _ _) as [[is ds] ps]. apply H.
  - split; [intros i x []|]. split; [reflexivity|]. split; [constructor|].
    intros d. split; [intros []|intros [i [x [vi [[] _]]]]].
  - apply seq_NoDup.
  - intros j _ [].
Qed.

(** X9: every ReactiveBlock of [makeReactiveInstrs] holds instructions of
    the body at their ids; its declarations are its member ids; its
    dependencies are duplicate-free and are exactly the dependencies of its
    members. *)
Theorem makeReactiveInstrs_blocks (func : FunctionBody) (info : ValueInfos)
  (hir : list ReactiveInstruction) (is : list (InstrId * Instruction)) (ds ps : list InstrId)
  (H : makeReactiveInstrs func info = Some hir) (Hin : In (ReactiveBlock is ds ps) hir) :
  (forall i x, In (i, x) is -> nth_error func i = Some x) /\ ds = map fst is /\ NoDup ps /\
  (forall d, In d ps <-> exists i x vi, In (i, x) is /\ nth_error info i = Some vi /\
                                        In d (dependencies vi)).
Proof.
  exact (makeReactiveInstrs_forall (block_ok func info) func info (fun _ _ => I)
           (make_block_ok func info) hir H _ Hin).
Qed.

Lemma fold_values_In (g : Value -> option Node) (xs : list Value) (es : list Node) :
  fold_right (fun a acc => e <-? g a ;; es <-? acc ;; Some (e :: es)) (Some []) xs = Some es ->
  forall e, In e es -> exists a, In a xs /\ g a = Some e.
Proof.
  revert es. induction xs as [|a xs IH]; intros es H e He; simpl in H.
  - injection H as <-. destruct He.
  - destruct (g a) as [e'|] eqn:Eg; [|discriminate]. simpl in H.
    destruct (fold_right _ _ xs) as [es'|] eqn:Ef; [|discriminate]. simpl in H.
    injection H as <-. destruct He as [<-|He].
    + exists a. split; [left; reflexivity | exact Eg].
    + destruct (IH es' eq_refl e He) as [b [Hb Hg]]. exists b. split; [right; exact Hb | exact Hg].
Qed.

Lemma fold_props_In (g : Value -> option Node) (ps : list (string * Value)) (es : list Node) :
  fold_right (fun kv acc => e <-? g (snd kv) ;; es <-? acc ;;
                            Some (ObjectProperty (Identifier (fst kv)) e :: es)) (Some []) ps
  = Some es ->
  forall p, In p es -> exists kv e, In kv ps /\ g (snd kv) = Some e /\ p = ObjectProperty (Identifier (fst kv)) e.
Proof.
  revert es. induction ps as [|kv ps IH]; intros es H p Hp; simpl in H.
  - injection H as <-. destruct Hp.
  - destruct (g (snd kv)) as [e'|] eqn:Eg; [|discriminate]. simpl in H.
    destruct (fold_right _ _ ps) as [es'|] eqn:Ef; [|discriminate]. simpl in H.
    injection H as <-. destruct Hp as [<-|Hp].
    + exists kv, e'. split; [left; reflexivity | split; [exact Eg | reflexivity]].
    + destruct (IH es' eq_refl p Hp) as [kv' [e [H1 [H2 H3]]]].
      exists kv', e. split; [right; exact H1 | split; assumption].
Qed.

(** X10: a generated expression names only ["unknown"] and the names of
    LoadConstants: Params and Declares are never referenced by name. *)
Theorem instrToExpression_names (fuel : nat) :
  forall instr func e, instrToExpression fuel instr func = Some e ->
  forall x, In x (traverse e) ->
  x = "unknown" \/ instr = LoadConstant x \/ exists j, nth_error func j = Some (LoadConstant x).
Proof.
  induction fuel as [|f IH]; intros instr func e H x Hx; [discriminate|].
  (* an operand: a name of the instruction it refers to *)
  assert (Op : forall v o, (i <-? nth_error func v ;; instrToExpression f i func) = Some o ->
            In x (traverse o) ->
            x = "unknown" \/ exists j, nth_error func j = Some (LoadConstant x)).
  { intros v o Ho Hxo. destruct (nth_error func v) as [i|] eqn:Ev; [|discriminate].
    simpl in Ho. destruct (IH i func o Ho x Hxo) as [Hu|[->|Hj]]; [left; exact Hu| |right; exact Hj].
    right. exists v. exact Ev. }
  assert (Val : forall a o, match a with
                            | RValue v => i <-? nth_error func v ;; instrToExpression f i func
                            | VLiteral l => Some (literal_expr l)
                            end = Some o -> In x (traverse o) ->
            x = "unknown" \/ exists j, nth_error func j = Some (LoadConstant x)).
  { intros [v|l] o Ho Hxo; [exact (Op v o Ho Hxo)|].
    injection Ho as <-. destruct l; destruct Hxo. }
  cbn [instrToExpression] in H.
  destruct instr as [receiver property args|props|obj property|lhs rhs|name|name|value].
  - destruct (i <-? nth_error func receiver ;; instrToExpression f i func) as [recv|] eqn:Er;
      [|discriminate].
    cbn [obind] in H.
    destruct (fold_right _ (Some []) args) as [args'|] eqn:Ea; [|discriminate].
    cbn [obind] in H. injection H as <-. cbn [traverse] in Hx.
    apply in_app_iff in Hx as [Hx|Hx].
    + assert (Hc : In x (traverse recv)).
      { destruct property as [p|]; [|exact Hx]. destruct (String.eqb p ""); [exact Hx|].
        cbn [traverse] in Hx. rewrite app_nil_r in Hx. exact Hx. }
      destruct (Op receiver recv Er Hc); tauto.
    + apply in_flat_map in Hx as [o [Ho Hxo]].
      destruct (fold_values_In _ _ _ Ea o Ho) as [a [_ Ha]].
      destruct (Val a o Ha Hxo); tauto.
  - destruct (fold_right _ (Some []) props) as [ps|] eqn:Ep; [|discriminate].
    cbn [obind] in H. injection H as <-. cbn [traverse] in Hx.
    apply in_flat_map in Hx as [p [Hp Hxp]].
    destruct (fold_props_In (fun a => match a with
                                      | RValue v => i <-? nth_error func v ;; instrToExpression f i func
                                      | VLiteral l => Some (literal_expr l)
                                      end) _ _ Ep p Hp) as [kv [o [_ [Ho ->]]]].
    destruct (Val (snd kv) o Ho Hxp); tauto.
  - destruct (i <-? nth_error func obj ;; instrToExpression f i func) as [o|] eqn:Eo;
      [|discriminate].
    cbn [obind] in H.
    assert (Hxo : In x (traverse o)).
    { destruct property; injection H as <-; cbn [traverse] in Hx;
        rewrite ?app_nil_r in Hx; exact Hx. }
    destruct (Op obj o Eo Hxo); tauto.
  - injection H as <-. destruct Hx as [<-|[]]. left. reflexivity.
  - injection H as <-. destruct Hx as [<-|[]]. left. reflexivity.
  - injection H as <-. destruct Hx as [<-|[]]. right. left. reflexivity.
  - injection H as <-. destruct Hx as [<-|[]]. left. reflexivity.
Qed.

Lemma codegen_loop_names (func : FunctionBody) (info : ValueInfos) (l : list ReactiveInstruction) :
  forall k out, codegen_loop func info l k = Some out ->
  forall i s, nth_error out i = Some s ->
  exists computation depNames,
    s = memo_declaration ("memoized" +s+ string_of_nat (k + i)) computation depNames.
Proof.
  induction l as [|ri l IH]; intros k out H i s Hi.
  - injection H as <-. destruct i; discriminate.
  - destruct ri as [is ds deps|id instr]; [destruct deps as [|d deps]|];
      cbn [codegen_loop] in H; try exact (IH _ _ H i s Hi).
    destruct (main_operation is info) as [[mid mo]|]; [|exact (IH _ _ H i s Hi)].
    cbn [obind] in H.
    destruct (instrToExpression _ mo func) as [e|]; [|discriminate].
    destruct (codegen_loop func info l (S k)) as [out'|] eqn:Hl; [|discriminate].
    injection H as <-. destruct i as [|i].
    + injection Hi as <-. do 2 eexists. rewrite Nat.add_0_r. reflexivity.
    + destruct (IH _ _ Hl i s Hi) as [c [dn E]]. exists c, dn. rewrite E.
      do 3 f_equal. lia.
Qed.

(** X11: the i-th statement [codegenJS] emits is the declaration of
    [memoizedi] by a [useMemo] call. *)
Theorem codegenJS_memo_names (func : FunctionBody) (info : ValueInfos) (out : list Node)
  (H : codegenJS func info = Some out) (i : nat) (s : Node) (Hi : nth_error out i = Some s) :
  exists computation depNames,
    s = memo_declaration ("memoized" +s+ string_of_nat i) computation depNames.
Proof.
  unfold codegenJS in H. destruct (makeReactiveInstrs func info) as [hir|]; [|discriminate].
  exact (codegen_loop_names func info _ 0 out H i s Hi).
Qed.

Lemma rewrite_statement_shape (s : Node) :
  fst (rewrite_statement s) = s \/
  exists kind decls decls', s = VariableDeclaration kind decls /\
    fst (rewrite_statement s) = VariableDeclaration kind decls' /\
    Forall2 (fun d d' => d' = d \/
               exists id init deps, d = VariableDeclarator id (Some init) /\
                 d' = VariableDeclarator id
                        (Some (CallExpression (Identifier "useMemo")
                                 [ArrowFunctionExpression [] init; ArrayExpression deps])))
      decls decls'.
Proof.
  destruct s as [| | | | | | | | | | | | | | | |kind decls| | | |]; try (left; reflexivity).
  unfold rewrite_statement. destruct (hasExpensiveOperation decls); [|left; reflexivity].
  right. exists kind, decls, (map fst (map rewrite_declarator decls)).
  split; [reflexivity|]. split; [reflexivity|].
  rewrite map_map. induction decls as [|d decls IH]; constructor; [|exact IH].
  destruct (rewrite_declarator d) as [d' [|]] eqn:E.
  - right. destruct (rewrite_declarator_wrapped_spec d d' E)
      as [id [obj [m [c [args [names [-> [_ [-> _]]]]]]]]].
    do 3 eexists. split; reflexivity.
  - left. destruct (rewrite_declarator_cases d) as [[H _]|[H _]]; rewrite E in H.
    + injection H as ->. reflexivity.
    + discriminate.
Qed.

(** X12: the compiled body is the generated [useMemo] declarations
    followed by the original statements, each kept as is or a variable
    declaration whose declarators are kept or wrapped in [useMemo]. *)
Theorem compileFunction_output_shape (f : FunctionDeclaration) (out : CompileOutput)
  (H : compileFunction f = Ok out) :
  exists generated,
    out_body out = generated ++ map (fun s => fst (rewrite_statement s)) (body f) /\
    Forall (fun n => exists memoVar computation depNames,
                       n = memo_declaration memoVar computation depNames) generated /\
    Forall (fun s =>
      fst (rewrite_statement s) = s \/
      exists kind decls decls', s = VariableDeclaration kind decls /\
        fst (rewrite_statement s) = VariableDeclaration kind decls' /\
        Forall2 (fun d d' => d' = d \/
                   exists id init deps, d = VariableDeclarator id (Some init) /\
                     d' = VariableDeclarator id
                            (Some (CallExpression (Identifier "useMemo")
                                     [ArrowFunctionExpression [] init; ArrayExpression deps])))
          decls decls') (body f).
Proof.
  unfold compileFunction in H.
  destruct (readInstructions f) as [st|e]; [|discriminate].
  destruct (codegenJS (instrs st) (analyze (instrs st))) as [gen|] eqn:Hg; [|discriminate].
  injection H as <-. exists gen. cbn [out_body]. split.
  - rewrite map_map. destruct gen; reflexivity.
  - split.
    + unfold codegenJS in Hg. destruct (makeReactiveInstrs _ _); [|discriminate].
      exact (proj2 (codegen_loop_shape _ _ _ _ _ Hg)).
    + apply Forall_forall. intros s _. apply rewrite_statement_shape.
Qed.

Section LowerInvariant.
Variable R : LowerState -> LowerState -> Prop.
Hypothesis R_refl : forall st, R st st.
Hypothesis R_trans : forall st1 st2 st3, R st1 st2 -> R st2 st3 -> R st1 st3.
Hypothesis R_push : forall i st, is_param i = false ->
  R st (mkLowerState (instrs st ++ [i]) (logs st ++ [LogInstr (List.length (instrs st))])).
Hypothesis R_log : forall ty st,
  R st (mkLowerState (instrs st) (logs st ++ [LogSkipPattern ty])) /\
  R st (mkLowerState (instrs st) (logs st ++ [LogSkipInstr ty])).

Lemma push_R (i : Instruction) (st : LowerState) (r : InstrId) (st' : LowerState) :
  push i st = Ok (r, st') -> is_param i = false -> R st st'.
Proof. unfold push. intros H Hp. injection H as <- <-. apply R_push, Hp. Qed.

Lemma lower_R (n : Node) : forall st r st', lowerBabelInstr n st = Ok (r, st') -> R st st'.
Proof.
  induction n as [n IH] using (well_founded_ind (well_founded_ltof Node node_size)).
  intros st r st' Hrun.
  assert (Fallback : forall ty, bind (log (LogSkipInstr ty))
                                  (fun _ => push (LoadConstant ("unsupported_" +s+ ty))) st
                                = Ok (r, st') -> R st st').
  { intros ty H. apply bind_Ok in H as [u [st1 [H1 H2]]].
    unfold log in H1. injection H1 as <- <-.
    exact (R_trans _ _ _ (proj2 (R_log ty st)) (push_R _ _ _ _ H2 eq_refl)). }
  destruct n; cbn [lowerBabelInstr] in Hrun;
    try exact (Fallback _ Hrun); try exact (push_R _ _ _ _ Hrun eq_refl).
  - (* Identifier *)
    apply bind_Ok in Hrun as [s0 [st1 [H0 H1]]]. injection H0 as <- <-.
    destruct (getDeclaration (instrs st) name).
    + injection H1 as <- <-. apply R_refl.
    + exact (push_R _ _ _ _ H1 eq_refl).
  - (* MemberExpression *)
    apply bind_Ok in Hrun as [ov [st1 [H1 H2]]].
    pose proof (IH n1 ltac:(unfold ltof; size_lt) _ _ _ H1) as G1.
    apply bind_Ok in H2 as [pn [st2 [H2 H3]]].
    assert (st2 = st1) as ->.
    { destruct n2; try discriminate; injection H2 as _ <-; reflexivity. }
    exact (R_trans _ _ _ G1 (push_R _ _ _ _ H3 eq_refl)).
  - (* ObjectExpression *)
    apply bind_Ok in Hrun as [pv [st1 [H1 H2]]].
    refine (R_trans _ _ _ _ (push_R _ _ _ _ H2 eq_refl)).
    assert (Hsz : forall p, In p properties -> node_size p < node_size (ObjectExpression properties)).
    { intros p Hp. pose proof (in_list_sum_le node_size p properties Hp). simpl. lia. }
    assert (IH' : forall y, node_size y < node_size (ObjectExpression properties) ->
              forall st r st', lowerBabelInstr y st = Ok (r, st') -> R st st')
      by (intros y Hy; apply IH; exact Hy).
    remember (node_size (ObjectExpression properties)) as N eqn:EN. clear EN IH.
    revert H1. generalize (@nil (string * Value)) as acc. intros acc H1.
    clear H2 Fallback. revert acc st pv st1 H1 Hsz.
    induction properties as [|p ps IHps]; intros acc s pv0 s' Hl Hsz.
    + injection Hl as <- <-. apply R_refl.
    + assert (Hszp : forall q, In q ps -> node_size q < N) by (intros q Hq; apply Hsz; right; exact Hq).
      destruct p as [| | | | | |k v| | | | | | | | | | | | | |]; try exact (IHps _ _ _ _ Hl Hszp).
      destruct k; try discriminate.
      apply bind_Ok in Hl as [lv [s1 [Hv Hrest]]].
      refine (R_trans _ _ _ _ (IHps _ _ _ _ Hrest Hszp)).
      destruct (literal_of v).
      * injection Hv as <- <-. apply R_refl.
      * apply bind_Ok in Hv as [x [s2 [Hx Hr]]]. injection Hr as <- <-.
        refine (IH' v _ _ _ _ Hx).
        specialize (Hsz _ (or_introl eq_refl)). simpl in Hsz |- *. lia.
  - (* CallExpression *)
    rename n into callee.
    apply bind_Ok in Hrun as [rp [st1 [H1 H2]]].
    assert (G1 : R st st1).
    { destruct callee as [| | | |o p cb| | | | | | | | | | | | | | | |];
        try (apply bind_Ok in H1 as [x [s2 [Hx Hr]]]; injection Hr as <- <-;
             refine (IH _ _ _ _ _ Hx); unfold ltof; size_lt).
      apply bind_Ok in H1 as [x [s2 [Hx Hr]]].
      destruct p; try discriminate. injection Hr as <- <-.
      exact (IH o ltac:(unfold ltof; size_lt) _ _ _ Hx). }
    cbv beta zeta in H2. apply bind_Ok in H2 as [av [st2 [H3 H4]]].
    refine (R_trans _ _ _ G1 (R_trans _ _ _ _ (push_R _ _ _ _ H4 eq_refl))).
    assert (Hsz : forall a, In a arguments -> node_size a < node_size (CallExpression callee arguments)).
    { intros a Ha. pose proof (in_list_sum_le node_size a arguments Ha). simpl. lia. }
    assert (IH' : forall y, node_size y < node_size (CallExpression callee arguments) ->
              forall st r st', lowerBabelInstr y st = Ok (r, st') -> R st st')
      by (intros y Hy; apply IH; exact Hy).
    remember (node_size (CallExpression callee arguments)) as N eqn:EN. clear EN.
    clear - IH' H3 Hsz R_refl R_trans. revert st1 av st2 H3 Hsz.
    induction arguments as [|a xs IHa]; intros s vs s' Hl Hs.
    + injection Hl as <- <-. apply R_refl.
    + apply bind_Ok in Hl as [v [s1 [Hv Hrest]]].
      apply bind_Ok in Hrest as [vs' [s2 [Hvs Hr]]]. injection Hr as <- <-.
      refine (R_trans _ _ _ _ (IHa _ _ _ Hvs (fun b Hb => Hs b (or_intror Hb)))).
      destruct (literal_of a).
      * injection Hv as <- <-. apply R_refl.
      * apply bind_Ok in Hv as [x [s3 [Hx Hr]]]. injection Hr as <- <-.
        exact (IH' a (Hs a (or_introl eq_refl)) _ _ _ Hx).
  - (* ExpressionStatement *)
    refine (IH n _ _ _ _ Hrun). unfold ltof. simpl. lia.
  - (* ReturnStatement *)
    apply bind_Ok in Hrun as [av [st1 [H1 H2]]].
    refine (R_trans _ _ _ _ (push_R _ _ _ _ H2 eq_refl)).
    destruct argument as [a|].
    + apply bind_Ok in H1 as [x [s2 [Hx Hr]]]. injection Hr as <- <-.
      refine (IH a _ _ _ _ Hx). unfold ltof. simpl. lia.
    + injection H1 as <- <-. apply R_refl.
  - (* VariableDeclaration *)
    apply bind_Ok in Hrun as [s0 [st1 [H0 H1]]]. injection H0 as <- <-.
    cbv beta zeta in H1.
    assert (Hsz : forall d, In d declarations ->
                  node_size d < node_size (VariableDeclaration kind declarations)).
    { intros d Hd. pose proof (in_list_sum_le node_size d declarations Hd). simpl. lia. }
    assert (IH' : forall y, node_size y < node_size (VariableDeclaration kind declarations) ->
              forall st r st', lowerBabelInstr y st = Ok (r, st') -> R st st')
      by (intros y Hy; apply IH; exact Hy).
    remember (node_size (VariableDeclaration kind declarations)) as N eqn:EN. clear EN.
    remember (List.length (instrs st)) as lv eqn:Elv. clear Elv.
    clear - IH' H1 Hsz R_refl R_trans R_push R_log. revert lv st r st' H1 Hsz.
    induction declarations as [|d ds IHd]; intros lv s x s' Hl Hs.
    + injection Hl as <- <-. apply R_refl.
    + assert (Hs' : forall d', In d' ds -> node_size d' < N).
      { intros d' Hd'. apply Hs. right. exact Hd'. }
      destruct d as [| | | | | | | | | | | | | | | | |did init| | |];
        try exact (IHd _ _ _ _ Hl Hs').
      destruct init as [e|]; [|discriminate].
      assert (He : node_size e < N).
      { specialize (Hs _ (or_introl eq_refl)). simpl in Hs. lia. }
      destruct did;
        try (apply bind_Ok in Hl as [u [s1 [Hu Hrest]]];
             unfold log in Hu; injection Hu as <- <-;
             exact (R_trans _ _ _ (proj1 (R_log _ s)) (IHd _ _ _ _ Hrest Hs'))).
      * apply bind_Ok in Hl as [iv [s1 [Hiv Hrest]]].
        apply bind_Ok in Hrest as [cv [s2 [Hcv Hrest]]].
        exact (R_trans _ _ _ (R_trans _ _ _ (IH' e He _ _ _ Hiv) (push_R _ _ _ _ Hcv eq_refl))
                 (IHd _ _ _ _ Hrest Hs')).
      * apply bind_Ok in Hl as [iv [s1 [Hiv Hrest]]].
        apply bind_Ok in Hrest as [cv [s2 [Hcv Hrest]]].
        exact (R_trans _ _ _ (R_trans _ _ _ (IH' e He _ _ _ Hiv) (push_R _ _ _ _ Hcv eq_refl))
                 (IHd _ _ _ _ Hrest Hs')).
Qed.

End LowerInvariant.

Lemma logged_ids_app (a b : list LogLine) :
  logged_ids (a ++ b) = logged_ids a ++ logged_ids b.
Proof. unfold logged_ids. apply flat_map_app. Qed.

Lemma body_step_lower (n : Node) (st : LowerState) (r : InstrId) (st' : LowerState) :
  lowerBabelInstr n st = Ok (r, st') -> body_step st st'.
Proof.
  apply (lower_R body_step).
  - intros s. exists [], []. rewrite !app_nil_r. repeat split; auto.
  - intros s1 s2 s3 [a [la [Ha [Hla [Fa Ga]]]]] [b [lb [Hb [Hlb [Fb Gb]]]]].
    exists (a ++ b), (la ++ lb). rewrite Hb, Ha, Hlb, Hla, !app_assoc.
    repeat split; auto.
    + apply Forall_app; auto.
    + rewrite logged_ids_app, Ga, Gb, Ha, length_app, length_app, seq_app. reflexivity.
  - intros i s Hi. exists [i], [LogInstr (List.length (instrs s))]. simpl.
    repeat split; auto.
  - intros ty s. split; [exists [], [LogSkipPattern ty] | exists [], [LogSkipInstr ty]]; simpl; rewrite !app_nil_r; repeat split; auto.
Qed.

Lemma body_step_forM (xs : list Node) : forall st u st',
  forM_ xs (fun s => _ <- lowerBabelInstr s ;; ret tt) st = Ok (u, st') -> body_step st st'.
Proof.
  induction xs as [|x xs IH]; intros st u st' H; simpl in H.
  - injection H as <- <-. exists [], []. rewrite !app_nil_r. repeat split; auto.
  - apply bind_Ok in H as [v [s1 [H1 H2]]].
    apply bind_Ok in H1 as [r [s0 [H0 H3]]]. injection H3 as <- <-.
    destruct (body_step_lower _ _ _ _ H0) as [a [la [Ha [Hla [Fa Ga]]]]].
    destruct (IH _ _ _ H2) as [b [lb [Hb [Hlb [Fb Gb]]]]].
    exists (a ++ b), (la ++ lb). rewrite Hb, Ha, Hlb, Hla, !app_assoc.
    repeat split; auto.
    + apply Forall_app; auto.
    + rewrite logged_ids_app, Ga, Gb, Ha, length_app, length_app, seq_app. reflexivity.
Qed.

Lemma params_step (ps : list Node) : forall st u st',
  forM_ ps lowerParam st = Ok (u, st') ->
  logs st' = logs st /\ exists k, instrs st' = instrs st ++ k /\ Forall (fun i => is_param i = true) k.
Proof.
  assert (PP : forall nm s v s', push_param (Param nm) s = Ok (v, s') ->
            logs s' = logs s /\ exists k, instrs s' = instrs s ++ k /\ Forall (fun i => is_param i = true) k).
  { unfold push_param. intros nm s v s' H. injection H as <- <-. split; [reflexivity|].
    exists [Param nm]. split; [reflexivity|]. repeat constructor. }
  assert (Comp : forall s1 s2 s3,
            (logs s2 = logs s1 /\ exists k, instrs s2 = instrs s1 ++ k /\ Forall (fun i => is_param i = true) k) ->
            (logs s3 = logs s2 /\ exists k, instrs s3 = instrs s2 ++ k /\ Forall (fun i => is_param i = true) k) ->
            logs s3 = logs s1 /\ exists k, instrs s3 = instrs s1 ++ k /\ Forall (fun i => is_param i = true) k).
  { intros s1 s2 s3 [L1 [k1 [E1 F1]]] [L2 [k2 [E2 F2]]]. split; [congruence|].
    exists (k1 ++ k2). rewrite E2, E1, app_assoc. split; [reflexivity|]. apply Forall_app; auto. }
  assert (Refl : forall s, logs s = logs s /\ exists k, instrs s = instrs s ++ k /\ Forall (fun i => is_param i = true) k).
  { intros s. split; [reflexivity|]. exists []. rewrite app_nil_r. auto. }
  induction ps as [|p ps IH]; intros st u st' H; simpl in H.
  - injection H as <- <-. apply Refl.
  - apply bind_Ok in H as [v [s1 [H1 H2]]]. refine (Comp _ _ _ _ (IH _ _ _ H2)).
    clear IH H2. revert st v s1 H1.
    destruct p; cbn [lowerParam]; intros st v s1 H; try discriminate; [exact (PP _ _ _ _ H)|].
    revert st H. induction properties as [|q qs IHq]; intros s H.
    + injection H as <- <-. apply Refl.
    + destruct q as [| | | | | |k vq| | | | | | | | | | | | | |]; try discriminate. destruct k; try discriminate.
      apply bind_Ok in H as [w [s2 [H1 H2]]].
      exact (Comp _ _ _ (PP _ _ _ _ H1) (IHq _ H2)).
Qed.

(** X13: lowering puts all parameters first and no Param after them, and
    logs each body instruction once, in id order; parameters are never
    logged. *)
Theorem readInstructions_logs (f : FunctionDeclaration) (st : LowerState)
  (Hread : readInstructions f = Ok st) :
  exists np, np <= List.length (instrs st) /\
    (forall i instr, nth_error (instrs st) i = Some instr -> (is_param instr = true <-> i < np)) /\
    logged_ids (logs st) = seq np (List.length (instrs st) - np).
Proof.
  unfold readInstructions in Hread.
  destruct ((_ <- forM_ (params f) lowerParam ;;
             forM_ (body f) (fun s => _ <- lowerBabelInstr s ;; ret tt))
              (mkLowerState [] [])) as [[u st1]|e] eqn:Hprog; [|discriminate].
  injection Hread as <-.
  apply bind_Ok in Hprog as [v [s0 [H1 H2]]].
  destruct (params_step _ _ _ _ H1) as [L0 [k [E0 F0]]]. simpl in L0, E0.
  destruct (body_step_forM _ _ _ _ H2) as [suf [new [E1 [L1 [F1 G1]]]]].
  exists (List.length k). rewrite E1, E0, L1, L0. simpl. rewrite length_app.
  split; [lia|]. split.
  - intros i instr Hi. destruct (Nat.lt_ge_cases i (List.length k)) as [Hlt|Hge].
    + rewrite nth_error_app1 in Hi by exact Hlt.
      rewrite Forall_forall in F0. split; [intros; exact Hlt|intros _].
      apply F0. eapply nth_error_In. exact Hi.
    + rewrite nth_error_app2 in Hi by exact Hge.
      rewrite Forall_forall in F1. rewrite (F1 instr (nth_error_In _ _ Hi)). split; [discriminate|lia].
  - rewrite G1, E0. simpl. f_equal. lia.
Qed.

Lemma bind_Throw {A B} (m : M A) (k : A -> M B) (st : LowerState) (e : string) :
  bind m k st = Throw e -> m st = Throw e \/ exists a st1, m st = Ok (a, st1) /\ k a st1 = Throw e.
Proof.
  unfold bind. destruct (m st) as [[a st1]|e']; intros H; [right; exists a, st1; auto | left; injection H as <-; reflexivity].
Qed.

Ltac no_throw H := unfold push, push_param, log, ret, get_state in H; discriminate H.
Ltac is_invalid H := unfold invalid, throw in H; injection H as <-; left; eexists; reflexivity.

Lemma lower_err (n : Node) : forall st e, lowerBabelInstr n st = Throw e -> lowering_error e.
Proof.
  induction n as [n IH] using (well_founded_ind (well_founded_ltof Node node_size)).
  intros st e Hrun.
  destruct n; cbn [lowerBabelInstr] in Hrun;
    try (apply bind_Throw in Hrun as [H1|[u [s1 [H1 H2]]]]; [no_throw H1 | no_throw H2]);
    try no_throw Hrun.
  - (* Identifier *)
    apply bind_Throw in Hrun as [H1|[s0 [s1 [H1 H2]]]]; [no_throw H1|].
    destruct (getDeclaration _ name); no_throw H2.
  - (* MemberExpression *)
    apply bind_Throw in Hrun as [H1|[ov [s1 [H1 H2]]]].
    + refine (IH n1 _ _ _ H1). unfold ltof. simpl. lia.
    + apply bind_Throw in H2 as [H2|[pn [s2 [H2 H3]]]]; [|no_throw H3].
      destruct n2 eqn:En2; try no_throw H2.
      all: unfold throw in H2; injection H2 as <-; right; exists n2; rewrite En2; reflexivity.
  - (* ObjectExpression *)
    apply bind_Throw in Hrun as [H1|[pv [s1 [H1 H2]]]]; [|no_throw H2].
    assert (IH' : forall y, node_size y < node_size (ObjectExpression properties) ->
              forall st e, lowerBabelInstr y st = Throw e -> lowering_error e)
      by (intros y Hy; apply IH; exact Hy).
    assert (Hsz : forall p, In p properties -> node_size p < node_size (ObjectExpression properties)).
    { intros p Hp. pose proof (in_list_sum_le node_size p properties Hp). simpl. lia. }
    remember (node_size (ObjectExpression properties)) as N eqn:EN. clear EN IH.
    revert H1. generalize (@nil (string * Value)) as acc. intros acc H1.
    revert acc st H1 Hsz.
    induction properties as [|p ps IHps]; intros acc s Hl Hsz; [no_throw Hl|].
    assert (Hszp : forall q, In q ps -> node_size q < N) by (intros q Hq; apply Hsz; right; exact Hq).
    destruct p as [| | | | | |k v| | | | | | | | | | | | | |]; try exact (IHps _ _ Hl Hszp).
    destruct k; try is_invalid Hl.
    apply bind_Throw in Hl as [Hv|[lv [s2 [Hv Hrest]]]]; [|exact (IHps _ _ Hrest Hszp)].
    destruct (literal_of v); [no_throw Hv|].
    apply bind_Throw in Hv as [Hx|[x [s3 [Hx Hr]]]]; [|no_throw Hr].
    refine (IH' v _ _ _ Hx).
    specialize (Hsz _ (or_introl eq_refl)). simpl in Hsz. lia.
  - (* CallExpression *)
    rename n into callee.
    assert (IH' : forall y, node_size y < node_size (CallExpression callee arguments) ->
              forall st e, lowerBabelInstr y st = Throw e -> lowering_error e)
      by (intros y Hy; apply IH; exact Hy).
    apply bind_Throw in Hrun as [H1|[rp [s1 [H1 H2]]]].
    { destruct callee as [| | | |o p cb| | | | | | | | | | | | | | | |];
        try (apply bind_Throw in H1 as [Hx|[x [s2 [Hx Hr]]]]; [|no_throw Hr];
             refine (IH' _ _ _ _ Hx); simpl; lia).
      apply bind_Throw in H1 as [Hx|[x [s2 [Hx Hr]]]].
      - refine (IH' o _ _ _ Hx). simpl. lia.
      - destruct p; try no_throw Hr; is_invalid Hr. }
    cbv beta zeta in H2. apply bind_Throw in H2 as [H3|[av [s2 [H3 H4]]]]; [|no_throw H4].
    assert (Hsz : forall a, In a arguments -> node_size a < node_size (CallExpression callee arguments)).
    { intros a Ha. pose proof (in_list_sum_le node_size a arguments Ha). simpl. lia. }
    remember (node_size (CallExpression callee arguments)) as N eqn:EN. clear EN IH.
    clear H1. revert s1 H3 Hsz.
    induction arguments as [|a xs IHa]; intros s Hl Hs; [no_throw Hl|].
    apply bind_Throw in Hl as [Hv|[v [s3 [Hv Hrest]]]].
    + destruct (literal_of a); [no_throw Hv|].
      apply bind_Throw in Hv as [Hx|[x [s4 [Hx Hr]]]]; [|no_throw Hr].
      exact (IH' a (Hs a (or_introl eq_refl)) _ _ Hx).
    + apply bind_Throw in Hrest as [Hvs|[vs [s4 [Hvs Hr]]]]; [|no_throw Hr].
      exact (IHa _ Hvs (fun b Hb => Hs b (or_intror Hb))).
  - (* ExpressionStatement *)
    refine (IH n _ _ _ Hrun). unfold ltof. simpl. lia.
  - (* ReturnStatement *)
    apply bind_Throw in Hrun as [H1|[av [s1 [H1 H2]]]]; [|no_throw H2].
    destruct argument as [a|]; [|no_throw H1].
    apply bind_Throw in H1 as [Hx|[x [s2 [Hx Hr]]]]; [|no_throw Hr].
    refine (IH a _ _ _ Hx). unfold ltof. simpl. lia.
  - (* VariableDeclaration *)
    apply bind_Throw in Hrun as [H0|[s0 [st1 [H0 H1]]]]; [no_throw H0|].
    cbv beta zeta in H1.
    assert (IH' : forall y, node_size y < node_size (VariableDeclaration kind declarations) ->
              forall st e, lowerBabelInstr y st = Throw e -> lowering_error e)
      by (intros y Hy; apply IH; exact Hy).
    assert (Hsz : forall d, In d declarations ->
                  node_size d < node_size (VariableDeclaration kind declarations)).
    { intros d Hd. pose proof (in_list_sum_le node_size d declarations Hd). simpl. lia. }
    remember (node_size (VariableDeclaration kind declarations)) as N eqn:EN. clear EN IH.
    remember (List.length (instrs s0)) as lv eqn:Elv. clear Elv.
    clear H0. revert lv st1 H1 Hsz.
    induction declarations as [|d ds IHd]; intros lv s Hl Hs; [no_throw Hl|].
    assert (Hs' : forall d', In d' ds -> node_size d' < N).
    { intros d' Hd'. apply Hs. right. exact Hd'. }
    destruct d as [| | | | | | | | | | | | | | | | |did init| | |];
      try exact (IHd _ _ Hl Hs').
    destruct init as [e0|]; [|is_invalid Hl].
    assert (He : node_size e0 < N).
    { specialize (Hs _ (or_introl eq_refl)). simpl in Hs. lia. }
    destruct did;
      try (apply bind_Throw in Hl as [Hu|[u [s1 [Hu Hrest]]]]; [no_throw Hu|];
           exact (IHd _ _ Hrest Hs')).
    all: apply bind_Throw in Hl as [Hiv|[iv [s1 [Hiv Hrest]]]]; [exact (IH' e0 He _ _ Hiv)|];
         apply bind_Throw in Hrest as [Hcv|[cv [s2 [Hcv Hrest]]]]; [no_throw Hcv|];
         exact (IHd _ _ Hrest Hs').
Qed.

Lemma forM_err {A} (xs : list A) (f : A -> M unit) :
  (forall x st e, In x xs -> f x st = Throw e -> lowering_error e) ->
  forall st e, forM_ xs f st = Throw e -> lowering_error e.
Proof.
  intros Hf. induction xs as [|x xs IH]; intros st e H; simpl in H; [no_throw H|].
  apply bind_Throw in H as [H1|[v [s1 [H1 H2]]]].
  - exact (Hf x _ _ (or_introl eq_refl) H1).
  - exact (IH (fun y s e' Hy => Hf y s e' (or_intror Hy)) _ _ H2).
Qed.

Lemma lowerParam_err (p : Node) (st : LowerState) (e : string) :
  lowerParam p st = Throw e -> lowering_error e.
Proof.
  destruct p; cbn [lowerParam]; intros H; try is_invalid H; [no_throw H|].
  revert st H. induction properties as [|q qs IHq]; intros s H; [no_throw H|].
  destruct q as [| | | | | |k vq| | | | | | | | | | | | | |]; try is_invalid H.
  destruct k; try is_invalid H.
  apply bind_Throw in H as [H1|[v [s1 [H1 H2]]]]; [no_throw H1 | exact (IHq _ H2)].
Qed.

Lemma readInstructions_err (f : FunctionDeclaration) (e : string) :
  readInstructions f = Throw e -> lowering_error e.
Proof.
  unfold readInstructions.
  destruct ((_ <- forM_ (params f) lowerParam ;;
             forM_ (body f) (fun s => _ <- lowerBabelInstr s ;; ret tt))
              (mkLowerState [] [])) as [[u st1]|e'] eqn:Hprog; [discriminate|].
  intros H. injection H as <-.
  apply bind_Throw in Hprog as [H1|[v [s0 [H1 H2]]]].
  - exact (forM_err _ _ (fun x st e _ Hx => lowerParam_err x st e Hx) _ _ H1).
  - refine (forM_err _ _ _ _ _ H2). intros x st e _ Hx.
    apply bind_Throw in Hx as [Hx|[r [s1 [_ Hr]]]]; [exact (lower_err _ _ _ Hx) | no_throw Hr].
Qed.

(** X14: compilation throws only ["Invalid syntax. ..."],
    ["Unsupported property type: ..."] or ["TypeError"]. *)
Theorem compileFunction_errors (f : FunctionDeclaration) (e : string)
  (H : compileFunction f = Throw e) :
  lowering_error e \/ e = "TypeError".
Proof.
  unfold compileFunction in H.
  destruct (readInstructions f) as [st|e'] eqn:Hr.
  - destruct (codegenJS _ _); [discriminate|]. injection H as <-. right. reflexivity.
  - injection H as <-. left. exact (readInstructions_err f e' Hr).
Qed.

Lemma makeReactiveInstrs_blocks_witness :
  makeReactiveInstrs blockExample (analyze blockExample) =
    Some [RInstr 0 (Param "items"); RInstr 1 (LoadConstant "foo");
          ReactiveBlock [(2, Object [("a", RValue 0)]); (3, Call 1 None [RValue 2])] [2; 3] [0; 2];
          RInstr 4 (Return (Some 3))] /\
  (forall i x, In (i, x) [(2, Object [("a", RValue 0)]); (3, Call 1 None [RValue 2])] ->
               nth_error blockExample i = Some x) /\
  [2; 3] = map fst [(2, Object [("a", RValue 0)]); (3, Call 1 None [RValue 2])] /\ NoDup [0; 2] /\
  (forall d, In d [0; 2] <-> exists i x vi,
     In (i, x) [(2, Object [("a", RValue 0)]); (3, Call 1 None [RValue 2])] /\
     nth_error (analyze blockExample) i = Some vi /\ In d (dependencies vi)).
Proof.
  assert (H : makeReactiveInstrs blockExample (analyze blockExample) =
    Some [RInstr 0 (Param "items"); RInstr 1 (LoadConstant "foo");
          ReactiveBlock [(2, Object [("a", RValue 0)]); (3, Call 1 None [RValue 2])] [2; 3] [0; 2];
          RInstr 4 (Return (Some 3))]) by (vm_compute; reflexivity).
  split; [exact H|].
  apply (makeReactiveInstrs_blocks _ _ _ _ _ _ H). simpl. right. right. left. reflexivity.
Defined.

Lemma instrToExpression_names_witness :
  instrToExpression 6 (Object [("a", RValue 0)]) blockExample =
    Some (ObjectExpression [ObjectProperty (Identifier "a") (Identifier "unknown")]) /\
  ("unknown" = "unknown" \/ Object [("a", RValue 0)] = LoadConstant "unknown" \/
   exists j, nth_error blockExample j = Some (LoadConstant "unknown")).
Proof.
  assert (H : instrToExpression 6 (Object [("a", RValue 0)]) blockExample =
    Some (ObjectExpression [ObjectProperty (Identifier "a") (Identifier "unknown")]))
    by (vm_compute; reflexivity).
  split; [exact H|].
  apply (instrToExpression_names 6 _ _ _ H). vm_compute. left. reflexivity.
Defined.

Lemma codegenJS_memo_names_witness :
  exists out s, codegenJS blockExample (analyze blockExample) = Some out /\
    nth_error out 0 = Some s /\
    exists computation depNames, s = memo_declaration ("memoized" +s+ string_of_nat 0) computation depNames.
Proof.
  destruct (codegenJS blockExample (analyze blockExample)) as [out|] eqn:H;
    [|vm_compute in H; discriminate].
  destruct (nth_error out 0) as [s|] eqn:Hs;
    [|vm_compute in H; injection H as <-; discriminate].
  exists out, s. split; [first [exact H | reflexivity]|]. split; [first [exact Hs | reflexivity]|].
  exact (codegenJS_memo_names _ _ _ H 0 s Hs).
Defined.

Lemma readInstructions_logs_witness :
  readInstructions scenarioA = Ok scenarioA_state /\
  exists np, np <= List.length (instrs scenarioA_state) /\
    (forall i instr, nth_error (instrs scenarioA_state) i = Some instr ->
                     (is_param instr = true <-> i < np)) /\
    logged_ids (logs scenarioA_state) = seq np (List.length (instrs scenarioA_state) - np).
Proof.
  assert (H : readInstructions scenarioA = Ok scenarioA_state) by (vm_compute; reflexivity).
  split; [exact H|]. exact (readInstructions_logs scenarioA scenarioA_state H).
Defined.

Lemma compileFunction_output_shape_witness :
  exists out, compileFunction scenarioA = Ok out /\
  exists generated,
    out_body out = generated ++ map (fun s => fst (rewrite_statement s)) (body scenarioA) /\
    Forall (fun n => exists memoVar computation depNames,
                       n = memo_declaration memoVar computation depNames) generated /\
    Forall (fun s =>
      fst (rewrite_statement s) = s \/
      exists kind decls decls', s = VariableDeclaration kind decls /\
        fst (rewrite_statement s) = VariableDeclaration kind decls' /\
        Forall2 (fun d d' => d' = d \/
                   exists id init deps, d = VariableDeclarator id (Some init) /\
                     d' = VariableDeclarator id
                            (Some (CallExpression (Identifier "useMemo")
                                     [ArrowFunctionExpression [] init; ArrayExpression deps])))
          decls decls') (body scenarioA).
Proof.
  destruct (compileFunction scenarioA) as [out|e] eqn:H; [|vm_compute in H; discriminate].
  exists out. split; [reflexivity|]. exact (compileFunction_output_shape scenarioA out H).
Defined.

Lemma compileFunction_errors_witness :
  compileFunction computedExample = Throw "Unsupported property type: BinaryExpression" /\
  (lowering_error "Unsupported property type: BinaryExpression" \/
   "Unsupported property type: BinaryExpression" = "TypeError").
Proof.
  assert (H : compileFunction computedExample = Throw "Unsupported property type: BinaryExpression")
    by (vm_compute; reflexivity).
  split; [exact H | exact (compileFunction_errors _ _ H)].
Defined.
